(** * nflstats: a shallow embedding of the scoring formula, the Bayesian
    sequential models, the rushing hyper-parameter tables, the Poisson
    estimator and the draft tables, with the properties stated about them.

    Numbers: Python floats are modelled by exact rationals ([Q], compared
    with [==]); a NaN cell of a pandas column is [None].  Dictionaries are
    stdpp [gmap]s keyed by strings; a DataFrame is the list of its rows in
    row order, each row carrying its index label. *)

From Stdlib Require Import ZArith QArith Qround Qabs Lqa Lia List Ascii String Permutation.
From Stdlib Require Import Sorted.
From stdpp Require Import gmap strings.

Local Open Scope Q_scope.

(** ** Outcomes of Python calls: a value or a raised exception. *)

Inductive exn : Type :=
| IndexError (msg : string)
| KeyError (key : string)
| NameError (name : string)
| AttributeError (name : string)
| AssertionError
| ZeroDivisionError
| TypeError
| ValueError (msg : string)
| RecursionError
| SystemExit (code : Z).

Inductive outcome (A : Type) : Type :=
| Return (a : A)
| Raise (e : exn).
Arguments Return {A} a.
Arguments Raise {A} e.

Definition bind {A B : Type} (m : outcome A) (k : A -> outcome B) : outcome B :=
  match m with
  | Return a => k a
  | Raise e => Raise e
  end.

Notation "'do' x <- m ; k" := (bind m (fun x => k))
  (at level 10, x name, m at level 100, k at level 200).

(** [a // d] on numbers: the floor of the quotient, as a number again. *)
Definition floordiv (x : Q) (d : Z) : Q := inject_Z (Qfloor (x / inject_Z d)).

(** ** get_fantasy_points.py *)
Module Scoring.

(** The attributes of a rule set that [get_points] reads. *)
Record ruleset : Type := {
  ppPY : Q; ppPY25 : Q; ppPC : Q; ppINC : Q; ppPTD : Q; ppINT : Q; pp2PC : Q;
  ppRY : Q; ppRY10 : Q; ppRTD : Q; pp2PR : Q;
  ppREY : Q; ppREY10 : Q; ppREC : Q; ppRETD : Q; pp2PRE : Q;
  ppFUML : Q; ppPAT : Q; ppFGM : Q; ppFG0 : Q
}.

(** [gf = lambda key: df.get(key, 0)] *)
Definition gf (df : gmap string Q) (key : string) : Q := default 0 (df !! key).

Definition get_points (rs : ruleset) (df : gmap string Q) : Q :=
  ppPY rs * gf df "pass_yds"
  + ppPY25 rs * floordiv (gf df "pass_yds") 25
  + ppPC rs * gf df "pass_cmp"
  + ppINC rs * (gf df "pass_att" - gf df "pass_cmp")
  + ppPTD rs * gf df "pass_td"
  + ppINT rs * gf df "pass_int"
  + pp2PC rs * gf df "pass_twoptm"
  + ppRY rs * gf df "rush_yds"
  + ppRY10 rs * floordiv (gf df "rush_yds") 10
  + ppRTD rs * gf df "rush_td"
  + pp2PR rs * gf df "rush_twoptm"
  + ppREY rs * gf df "rec_yds"
  + ppREY10 rs * floordiv (gf df "rec_yds") 10
  + ppREC rs * gf df "rec"
  + ppRETD rs * gf df "rec_td"
  + pp2PRE rs * gf df "rec_twoptm"
  + ppFUML rs * gf df "fumbles_lost"
  + ppPAT rs * gf df "xpm"
  + ppFGM rs * (gf df "fga" - gf df "fgm")
  + ppFG0 rs * gf df "fgm".

(** The specification's reading (section 4.2): a weighted sum, one
    (coefficient, quantity) term per scoring rule, over a total stat row. *)
Definition weighted_sum (terms : list (Q * Q)) : Q :=
  fold_right (fun t acc => fst t * snd t + acc) 0 terms.

Definition floorQ (x : Q) : Q := inject_Z (Qfloor x).

Definition computeFantasyPoints_terms (rs : ruleset) (stat : string -> Q) : list (Q * Q) :=
  [ (ppPY rs, stat "pass_yds"); (ppPY25 rs, floorQ (stat "pass_yds" / 25));
    (ppPC rs, stat "pass_cmp"); (ppINC rs, stat "pass_att" - stat "pass_cmp");
    (ppPTD rs, stat "pass_td"); (ppINT rs, stat "pass_int"); (pp2PC rs, stat "pass_twoptm");
    (ppRY rs, stat "rush_yds"); (ppRY10 rs, floorQ (stat "rush_yds" / 10));
    (ppRTD rs, stat "rush_td"); (pp2PR rs, stat "rush_twoptm");
    (ppREY rs, stat "rec_yds"); (ppREY10 rs, floorQ (stat "rec_yds" / 10));
    (ppREC rs, stat "rec"); (ppRETD rs, stat "rec_td"); (pp2PRE rs, stat "rec_twoptm");
    (ppFUML rs, stat "fumbles_lost"); (ppPAT rs, stat "xpm");
    (ppFGM rs, stat "fga" - stat "fgm"); (ppFG0 rs, stat "fgm") ].

Definition computeFantasyPoints (rs : ruleset) (stat : string -> Q) : Q :=
  weighted_sum (computeFantasyPoints_terms rs stat).

(** A stat row read as a total function: an absent key counts as zero. *)
Definition stat_of (df : gmap string Q) : string -> Q :=
  fun key => match df !! key with Some v => v | None => 0 end.

(** A sample rule set (standard scoring with a point per reception). *)
Definition sample_rules : ruleset := {|
  ppPY := 1 # 25; ppPY25 := 0; ppPC := 0; ppINC := 0; ppPTD := 4; ppINT := -2; pp2PC := 2;
  ppRY := 1 # 10; ppRY10 := 0; ppRTD := 6; pp2PR := 2;
  ppREY := 1 # 10; ppREY10 := 0; ppREC := 1; ppRETD := 6; pp2PRE := 2;
  ppFUML := -2; ppPAT := 1; ppFGM := -1; ppFG0 := 3 |}.

(** A rule set that only pays the per-25 / per-10 yard bonuses. *)
Definition bonus_rules : ruleset := {|
  ppPY := 0; ppPY25 := 1; ppPC := 0; ppINC := 0; ppPTD := 0; ppINT := 0; pp2PC := 0;
  ppRY := 0; ppRY10 := 1; ppRTD := 0; pp2PR := 0;
  ppREY := 0; ppREY10 := 1; ppREC := 0; ppRETD := 0; pp2PRE := 0;
  ppFUML := 0; ppPAT := 0; ppFGM := 0; ppFG0 := 0 |}.

Definition sample_qb : gmap string Q :=
  <["pass_yds" := 250]> (<["pass_cmp" := 20]> (<["pass_att" := 30]>
  (<["pass_td" := 2]> (<["pass_int" := 1]> ∅)))).

Example get_points_sample_qb : get_points sample_rules sample_qb == 16.
Proof. vm_compute. reflexivity. Qed.

Example get_points_bonus_floor :
  get_points bonus_rules (<["pass_yds" := 274]> (<["rush_yds" := 39]> ∅)) == 13.
Proof. vm_compute. reflexivity. Qed.

Lemma gf_stat_of df key : gf df key = stat_of df key.
Proof. unfold gf, stat_of. destruct (df !! key); reflexivity. Qed.

Lemma get_points_ext rs (df1 df2 : gmap string Q) :
  (forall key, gf df1 key = gf df2 key) -> get_points rs df1 = get_points rs df2.
Proof. intros H. unfold get_points. repeat rewrite H. reflexivity. Qed.

Lemma gf_insert_absent (df : gmap string Q) k key :
  df !! k = None -> gf (<[k := 0]> df) key = gf df key.
Proof.
  intros Hk. unfold gf. destruct (decide (k = key)) as [->|Hne].
  - rewrite lookup_insert_eq, Hk. reflexivity.
  - rewrite lookup_insert_ne by assumption. reflexivity.
Qed.

Lemma floordiv_zero x d : x == 0 -> floordiv x d == 0.
Proof.
  intros Hx. unfold floordiv.
  assert (Hq : x / inject_Z d == 0) by (rewrite Hx; unfold Qdiv; ring).
  rewrite Hq. reflexivity.
Qed.

(** C1.  [get_points] is the weighted sum of section 4.2 with floored
    per-25 and per-10 yard bonus terms; a key missing from the record counts
    exactly as a stored zero; a record whose stats are all zero scores 0
    under every rule set. *)
Theorem get_points_weighted_sum : forall (rs : ruleset) (df : gmap string Q),
  get_points rs df == computeFantasyPoints rs (stat_of df)
  /\ (forall k, df !! k = None -> get_points rs (<[k := 0]> df) = get_points rs df)
  /\ ((forall key, stat_of df key == 0) -> get_points rs df == 0).
Proof.
  intros rs df. split; [|split].
  - unfold get_points, computeFantasyPoints, computeFantasyPoints_terms, weighted_sum.
    cbv [gf stat_of default from_option id floordiv floorQ fold_right fst snd].
    change (inject_Z 25) with 25. change (inject_Z 10) with 10. ring.
  - intros k Hk. apply get_points_ext. intros key. apply gf_insert_absent, Hk.
  - intros Hz. unfold get_points.
    assert (Hg : forall key, gf df key == 0) by (intros key; rewrite gf_stat_of; apply Hz).
    repeat rewrite floordiv_zero by apply Hg. repeat rewrite Hg. ring.
Qed.

End Scoring.

(** ** dist_fit.py *)
Module DistFit.

(** The names bound at module level in dist_fit.py: its imports and its
    functions.  (No Python builtin is called [x].) *)
Definition module_names : list string :=
  [ "np"; "sqrt"; "log"; "exp"; "pi"; "gammaln"; "betaln"; "comb"; "digamma";
    "factorial"; "opt"; "plt";
    "poisson"; "log_poisson"; "geometric"; "neg_binomial"; "log_neg_binomial";
    "gaussian_int"; "exp_poly_ratio"; "sum_log_neg_binomial";
    "grad_sum_log_neg_binomial"; "sum_log_gaussian_int"; "grad_sum_log_gaussian_int";
    "sum_log_exp_poly_ratio"; "_grad_sum_log_exp_poly_noratio";
    "grad_sum_log_exp_poly_ratio"; "to_poisson"; "to_geometric"; "to_neg_binomial";
    "to_gaussian_int"; "to_exp_poly_ratio"; "plot_counts"; "plot_counts_poly" ]%string.

Section to_poisson.

(** Floating-point numbers and the numpy/scipy functions the body calls. *)
Variable float : Type.
Variable of_int : Z -> float.
Variables fsub fmul fdiv : float -> float -> float.
Variables sqrt log gammaln : float -> float.
Variable fsum : list float -> float.

Inductive value : Type :=
| VInts (l : list Z)
| VInt (z : Z)
| VFloat (f : float)
| VGlobal (name : string).

(** Name resolution inside a function body: its local variables first,
    then the module's globals; an unbound name raises [NameError]. *)
Definition lookup_name (name : string) (locals : list (string * value)) : outcome value :=
  match find (fun kv => (fst kv =? name)%string) locals with
  | Some kv => Return (snd kv)
  | None =>
      if existsb (fun g => (g =? name)%string) module_names
      then Return (VGlobal name) else Raise (NameError name)
  end.

(** [gammaln( np.array(v)+1 )] *)
Definition gammaln_plus_one (v : value) : outcome (list float) :=
  match v with
  | VInts l => Return (map (fun k => gammaln (of_int (k + 1))) l)
  | _ => Raise TypeError
  end.

Definition to_poisson (data : list Z) : outcome ((float * float) * float) :=
  match data with
  | [] => Raise (SystemExit 1)
  | _ :: _ =>
      let n := Z.of_nat (length data) in
      let mu := fdiv (of_int (fold_right Z.add 0%Z data)) (of_int n) in
      let err_mu := sqrt (fdiv mu (of_int n)) in
      let locals := [("data"%string, VInts data); ("n"%string, VInt n);
                     ("mu"%string, VFloat mu); ("err_mu"%string, VFloat err_mu)] in
      let first := fdiv (fmul (fmul mu (fsub (log mu) (of_int 1))) (of_int n))
                        (of_int (n - 1)) in
      do x <- lookup_name "x" locals;
      do terms <- gammaln_plus_one x;
      Return ((mu, err_mu), fsub first (fdiv (fsum terms) (of_int (n - 1))))
  end.

(** What the body computes when the list named in its last line is [data]. *)
Definition to_poisson_intended (data : list Z) : outcome ((float * float) * float) :=
  match data with
  | [] => Raise (SystemExit 1)
  | _ :: _ =>
      let n := Z.of_nat (length data) in
      let mu := fdiv (of_int (fold_right Z.add 0%Z data)) (of_int n) in
      let err_mu := sqrt (fdiv mu (of_int n)) in
      let first := fdiv (fmul (fmul mu (fsub (log mu) (of_int 1))) (of_int n))
                        (of_int (n - 1)) in
      Return ((mu, err_mu),
              fsub first (fdiv (fsum (map (fun k => gammaln (of_int (k + 1))) data))
                               (of_int (n - 1))))
  end.

End to_poisson.

(** C9 (evaluation of the code).  On every non-empty data list, whatever
    the floating-point operations, [to_poisson] stops with a [NameError]: its
    last line reads a name [x] that is bound neither in the function nor in
    the module, so no estimate is returned. *)
Theorem to_poisson_nonempty_raises_name_error :
  forall (float : Type) (of_int : Z -> float) (fsub fmul fdiv : float -> float -> float)
         (sqrt log gammaln : float -> float) (fsum : list float -> float)
         (d : Z) (data : list Z),
    to_poisson float of_int fsub fmul fdiv sqrt log gammaln fsum (d :: data)
    = Raise (NameError "x")
    /\ to_poisson float of_int fsub fmul fdiv sqrt log gammaln fsum [1; 2; 3]%Z
       = Raise (NameError "x")
    /\ exists est, to_poisson_intended float of_int fsub fmul fdiv sqrt log gammaln fsum
                     (d :: data) = Return est.
Proof.
  intros. repeat split. eexists. reflexivity.
Qed.

End DistFit.

(** ** bayes_models.py *)
Module Bayes.

(** Pointwise equality of number sequences. *)
Definition Qlist_eq (xs ys : list Q) : Prop := Forall2 Qeq xs ys.

Fixpoint Qlist_eqb (xs ys : list Q) : bool :=
  match xs, ys with
  | [], [] => true
  | x :: xs', y :: ys' => Qeq_bool x y && Qlist_eqb xs' ys'
  | _, _ => false
  end.

Definition Qsum (xs : list Q) : Q := fold_right Qplus 0 xs.

(** [np.arange(0, n+1)] for an integer [n]. *)
Definition support (n : Z) : list Q :=
  map (fun i => inject_Z (Z.of_nat i)) (seq 0 (Z.to_nat (n + 1))).

(** [(data >= 0).all() and (data <= n).all()] *)
Definition in_range (data : list Q) (n : Z) : bool :=
  forallb (fun d => Qle_bool 0 d) data && forallb (fun d => Qle_bool d (inject_Z n)) data.

Section beta_binomial_model_gen.

(** What a call of [dist_fit.log_beta_binomial], and of the vectorised
    [dist_fit.beta_binomial], would return were the function defined. *)
Variable log_beta_binomial : Q -> Z -> Q -> Q -> Q.
Variable beta_binomial : list Q -> Z -> Q -> Q -> list Q.

(** [dist_fit.name(...)]: the attribute [name] is looked up among the names
    that the module [dist_fit] binds, and only then is the call made. *)
Definition dist_fit_call {A : Type} (name : string) (call : A) : outcome A :=
  if existsb (fun g => (g =? name)%string) DistFit.module_names then Return call
  else Raise (AttributeError name).

(** The [for d in data] loop shared by the three scores: score [d] with the
    current [(alpha, beta)], append the score, then update them; an
    exception in the score ends the loop. *)
Fixpoint score_loop (score : Q -> Q -> Q -> outcome Q) (n : Z) (lr : Q)
    (data : list Q) (alpha beta : Q) : outcome (list Q) :=
  match data with
  | [] => Return []
  | d :: rest =>
      do s <- score d alpha beta;
      do scores <- score_loop score n lr rest (alpha + lr * d)
                     (beta + lr * (inject_Z n - d));
      Return (s :: scores)
  end.

Definition mse_term (n : Z) (d alpha beta : Q) : outcome Q :=
  do probs <- dist_fit_call "beta_binomial" (beta_binomial (support n) n alpha beta);
  Return (Qsum (map (fun ps => fst ps * (snd ps - d) ^ 2) (combine probs (support n)))).

Definition mae_term (n : Z) (d alpha beta : Q) : outcome Q :=
  do probs <- dist_fit_call "beta_binomial" (beta_binomial (support n) n alpha beta);
  Return (Qsum (map (fun ps => fst ps * Qabs (snd ps - d)) (combine probs (support n)))).

Definition kld_term (n : Z) (d alpha beta : Q) : outcome Q :=
  do lp <- dist_fit_call "log_beta_binomial" (log_beta_binomial d n alpha beta);
  Return (- lp).

Definition _mse (data : list Q) (n : Z) (alpha0 beta0 lr : Q) : outcome (list Q) :=
  if in_range data n then score_loop (mse_term n) n lr data alpha0 beta0
  else Raise AssertionError.

Definition _mae (data : list Q) (n : Z) (alpha0 beta0 lr : Q) : outcome (list Q) :=
  if in_range data n then score_loop (mae_term n) n lr data alpha0 beta0
  else Raise AssertionError.

Definition _kld (data : list Q) (n : Z) (alpha0 beta0 lr : Q) : outcome (list Q) :=
  if in_range data n then score_loop (kld_term n) n lr data alpha0 beta0
  else Raise AssertionError.

(** The hyper-parameters after consuming a prefix of the observations. *)
Definition update (n : Z) (lr : Q) (ab : Q * Q) (d : Q) : Q * Q :=
  (fst ab + lr * d, snd ab + lr * (inject_Z n - d)).

Definition posterior (n : Z) (lr alpha0 beta0 : Q) (seen : list Q) : Q * Q :=
  fold_left (update n lr) seen (alpha0, beta0).

(** The loop is written score-then-update: whenever it completes, its i-th
    score is the score of observation i at the hyper-parameters accumulated
    from the observations before it. *)
Lemma score_loop_lookup score n lr data : forall alpha beta scores (i : nat) d,
  score_loop score n lr data alpha beta = Return scores ->
  data !! i = Some d ->
  exists s,
    score d (fst (posterior n lr alpha beta (take i data)))
            (snd (posterior n lr alpha beta (take i data))) = Return s
    /\ scores !! i = Some s.
Proof.
  induction data as [|d0 rest IH]; intros alpha beta scores i d Hrun Hi.
  - destruct i; discriminate Hi.
  - cbn [score_loop] in Hrun.
    destruct (score d0 alpha beta) as [s0|e] eqn:Hs0; [|discriminate Hrun].
    cbn [bind] in Hrun.
    destruct (score_loop score n lr rest (alpha + lr * d0) (beta + lr * (inject_Z n - d0)))
      as [ss|e] eqn:Hrest; [|discriminate Hrun].
    cbn [bind] in Hrun. injection Hrun as <-.
    destruct i as [|i].
    + injection Hi as <-. exists s0. split; [exact Hs0 | reflexivity].
    + exact (IH _ _ ss i d Hrest Hi).
Qed.

End beta_binomial_model_gen.

(** ** The negative-binomial model. *)

(** The two input shapes the loops of [_get_rps] accept: a flat sequence,
    or a two-row array iterated column by column through [data.T]. *)
Inductive ndarray : Type :=
| Flat (data : list Q)
| Paired (columns : list (Q * Q)).

(** [rs.append(rs[-1] + x)] *)
Definition append_step (xs : list Q) (x : Q) : list Q := xs ++ [List.last xs 0 + x].

Definition rps_loop (data : ndarray) (lr : Q) (rs bs : list Q) : list Q * list Q :=
  match data with
  | Paired columns =>
      fold_left (fun st dnd => (append_step (fst st) (lr * fst dnd),
                                append_step (snd st) (lr * snd dnd))) columns (rs, bs)
  | Flat data =>
      fold_left (fun st d => (append_step (fst st) (lr * d),
                              append_step (snd st) (lr * d))) data (rs, bs)
  end.

(** The lists [rs] and [bs] as they stand when the loops of [_get_rps] end. *)
Definition _get_rps_state (data : ndarray) (r0 p0 lr : Q) : outcome (list Q * list Q) :=
  if Qeq_bool p0 0 then Raise ZeroDivisionError
  else Return (rps_loop data lr [r0] [(1 - p0) / p0]).

(** [1.0/(1.0+np.array(bs))]: an entry with [1 + b = 0] is not finite. *)
Definition ps_of (bs : list Q) : list (option Q) :=
  map (fun b => if Qeq_bool (1 + b) 0 then None else Some (1 / (1 + b))) bs.

Definition _get_rps (data : ndarray) (r0 p0 lr : Q) : outcome (list Q * list (option Q)) :=
  do st <- _get_rps_state data r0 p0 lr;
  Return (fst st, ps_of (snd st)).

(** What the update rule [r <- r + lr*d], [beta <- beta + lr] would give. *)
Fixpoint documented_rule (data : list Q) (lr r b : Q) : list Q * list Q :=
  match data with
  | [] => ([r], [b])
  | d :: rest =>
      let st := documented_rule rest lr (r + lr * d) (b + lr) in
      (r :: fst st, b :: snd st)
  end.

Lemma Qlist_eqb_sound xs ys : Qlist_eqb xs ys = true -> Qlist_eq xs ys.
Proof.
  revert ys. induction xs as [|x xs IH]; intros [|y ys] H; simpl in H; try discriminate.
  - constructor.
  - apply andb_prop in H as [Hx Hr]. constructor.
    + apply Qeq_bool_eq, Hx.
    + apply IH, Hr.
Qed.

Lemma Qlist_eqb_complete xs ys : Qlist_eq xs ys -> Qlist_eqb xs ys = true.
Proof.
  induction 1 as [|x y xs ys Hxy _ IH]; simpl.
  - reflexivity.
  - rewrite (Qeq_eq_bool _ _ Hxy), IH. reflexivity.
Qed.

Lemma rps_loop_flat_last data d lr rs bs :
  rps_loop (Flat (data ++ [d])) lr rs bs
  = (append_step (fst (rps_loop (Flat data) lr rs bs)) (lr * d),
     append_step (snd (rps_loop (Flat data) lr rs bs)) (lr * d)).
Proof. unfold rps_loop. rewrite fold_left_app. reflexivity. Qed.

(** C5 (evaluation of the code).  [src/dist_fit.py] defines neither
    [log_beta_binomial] nor [beta_binomial]: on every non-empty sequence
    with all values in [[0, n]] the first pass of the loop of [_kld], [_mse]
    and [_mae] stops with an [AttributeError] at the attribute lookup, before
    any score is computed (out of range the assertion fails first); so at
    [3, 7] with n = 10, alpha0 = beta0 = 1, lr = 1 no score is returned.
    Only on empty data does a call return, with no score. *)
Theorem beta_binomial_scores_raise_attribute_error :
  forall (log_beta_binomial : Q -> Z -> Q -> Q -> Q)
         (beta_binomial : list Q -> Z -> Q -> Q -> list Q)
         (d : Q) (data : list Q) (n : Z) (alpha0 beta0 lr : Q),
    _kld log_beta_binomial (d :: data) n alpha0 beta0 lr
    = (if in_range (d :: data) n then Raise (AttributeError "log_beta_binomial")
       else Raise AssertionError)
    /\ _mse beta_binomial (d :: data) n alpha0 beta0 lr
       = (if in_range (d :: data) n then Raise (AttributeError "beta_binomial")
          else Raise AssertionError)
    /\ _mae beta_binomial (d :: data) n alpha0 beta0 lr
       = (if in_range (d :: data) n then Raise (AttributeError "beta_binomial")
          else Raise AssertionError)
    /\ in_range [3; 7] 10%Z = true
    /\ _kld log_beta_binomial [3; 7] 10%Z 1 1 1 = Raise (AttributeError "log_beta_binomial")
    /\ _mse beta_binomial [3; 7] 10%Z 1 1 1 = Raise (AttributeError "beta_binomial")
    /\ _mae beta_binomial [3; 7] 10%Z 1 1 1 = Raise (AttributeError "beta_binomial")
    /\ _kld log_beta_binomial [] n alpha0 beta0 lr = Return [].
Proof.
  intros lbb bb d data n alpha0 beta0 lr.
  unfold _kld, _mse, _mae.
  split; [destruct (in_range (d :: data) n); reflexivity|].
  split; [destruct (in_range (d :: data) n); reflexivity|].
  split; [destruct (in_range (d :: data) n); reflexivity|].
  repeat split.
Qed.

(** C4 (evaluation of the code).  On the flat sequence [3, 5, 2] with
    r0 = 2, p0 = 1/2, lr = 1 the loop of [_get_rps] yields
    r = [2, 5, 10, 12] and beta = [1, 4, 9, 11]: beta grows by lr*d at each
    step, not by the constant lr, which would give [1, 2, 3, 4]. *)
Theorem get_rps_flat_beta_grows_by_observation :
  exists rs bs,
    _get_rps_state (Flat [3; 5; 2]) 2 (1 # 2) 1 = Return (rs, bs)
    /\ Qlist_eq rs [2; 5; 10; 12]
    /\ Qlist_eq bs [1; 4; 9; 11]
    /\ Qlist_eq (snd (documented_rule [3; 5; 2] 1 2 1)) [1; 2; 3; 4]
    /\ ~ Qlist_eq bs [1; 2; 3; 4].
Proof.
  eexists _, _. split; [reflexivity|].
  repeat split; try (apply Qlist_eqb_sound; vm_compute; reflexivity).
  intros H. apply Qlist_eqb_complete in H. vm_compute in H. discriminate H.
Qed.

End Bayes.

(** ** Strings: the ASCII fragment of [str.upper], [str.lower], [str.strip]. *)

Definition is_upper (c : ascii) : bool :=
  (65 <=? nat_of_ascii c)%nat && (nat_of_ascii c <=? 90)%nat.
Definition is_lower (c : ascii) : bool :=
  (97 <=? nat_of_ascii c)%nat && (nat_of_ascii c <=? 122)%nat.
Definition upper_ascii (c : ascii) : ascii :=
  if is_lower c then ascii_of_nat (nat_of_ascii c - 32) else c.
Definition lower_ascii (c : ascii) : ascii :=
  if is_upper c then ascii_of_nat (nat_of_ascii c + 32) else c.

Fixpoint upper (s : string) : string :=
  match s with
  | EmptyString => EmptyString
  | String c rest => String (upper_ascii c) (upper rest)
  end.

(** [str.isascii()]: on such strings Python's [upper], [lower] and [strip]
    are the functions of this file. *)
Definition isascii_char (c : ascii) : bool := (nat_of_ascii c <? 128)%nat.
Definition isascii (s : string) : bool :=
  forallb isascii_char (list_ascii_of_string s).

(** ** playermodels/rushing.py *)
Module Rushing.

(** A call of [_default_hyperpars]: the messages passed to [logging.error],
    and the value returned ([None] when the body falls off its end). *)
Definition lookup_result : Type := list string * outcome (option (list Q)).

Module RushAttModel.
Definition _default_hyperpars (pos : string) : lookup_result :=
  let pos := upper pos in
  if (pos =? "RB")%string then
    ([], Return (Some [0.756; 0.0756; 0.133; 0.503; 0.752]))
  else if (pos =? "QB")%string then
    ([], Return (Some [1.76; 0.58; 0.238; 0.494; 0.963]))
  else if (pos =? "WR")%string then
    ([], Return (Some [1.17; 7.03; 1.0; 0.545; 0.982]))
  else
    ((if (pos =? "TE")%string
      then ["TEs do not rush enough to try to predict them"%string] else [])
     ++ [("positional defaults not implemented for " ++ pos)%string],
     Return None).
End RushAttModel.

Module RushYdsModel.
Definition _default_hyperpars (pos : string) : lookup_result :=
  let pos := upper pos in
  if (pos =? "RB")%string then
    ([], Return (Some [0.657; 0.2; 1.68; 10.88; 1.988; 0.381; 0.00154; 1.0; 1.0; 1.0; 1.0]))
  else if (pos =? "QB")%string then
    ([], Return (Some [111.59; 42.13; 2.82; 50.32; 0.0472; 0.940; 4.2e-5;
                       0.805; 0.985; 0.972; 0.942]))
  else if (pos =? "WR")%string then
    ([], Return (Some [116.2; 41.84; 2.45; 46.42; 0.348; 0.332; 0.00092; 1.0; 1.0; 1.0; 1.0]))
  else
    ((if (upper pos =? "TE")%string
      then ["TEs do not run enough to try to predict their rushes"%string] else [])
     ++ [("no default hyperparameters are implemented for " ++ pos)%string],
     Return None).
End RushYdsModel.

Module RushTdModel.
Definition _default_hyperpars (pos : string) : lookup_result :=
  let pos := upper pos in
  if (pos =? "RB")%string then
    ([], Return (Some [20.90; 684.65; 1.0; 0.569; 1.0]))
  else if (pos =? "QB")%string then
    ([], Return (Some [12.95; 330.25; 1.0; 1.0; 0.991]))
  else if (pos =? "WR")%string then
    ([], Return (Some [1.14; 60.63; 0.413; 0.997; 0.989]))
  else
    ((if (pos =? "TE")%string then ["TEs do not rush enough"%string] else [])
     ++ [("rushing TD positional defaults not implemented for " ++ pos)%string],
     Return None).
End RushTdModel.

(** The positions with a table entry, after upper-casing. *)
Definition supported (pos : string) : bool :=
  ((upper pos =? "RB") || (upper pos =? "QB") || (upper pos =? "WR"))%string.

Example rush_att_rb_lowercase :
  RushAttModel._default_hyperpars "rb"
  = ([], Return (Some [0.756; 0.0756; 0.133; 0.503; 0.752])).
Proof. reflexivity. Qed.

Example rush_yds_te :
  RushYdsModel._default_hyperpars "te"
  = (["TEs do not run enough to try to predict their rushes"%string;
      "no default hyperparameters are implemented for TE"%string], Return None).
Proof. reflexivity. Qed.

(** C8 as stated fails at 'TE': the lookup returns (the value [None]) after
    logging; it raises nothing, in any of the three models. *)
Lemma te_lookup_returns_without_raising :
  ~ (exists e, snd (RushAttModel._default_hyperpars "TE") = Raise e)
  /\ ~ (exists e, snd (RushYdsModel._default_hyperpars "TE") = Raise e)
  /\ ~ (exists e, snd (RushTdModel._default_hyperpars "TE") = Raise e).
Proof. repeat split; intros [e He]; discriminate He. Qed.

Lemma upper_ascii_twice c : upper_ascii (upper_ascii c) = upper_ascii c.
Proof. destruct c as [[] [] [] [] [] [] [] []]; reflexivity. Qed.

Lemma upper_twice s : upper (upper s) = upper s.
Proof.
  induction s as [|c s IH]; [reflexivity|]. cbn [upper].
  rewrite upper_ascii_twice, IH. reflexivity.
Qed.

(** C8, amended.  For an ASCII position code whose upper-casing is not RB,
    QB or WR, each rushing model's default-hyperparameter lookup returns
    [None] and raises nothing; what it logs is, for a code that upper-cases
    to TE, the model's TE-specific message followed by the model's error
    naming the upper-cased code, and for every other code that error
    alone. *)
Theorem unsupported_position_logs_and_returns_none : forall pos : string,
  isascii pos = true ->
  supported pos = false ->
  RushAttModel._default_hyperpars pos
  = ((if (upper pos =? "TE")%string
      then ["TEs do not rush enough to try to predict them"%string] else [])
     ++ [("positional defaults not implemented for " ++ upper pos)%string],
     Return None)
  /\ RushYdsModel._default_hyperpars pos
     = ((if (upper pos =? "TE")%string
         then ["TEs do not run enough to try to predict their rushes"%string] else [])
        ++ [("no default hyperparameters are implemented for " ++ upper pos)%string],
        Return None)
  /\ RushTdModel._default_hyperpars pos
     = ((if (upper pos =? "TE")%string then ["TEs do not rush enough"%string] else [])
        ++ [("rushing TD positional defaults not implemented for " ++ upper pos)%string],
        Return None).
Proof.
  intros pos _ H. unfold supported in H.
  apply orb_false_elim in H as [H Hwr]. apply orb_false_elim in H as [Hrb Hqb].
  unfold RushAttModel._default_hyperpars, RushYdsModel._default_hyperpars,
    RushTdModel._default_hyperpars.
  cbv zeta. rewrite Hrb, Hqb, Hwr, upper_twice.
  repeat split.
Qed.

Lemma unsupported_position_logs_and_returns_none_witness :
  isascii "TE" = true
  /\ supported "TE" = false
  /\ RushAttModel._default_hyperpars "TE"
     = (["TEs do not rush enough to try to predict them"%string;
         "positional defaults not implemented for TE"%string], Return None)
  /\ RushYdsModel._default_hyperpars "te"
     = (["TEs do not run enough to try to predict their rushes"%string;
         "no default hyperparameters are implemented for TE"%string], Return None)
  /\ RushTdModel._default_hyperpars "k"
     = (["rushing TD positional defaults not implemented for K"%string], Return None).
Proof.
  split; [reflexivity|]. split; [reflexivity|].
  split; [exact (proj1 (unsupported_position_logs_and_returns_none "TE" eq_refl eq_refl))|].
  split.
  - exact (proj1 (proj2 (unsupported_position_logs_and_returns_none "te" eq_refl eq_refl))).
  - exact (proj2 (proj2 (unsupported_position_logs_and_returns_none "k" eq_refl eq_refl))).
Defined.

End Rushing.

(** ** draft_app.py: name normalisation *)
Module Names.

(** The ASCII characters [str.strip()] removes. *)
Definition is_space (c : ascii) : bool :=
  let k := nat_of_ascii c in
  ((9 <=? k) && (k <=? 13) || (28 <=? k) && (k <=? 32))%nat.

Fixpoint lstrip (l : list ascii) : list ascii :=
  match l with
  | [] => []
  | c :: rest => if is_space c then lstrip rest else l
  end.

Definition strip (l : list ascii) : list ascii := rev (lstrip (rev (lstrip l))).

(** [s.replace(old, new)] and [s.replace(old, '')] for one-character [old]. *)
Definition replace_char (old new : ascii) (l : list ascii) : list ascii :=
  map (fun c => if Ascii.eqb c old then new else c) l.
Definition remove_char (old : ascii) (l : list ascii) : list ascii :=
  List.filter (fun c => negb (Ascii.eqb c old)) l.

Definition simplify_chars (l : list ascii) : list ascii :=
  remove_char "." (remove_char "'" (replace_char " " "_" (map lower_ascii (strip l)))).

Definition simplify_name (name : string) : string :=
  string_of_list_ascii (simplify_chars (list_ascii_of_string name)).

(** What the normalised name must be free of, and what a name is made of
    when its only white space is the plain space. *)
Definition plain (c : ascii) : Prop :=
  c <> " "%char /\ c <> "."%char /\ c <> "'"%char /\ is_upper c = false.
Definition only_plain_spaces (l : list ascii) : Prop :=
  Forall (fun c => is_space c = true -> c = " "%char) l.

(** A period followed by a tab and a letter. *)
Definition dot_tab_a : string := String "."%char (String "009"%char "a").

Example simplify_name_docstring : simplify_name "A.J. Smith Jr." = "aj_smith_jr"%string.
Proof. reflexivity. Qed.

Ltac each_ascii c :=
  destruct c as [b0 b1 b2 b3 b4 b5 b6 b7];
  destruct b0, b1, b2, b3, b4, b5, b6, b7.

Lemma lower_ascii_not_upper c : is_upper (lower_ascii c) = false.
Proof. each_ascii c; reflexivity. Qed.

Lemma lower_ascii_fixed c : is_upper c = false -> lower_ascii c = c.
Proof. unfold lower_ascii. intros ->. reflexivity. Qed.

Lemma lower_ascii_space c :
  is_space (lower_ascii c) = true -> is_space c = true /\ lower_ascii c = c.
Proof. each_ascii c; intros H; try discriminate H; split; reflexivity. Qed.

Lemma lstrip_incl l c : In c (lstrip l) -> In c l.
Proof.
  induction l as [|a l IH]; simpl; [tauto|].
  destruct (is_space a); [right; apply IH; assumption | tauto].
Qed.

Lemma strip_incl l c : In c (strip l) -> In c l.
Proof.
  unfold strip. intros H. apply in_rev in H. apply lstrip_incl in H.
  apply in_rev in H. apply lstrip_incl in H. exact H.
Qed.

Lemma lstrip_no_space l : Forall (fun c => is_space c = false) l -> lstrip l = l.
Proof. destruct 1 as [|c l Hc _]; simpl; [reflexivity | rewrite Hc; reflexivity]. Qed.

Lemma strip_no_space l : Forall (fun c => is_space c = false) l -> strip l = l.
Proof.
  intros H. unfold strip. rewrite (lstrip_no_space l H).
  rewrite lstrip_no_space by (apply Forall_rev, H). apply rev_involutive.
Qed.

Lemma filter_all (f : ascii -> bool) l : Forall (fun c => f c = true) l -> List.filter f l = l.
Proof. induction 1 as [|c l Hc _ IH]; simpl; [reflexivity | rewrite Hc, IH; reflexivity]. Qed.

Lemma map_fixed (f : ascii -> ascii) l : Forall (fun c => f c = c) l -> map f l = l.
Proof. induction 1 as [|c l Hc _ IH]; simpl; [reflexivity | rewrite Hc, IH; reflexivity]. Qed.

Lemma simplify_chars_plain l : Forall plain (simplify_chars l).
Proof.
  apply List.Forall_forall. intros c Hc. unfold simplify_chars, remove_char, replace_char in Hc.
  apply filter_In in Hc as [Hc Hdot]. apply filter_In in Hc as [Hc Hquote].
  apply negb_true_iff, Ascii.eqb_neq in Hdot. apply negb_true_iff, Ascii.eqb_neq in Hquote.
  apply in_map_iff in Hc as [c1 [Hc1 Hin1]].
  apply in_map_iff in Hin1 as [c0 [Hc0 _]]. subst c1.
  repeat split; try assumption.
  - destruct (Ascii.eqb (lower_ascii c0) " ") eqn:E; subst c; [discriminate|].
    apply Ascii.eqb_neq, E.
  - destruct (Ascii.eqb (lower_ascii c0) " ") eqn:E; subst c; [reflexivity|].
    apply lower_ascii_not_upper.
Qed.

Lemma simplify_chars_no_space l :
  only_plain_spaces l -> Forall (fun c => is_space c = false) (simplify_chars l).
Proof.
  intros Hl. apply List.Forall_forall. intros c Hc.
  unfold simplify_chars, remove_char, replace_char in Hc.
  apply filter_In in Hc as [Hc _]. apply filter_In in Hc as [Hc _].
  apply in_map_iff in Hc as [c1 [Hc1 Hin1]].
  apply in_map_iff in Hin1 as [c0 [Hc0 Hin0]]. subst c1.
  apply strip_incl in Hin0.
  destruct (Ascii.eqb (lower_ascii c0) " ") eqn:E; subst c; [reflexivity|].
  destruct (is_space (lower_ascii c0)) eqn:Hsp; [exfalso | reflexivity].
  apply lower_ascii_space in Hsp as [Hsp Hfix]. rewrite Hfix in E.
  apply Ascii.eqb_neq in E. apply E.
  unfold only_plain_spaces in Hl. rewrite List.Forall_forall in Hl. exact (Hl c0 Hin0 Hsp).
Qed.

Lemma simplify_chars_fixed l :
  Forall plain l -> Forall (fun c => is_space c = false) l -> simplify_chars l = l.
Proof.
  intros Hp Hs. unfold simplify_chars.
  rewrite (strip_no_space l Hs).
  assert (Hlow : map lower_ascii l = l).
  { apply map_fixed. eapply List.Forall_impl; [|exact Hp]. intros c (_ & _ & _ & Hu).
    apply lower_ascii_fixed, Hu. }
  rewrite Hlow.
  assert (Hrep : replace_char " " "_" l = l).
  { apply map_fixed. eapply List.Forall_impl; [|exact Hp]. intros c (Hsp & _).
    apply Ascii.eqb_neq in Hsp. rewrite Hsp. reflexivity. }
  rewrite Hrep.
  assert (Hq : remove_char "'" l = l).
  { apply filter_all. eapply List.Forall_impl; [|exact Hp]. intros c (_ & _ & Hq & _).
    apply negb_true_iff, Ascii.eqb_neq, Hq. }
  rewrite Hq.
  apply filter_all. eapply List.Forall_impl; [|exact Hp]. intros c (_ & Hd & _).
  apply negb_true_iff, Ascii.eqb_neq, Hd.
Qed.

(** C10 as stated fails: a leading period shields a tab from [strip()], and
    the second pass then strips the tab that the first pass left in front. *)
Lemma simplify_name_twice_differs :
  simplify_name dot_tab_a = String "009"%char "a"
  /\ simplify_name (simplify_name dot_tab_a) = "a"%string
  /\ simplify_name (simplify_name dot_tab_a) <> simplify_name dot_tab_a.
Proof. repeat split. discriminate. Qed.

(** C10, amended.  For an ASCII name: the normalised name never contains a
    space, a period, an apostrophe or an upper-case letter; and when the
    only white-space characters of the name are plain spaces, normalising
    twice gives the same result as normalising once. *)
Theorem simplify_name_idempotent_on_plain_spaces : forall name : string,
  isascii name = true ->
  Forall plain (list_ascii_of_string (simplify_name name))
  /\ (only_plain_spaces (list_ascii_of_string name) ->
      simplify_name (simplify_name name) = simplify_name name).
Proof.
  intros name _. unfold simplify_name. rewrite !list_ascii_of_string_of_list_ascii.
  split.
  - apply simplify_chars_plain.
  - intros Hname. f_equal. apply simplify_chars_fixed.
    + apply simplify_chars_plain.
    + apply simplify_chars_no_space, Hname.
Qed.

Lemma simplify_name_idempotent_on_plain_spaces_witness :
  isascii " A.J. O'Neal Jr. " = true
  /\ only_plain_spaces (list_ascii_of_string " A.J. O'Neal Jr. ")
  /\ simplify_name (simplify_name " A.J. O'Neal Jr. ") = simplify_name " A.J. O'Neal Jr. ".
Proof.
  split; [reflexivity|]. split.
  - repeat constructor; intros H; discriminate H.
  - apply (proj2 (simplify_name_idempotent_on_plain_spaces " A.J. O'Neal Jr. " eq_refl)).
    repeat constructor; intros H; discriminate H.
Defined.

End Names.

(** ** draft_app.py: tables *)
Module Draft.

(** Tier labels: 'QB1', 'RB2', ... are [Starter pos cls]; 'FLEX1', ... are
    [FlexTier cls]; then the literals 'BU' and 'FA'. *)
Inductive tier_label : Type :=
| Starter (pos : string) (cls : Z)
| FlexTier (cls : Z)
| BU
| FA.

(** The columns a row has from the projection files on. *)
Record player_info : Type := {
  player : string; team : string; pos : string;
  adp : option Q; ecp : option Q; exp_proj : Q; g : Q
}.

(** A table row: a cell that is NaN, or whose column is absent, is [None]. *)
Record row : Type := {
  info : player_info;
  vols : option Q; tier : option tier_label; vbsd : option Q; volb : option Q;
  rank : option (string * Z); auction : option Q; vorp : option Q;
  manager : option Z; pick : option Z
}.

(** A DataFrame: its rows in order, each with its index label. *)
Definition frame : Type := list (Z * row).

Definition new_row (i : player_info) : row :=
  {| info := i; vols := None; tier := None; vbsd := None; volb := None; rank := None;
     auction := None; vorp := None; manager := None; pick := None |}.

Definition set_vols (v : option Q) (r : row) : row :=
  {| info := info r; vols := v; tier := tier r; vbsd := vbsd r; volb := volb r;
     rank := rank r; auction := auction r; vorp := vorp r; manager := manager r;
     pick := pick r |}.
Definition set_tier (v : option tier_label) (r : row) : row :=
  {| info := info r; vols := vols r; tier := v; vbsd := vbsd r; volb := volb r;
     rank := rank r; auction := auction r; vorp := vorp r; manager := manager r;
     pick := pick r |}.
Definition set_vbsd (v : option Q) (r : row) : row :=
  {| info := info r; vols := vols r; tier := tier r; vbsd := v; volb := volb r;
     rank := rank r; auction := auction r; vorp := vorp r; manager := manager r;
     pick := pick r |}.
Definition set_volb (v : option Q) (r : row) : row :=
  {| info := info r; vols := vols r; tier := tier r; vbsd := vbsd r; volb := v;
     rank := rank r; auction := auction r; vorp := vorp r; manager := manager r;
     pick := pick r |}.
Definition set_rank (v : option (string * Z)) (r : row) : row :=
  {| info := info r; vols := vols r; tier := tier r; vbsd := vbsd r; volb := volb r;
     rank := v; auction := auction r; vorp := vorp r; manager := manager r;
     pick := pick r |}.
Definition set_auction (v : option Q) (r : row) : row :=
  {| info := info r; vols := vols r; tier := tier r; vbsd := vbsd r; volb := volb r;
     rank := rank r; auction := v; vorp := vorp r; manager := manager r;
     pick := pick r |}.
Definition set_vorp (v : option Q) (r : row) : row :=
  {| info := info r; vols := vols r; tier := tier r; vbsd := vbsd r; volb := volb r;
     rank := rank r; auction := auction r; vorp := v; manager := manager r;
     pick := pick r |}.
Definition set_manager (v : option Z) (r : row) : row :=
  {| info := info r; vols := vols r; tier := tier r; vbsd := vbsd r; volb := volb r;
     rank := rank r; auction := auction r; vorp := vorp r; manager := v;
     pick := pick r |}.
Definition set_pick (v : option Z) (r : row) : row :=
  {| info := info r; vols := vols r; tier := tier r; vbsd := vbsd r; volb := volb r;
     rank := rank r; auction := auction r; vorp := vorp r; manager := manager r;
     pick := v |}.

Definition rpos (r : Z * row) : string := pos (info (snd r)).
Definition at_pos (p : string) (r : Z * row) : bool := (rpos r =? p)%string.

Definition in_list (s : string) (l : list string) : bool := existsb (String.eqb s) l.

(** [df.loc[mask, col] = ...]: the rows the mask selects are updated in
    place; order and labels stay. *)
Definition assign_where (mask : Z * row -> bool) (f : Z * row -> row) (df : frame) : frame :=
  map (fun r => if mask r then (fst r, f r) else r) df.

(** Cell arithmetic: NaN propagates. *)
Definition cell_sub (a b : option Q) : option Q :=
  match a, b with Some x, Some y => Some (x - y) | _, _ => None end.
Definition cell_scale (a : option Q) (c : Q) : option Q :=
  match a with Some x => Some (x * c) | None => None end.

(** [Series.min()], [Series.max()] and [Series.sum()] skip NaN cells; the
    minimum or maximum of no value is NaN. *)
Definition col_min (cells : list (option Q)) : option Q :=
  fold_right (fun c acc =>
    match c, acc with
    | Some x, Some m => Some (if Qle_bool x m then x else m)
    | Some x, None => Some x
    | None, _ => acc
    end) None cells.
Definition col_max (cells : list (option Q)) : option Q :=
  fold_right (fun c acc =>
    match c, acc with
    | Some x, Some m => Some (if Qle_bool m x then x else m)
    | Some x, None => Some x
    | None, _ => acc
    end) None cells.
Definition col_sum (cells : list (option Q)) : Q :=
  fold_right (fun c acc => match c with Some x => x + acc | None => acc end) 0 cells.

(** The builtin [min(a, b)]: [b] when [b < a], else [a]; a comparison with
    NaN is false. *)
Definition py_min (a b : option Q) : option Q :=
  match a, b with
  | Some x, Some y => if Qle_bool x y then Some x else Some y
  | _, _ => a
  end.

(** [sort_values(key)]: NaN keys last.  (pandas' default sort is not stable;
    rows with equal keys are kept here in their table order.) *)
Definition key_le (ascending : bool) (a b : option Q) : bool :=
  match a, b with
  | _, None => true
  | None, Some _ => false
  | Some x, Some y => if ascending then Qle_bool x y else Qle_bool y x
  end.

Fixpoint insert_row (key : row -> option Q) (ascending : bool) (x : Z * row) (l : frame)
  : frame :=
  match l with
  | [] => [x]
  | y :: rest =>
      if key_le ascending (key (snd x)) (key (snd y)) then x :: y :: rest
      else y :: insert_row key ascending x rest
  end.

Definition sort_values (key : row -> option Q) (ascending : bool) (df : frame) : frame :=
  fold_right (insert_row key ascending) [] df.

(** [df.head(k)], also for negative [k] (all rows but the last [-k]). *)
Definition head (k : Z) (df : frame) : frame :=
  if (0 <=? k)%Z then take (Z.to_nat k) df
  else take (length df - Z.to_nat (- k)) df.

(** [index[ia:ib]] *)
Definition norm_index (len i : Z) : Z :=
  if (i <? 0)%Z then Z.max 0 (len + i) else Z.min len i.
Definition slice {A : Type} (ia ib : Z) (l : list A) : list A :=
  let len := Z.of_nat (length l) in
  let a := norm_index len ia in
  let b := norm_index len ib in
  take (Z.to_nat (b - a)) (drop (Z.to_nat a) l).

Definition dict_get {V : Type} (d : gmap string V) (key : string) : outcome V :=
  match d !! key with
  | Some v => Return v
  | None => Raise (KeyError key)
  end.

Definition count (mask : Z * row -> bool) (df : frame) : Z :=
  Z.of_nat (length (List.filter mask df)).

Definition tiered (r : Z * row) : bool :=
  match tier (snd r) with Some _ => true | None => false end.

Definition Qlt_bool (a b : Q) : bool := negb (Qle_bool b a).

Definition zrange (n : Z) : list Z := map Z.of_nat (seq 0 (Z.to_nat n)).

(** [enumerate(l)] *)
Definition enumerate {A : Type} (l : list A) : list (Z * A) :=
  combine (map Z.of_nat (seq 0 (length l))) l.

(** A loop whose body may raise. *)
Definition for_each {S A : Type} (body : S -> A -> outcome S) (items : list A) (init : S)
  : outcome S :=
  fold_left (fun acc x => do st <- acc; body st x) items (Return init).

(** ** The value pipeline of [main] *)

Record league : Type := {
  n_teams : Z;
  n_qb : Z; n_rb : Z; n_wr : Z; n_te : Z; n_flex : Z; n_dst : Z; n_k : Z; n_bench : Z
}.

Definition main_positions : list string := ["QB"; "RB"; "WR"; "TE"; "K"; "DST"]%string.
Definition flex_pos : list string := ["RB"; "WR"; "TE"]%string.

(** The dictionary [main] builds from the command line, in its key order. *)
Definition n_roster_per_team (lg : league) : list (string * Z) :=
  [ ("QB", n_qb lg); ("RB", n_rb lg); ("WR", n_wr lg); ("TE", n_te lg);
    ("FLEX", n_flex lg); ("DST", n_dst lg); ("K", n_k lg); ("BENCH", n_bench lg) ]%string.

(** [d[key]] for the fixed keys the code reads (0 stands for a key the
    dictionary does not have; none is ever read). *)
Definition roster_get (d : list (string * Z)) (key : string) : Z :=
  match find (fun kv => (fst kv =? key)%string) d with
  | Some kv => snd kv
  | None => 0%Z
  end.

Definition n_roster_per_league (lg : league) (key : string) : Z :=
  (n_teams lg * roster_get (n_roster_per_team lg) key)%Z.

Definition bye_factor : Q := (16 - 1) / 16.

(** [pos_injury_factor[pos]], read for the six main positions only. *)
Definition pos_injury_factor (p : string) : Q :=
  if (p =? "QB")%string then 0.94
  else if (p =? "RB")%string then 0.85
  else if (p =? "WR")%string then 0.89
  else if (p =? "TE")%string then 0.89
  else 1.0.

(** The table after the merge: a fresh 0..N-1 index. *)
Definition initial_frame (players : list player_info) : frame :=
  enumerate (map new_row players).

Definition ppg (r : row) : Q := exp_proj (info r) / g (info r).

(** One iteration of [for index,row in gamesdf.iterrows()]; the state is
    [(games_needed, ppg_baseline)]. *)
Definition games_step (st : gmap string Q * gmap string Q) (r : Z * row)
  : outcome (gmap string Q * gmap string Q) :=
  let games_needed := fst st in
  let ppg_baseline := snd st in
  let p := rpos r in
  let games := g (info (snd r)) in
  do gneeded <- dict_get games_needed p;
  if Qlt_bool games gneeded then
    Return (<[p := gneeded - games]> games_needed, ppg_baseline)
  else if Qlt_bool 0 gneeded then
    if in_list p flex_pos then
      do gflex <- dict_get (<[p := 0]> games_needed) "FLEX";
      Return (<["FLEX"%string := gflex - (games - gneeded)]> (<[p := 0]> games_needed),
              <[p := ppg (snd r)]> ppg_baseline)
    else Return (<[p := 0]> games_needed, <[p := ppg (snd r)]> ppg_baseline)
  else if negb (Qeq_bool gneeded 0) then Raise AssertionError
  else if in_list p flex_pos then
    do gflex <- dict_get games_needed "FLEX";
    if Qlt_bool games gflex then
      Return (<["FLEX"%string := gflex - games]> games_needed, ppg_baseline)
    else if Qlt_bool 0 gflex then
      Return (<["FLEX"%string := 0]> games_needed,
              <["FLEX"%string := ppg (snd r)]> ppg_baseline)
    else Return st
  else Return st.

Definition initial_games_needed (lg : league) : gmap string Q :=
  <["FLEX"%string := inject_Z (16 * n_roster_per_league lg "FLEX")]>
    (list_to_map (map (fun p => (p, inject_Z (16 * n_roster_per_league lg p)))
                      main_positions)).

Definition ppg_baselines (lg : league) (availdf : frame) : outcome (gmap string Q) :=
  let gamesdf := sort_values (fun r => Some (ppg r)) false availdf in
  do st <- for_each games_step gamesdf (initial_games_needed lg, ∅);
  Return (snd st).

(** [vols = gs*(exp_proj/(gs+1) - worst_starter_pg)] for one position. *)
Definition vols_pos (ppg_baseline : gmap string Q) (df : frame) (p : string) : outcome frame :=
  do worst <- dict_get ppg_baseline p;
  do worst_starter_pg <-
    (if in_list p flex_pos then
       do wflex <- dict_get ppg_baseline "FLEX";
       Return (if Qle_bool worst wflex then worst else wflex)
     else Return worst);
  Return (assign_where (at_pos p)
            (fun r => let i := info (snd r) in
                      set_vols (Some (g i * (exp_proj i / (g i + 1) - worst_starter_pg)))
                               (snd r)) df).

(** Label [n_classes] bands of [n_teams] rows each, from the top of [sorted]. *)
Definition label_classes (mk : Z -> tier_label) (n_classes nteams : Z) (sorted : frame)
    (df : frame) : frame :=
  fold_left (fun d i_class =>
      let itoppos := map fst (slice (i_class * nteams) ((i_class + 1) * nteams) sorted) in
      assign_where (fun r => existsb (Z.eqb (fst r)) itoppos)
                   (fun r => set_tier (Some (mk (i_class + 1)%Z)) (snd r)) d)
    (zrange n_classes) df.

Definition label_starters_pos (lg : league) (df : frame) (p : string) : frame :=
  let availpos := sort_values vols false (List.filter (at_pos p) df) in
  label_classes (Starter p) (roster_get (n_roster_per_team lg) p) (n_teams lg) availpos df.

Definition label_flex (lg : league) (df : frame) : frame :=
  let availflex :=
    sort_values vols false
      (List.filter (fun r => in_list (rpos r) flex_pos && negb (tiered r)) df) in
  label_classes FlexTier (roster_get (n_roster_per_team lg) "FLEX") (n_teams lg) availflex df.

Definition label_starters (lg : league) (df : frame) : frame :=
  label_flex lg (fold_left (label_starters_pos lg) main_positions df).

(** [worst_starter_season] as the re-baselining loop computes it for [p]. *)
Definition worst_starter_season (df : frame) (p : string) : option Q :=
  let worst :=
    col_min (map (fun r => vols (snd r))
                 (List.filter (fun r => at_pos p r && tiered r) df)) in
  if in_list p flex_pos then
    py_min worst
      (col_min (map (fun r => vols (snd r))
                    (List.filter (fun r => in_list (rpos r) flex_pos && tiered r) df)))
  else worst.

(** The second baseline: subtract the worst tiered [vols]. *)
Definition rebaseline_pos (df : frame) (p : string) : frame :=
  assign_where (at_pos p)
    (fun r => set_vols (cell_sub (vols (snd r)) (worst_starter_season df p)) (snd r)) df.

Definition rebaseline (df : frame) : frame := fold_left rebaseline_pos main_positions df.

(** [prob_play[pos]] *)
Definition prob_play (p : string) : Q :=
  if in_list p ["K"; "DST"]%string then 1.0 else bye_factor * pos_injury_factor p.

Definition rank_benchmark (df : frame) (p : string) : Z :=
  Qceiling (inject_Z (count (fun r => tiered r && at_pos p r) df) / prob_play p).

(** [auction_multiplier(x)] for position [p]. *)
Definition auction_multiplier (p : string) (pos_required x : Z) : outcome Q :=
  if in_list p ["K"; "DST"]%string then Return 0
  else if (pos_required =? 0)%Z then Raise ZeroDivisionError
  else
    let m := 1 / (1 + (inject_Z x / inject_Z pos_required) ^ 2) in
    Return (if Qlt_bool m 0 then 0 else m).

(** [max(0, np.mean([volb]))] *)
Definition max0 (volb : option Q) : Q :=
  match volb with
  | Some v => if Qlt_bool 0 v then v else 0
  | None => 0
  end.

(** The body of [for idx in range(posdf.shape[0])]. *)
Definition rank_auction_step (p : string) (pos_required : Z) (df : frame)
    (entry : Z * (Z * row)) : outcome frame :=
  let idx := fst entry in
  let label := fst (snd entry) in
  let volb_scaled := cell_scale (volb (snd (snd entry))) (pos_injury_factor p) in
  do mult <- auction_multiplier p pos_required idx;
  Return (assign_where (fun r => (fst r =? label)%Z)
            (fun r => set_auction (Some (mult * max0 volb_scaled))
                        (set_rank (Some (p, (idx + 1)%Z)) (snd r))) df).

(** One pass of the loop that fills [vbsd], [volb], [rank] and [auction]. *)
Definition value_pos (total_bench_positions total_start_positions sum_rank_benchmark : Z)
    (benchmark : string -> Z) (df : frame) (p : string) : outcome frame :=
  let posdf := sort_values vols false (List.filter (at_pos p) df) in
  let pos_required := count tiered posdf in
  let pos_rank_benchmark := benchmark p in
  let pos_benchmark := col_min (map (fun r => vols (snd r)) (head pos_rank_benchmark posdf)) in
  let df1 :=
    assign_where (at_pos p)
      (fun r => set_vbsd (cell_scale (cell_sub (vols (snd r)) pos_benchmark)
                                     (pos_injury_factor p)) (snd r)) df in
  if (sum_rank_benchmark - total_start_positions =? 0)%Z then Raise ZeroDivisionError
  else
    let bench_rank_benchmark :=
      (pos_required + (pos_rank_benchmark - pos_required) * total_bench_positions
                      / (sum_rank_benchmark - total_start_positions))%Z in
    let worst_draftable_value :=
      col_min (map (fun r => vols (snd r)) (head bench_rank_benchmark posdf)) in
    let df2 :=
      assign_where (at_pos p)
        (fun r => set_volb (cell_sub (vols (snd r)) worst_draftable_value) (snd r)) df1 in
    let posdf2 := sort_values vols false (List.filter (at_pos p) df2) in
    for_each (rank_auction_step p pos_required) (enumerate posdf2) df2.

Definition volb_nonneg (r : Z * row) : bool :=
  match volb (snd r) with Some v => Qle_bool 0 v | None => false end.

Definition set_tier_where (mask : Z * row -> bool) (t : tier_label) (df : frame) : frame :=
  assign_where mask (fun r => set_tier (Some t) (snd r)) df.

(** Backups: untiered rows with [volb >= 0], then the first untiered rows
    (in table order) up to the number of rostered players. *)
Definition label_backups (total_start_positions total_bench_positions : Z) (df : frame)
  : frame :=
  let df1 := set_tier_where (fun r => negb (tiered r) && volb_nonneg r) BU df in
  let n_more_backups := (total_start_positions + total_bench_positions - count tiered df1)%Z in
  let add_bu_ix := map fst (head n_more_backups (List.filter (fun r => negb (tiered r)) df1)) in
  set_tier_where (fun r => existsb (Z.eqb (fst r)) add_bu_ix) BU df1.

Definition cap : Z := 200.
Definition minbid : Z := 1.
Definition league_cap (lg : league) : Z := (n_teams lg * cap)%Z.
Definition total_roster_slots (lg : league) : Z :=
  fold_right Z.add 0%Z (map (fun kv => n_roster_per_league lg (fst kv)) (n_roster_per_team lg)).
Definition avail_cap (lg : league) : Z := (league_cap lg - minbid * total_roster_slots lg)%Z.

(** [total_auction_pts = availdf['auction'].sum()] *)
Definition total_auction_pts (df : frame) : Q := col_sum (map (fun r => auction (snd r)) df).

Definition rescale_auction (lg : league) (df : frame) : frame :=
  let scaled :=
    assign_where (fun _ => true)
      (fun r => set_auction (cell_scale (auction (snd r))
                                        (inject_Z (avail_cap lg) / total_auction_pts df))
                            (snd r))
      df in
  assign_where tiered
    (fun r => set_auction (match auction (snd r) with
                           | Some a => Some (a + inject_Z minbid)
                           | None => None
                           end) (snd r)) scaled.

Definition label_free_agents (df : frame) : frame :=
  set_tier_where (fun r => negb (tiered r)) FA df.

(** [sort_values('auction', ascending=False)] then [reset_index(drop=True)]. *)
Definition sort_and_reindex (df : frame) : frame :=
  enumerate (map snd (sort_values auction false df)).

(** The table when the backups have been labelled and the auction values
    are still unscaled: lines 1502 to 1643 of [main]. *)
Definition backups_table (lg : league) (players : list player_info) : outcome frame :=
  let availdf := initial_frame players in
  do ppg_baseline <- ppg_baselines lg availdf;
  do availdf <- for_each (vols_pos ppg_baseline) main_positions availdf;
  let availdf := label_starters lg availdf in
  let availdf := rebaseline availdf in
  let total_bench_positions := n_roster_per_league lg "BENCH" in
  let total_start_positions := count tiered availdf in
  let benchmark := rank_benchmark availdf in
  let sum_rank_benchmark := fold_right Z.add 0%Z (map benchmark main_positions) in
  do availdf <- for_each (value_pos total_bench_positions total_start_positions
                                    sum_rank_benchmark benchmark) main_positions availdf;
  Return (label_backups total_start_positions total_bench_positions availdf).

(** The table when the last tier label has been written, before the final
    sort: up to line 1660. *)
Definition value_table (lg : league) (players : list player_info) : outcome frame :=
  do availdf <- backups_table lg players;
  Return (label_free_agents (rescale_auction lg availdf)).

Definition startup_table (lg : league) (players : list player_info) : outcome frame :=
  do availdf <- value_table lg players;
  Return (sort_and_reindex availdf).

End Draft.

(** ** draft_app.py: the interactive shell *)
Module Shell.
Import Draft.

(** [MainPrompt._known_strategies]: each sorts the available players by one
    column.  (The [strat == 'vona'] branch of [_pick_rec], which no entry of
    this list takes, is outside the model.) *)
Inductive strategy : Type := Vols | Vbsd | Volb | Vorp | Adp | Ecp.

Definition strat_column (s : strategy) (r : row) : option Q :=
  match s with
  | Vols => vols r | Vbsd => vbsd r | Volb => volb r | Vorp => vorp r
  | Adp => adp (info r) | Ecp => ecp (info r)
  end.

(** [asc = strat in ['adp', 'ecp']] *)
Definition strat_ascending (s : strategy) : bool :=
  match s with Adp | Ecp => true | _ => false end.

(** The members of [MainPrompt] that picking and unpicking read or write. *)
Record prompt : Type := {
  ap : frame;
  pp : frame;
  draft_mode : bool;
  i_manager_turn : option Z;
  manager_picks : list Z;
  manager_auto_strats : list (Z * strategy);
  n_roster : list (string * Z);
  disabled_pos : list string
}.

Definition with_tables (ap' pp' : frame) (st : prompt) : prompt :=
  {| ap := ap'; pp := pp'; draft_mode := draft_mode st;
     i_manager_turn := i_manager_turn st; manager_picks := manager_picks st;
     manager_auto_strats := manager_auto_strats st; n_roster := n_roster st;
     disabled_pos := disabled_pos st |}.
Definition with_turn (t : option Z) (st : prompt) : prompt :=
  {| ap := ap st; pp := pp st; draft_mode := draft_mode st;
     i_manager_turn := t; manager_picks := manager_picks st;
     manager_auto_strats := manager_auto_strats st; n_roster := n_roster st;
     disabled_pos := disabled_pos st |}.

Definition labels (df : frame) : list Z := map fst df.
Definition has_label (i : Z) (df : frame) : bool := existsb (Z.eqb i) (labels df).

(** [df.drop(index)] *)
Definition drop_label (i : Z) (df : frame) : frame :=
  List.filter (fun r => negb (fst r =? i)%Z) df.

(** [df.loc[index]] for a label of the table. *)
Definition loc (i : Z) (df : frame) : option row :=
  option_map snd (find (fun r => (fst r =? i)%Z) df).

(** [df.loc[index] = player]: overwrite the row in place, or append it when
    the label is new. *)
Definition loc_set (i : Z) (r : row) (df : frame) : frame :=
  if has_label i df then assign_where (fun x => (fst x =? i)%Z) (fun _ => r) df
  else df ++ [(i, r)].

(** Column alignment on a move between the tables: the picked table has no
    'vorp' column, the available table no 'manager' and 'pick' columns. *)
Definition to_picked_columns (r : row) : row := set_vorp None r.
Definition to_available_columns (r : row) : row := set_pick None (set_manager None r).

(** [l[i]] with Python's negative indices. *)
Definition py_index {A : Type} (l : list A) (i : Z) : option A :=
  let len := Z.of_nat (length l) in
  if (i <? 0)%Z then (if (len + i <? 0)%Z then None else nth_error l (Z.to_nat (len + i)))
  else nth_error l (Z.to_nat i).

(** [pp.manager = pp.manager.astype(int)]: a NaN cell cannot be cast. *)
Definition astype_int (col : row -> option Z) (df : frame) : outcome unit :=
  if forallb (fun r => match col (snd r) with Some _ => true | None => false end) df
  then Return tt
  else Raise (ValueError "Cannot convert non-finite values (NA or inf) to integer").

(** [pop_from_player_list(index, ap, pp, manager, pickno)]: both tables as
    the call leaves them, and how it ended. *)
Definition pop_from_player_list (index : Z) (ap pp : frame) (manager pickno : option Z)
  : frame * frame * outcome unit :=
  match loc index ap with
  | None => (ap, pp, Raise (IndexError "The index does not indicate an available player!"))
  | Some player =>
      let pp1 := loc_set index (to_picked_columns player) pp in
      let pp2 := match manager with
                 | Some m => assign_where (fun x => (fst x =? index)%Z)
                               (fun x => set_manager (Some m) (snd x)) pp1
                 | None => pp1
                 end in
      match (match manager with Some _ => astype_int Draft.manager pp2 | None => Return tt end)
      with
      | Raise e => (ap, pp2, Raise e)
      | Return _ =>
          let pp3 := match pickno with
                     | Some k => assign_where (fun x => (fst x =? index)%Z)
                                   (fun x => set_pick (Some k) (snd x)) pp2
                     | None => pp2
                     end in
          match (match pickno with Some _ => astype_int Draft.pick pp3 | None => Return tt end)
          with
          | Raise e => (ap, pp3, Raise e)
          | Return _ => (drop_label index ap, pp3, Return tt)
          end
      end
  end.

(** [push_to_player_list(index, ap, pp)] *)
Definition push_to_player_list (index : Z) (ap pp : frame) : frame * frame * outcome unit :=
  match loc index pp with
  | None => (ap, pp, Raise (IndexError "The index does not indicate a picked player!"))
  | Some player =>
      (loc_set index (to_available_columns player) ap, drop_label index pp, Return tt)
  end.

(** [int(x)]: truncation toward zero. *)
Definition py_int (x : Q) : Z := if Qle_bool 0 x then Qfloor x else Qceiling x.

Definition is_tier (t : tier_label) (r : Z * row) : bool :=
  match tier (snd r), t with
  | Some BU, BU => true
  | Some FA, FA => true
  | _, _ => false
  end.

(** One iteration of the loop of [_update_vorp] over the positions. *)
Definition update_vorp_pos (pp ap : frame) (p : string) : outcome frame :=
  let pos_picked := List.filter (at_pos p) pp in
  let n_pos_picked := Z.of_nat (length pos_picked) in
  let n_waiv_picked := count (is_tier FA) pos_picked in
  let posdf := List.filter (at_pos p) ap in
  let pos_draftable := List.filter (fun r => negb (is_tier FA r)) posdf in
  let n_pos_draftable := (Z.of_nat (length pos_draftable) - n_waiv_picked)%Z in
  if (n_pos_draftable <=? 0)%Z then
    let vorp_baseline := col_max (map (fun r => vols (snd r)) posdf) in
    Return (assign_where (at_pos p)
              (fun r => set_vorp (cell_sub (vols (snd r)) vorp_baseline) (snd r)) ap)
  else
    let frac_through_bench :=
      inject_Z n_pos_picked * 1.0 / inject_Z (n_pos_picked + n_pos_draftable) in
    let worst_starters :=
      sort_values vols true (List.filter (fun r => negb (is_tier BU r)) pos_draftable) in
    let ls_index := option_map fst (List.head worst_starters) in
    let ls_mask r := match ls_index with Some i => (fst r =? i)%Z | None => false end in
    let pos_baseline := List.filter (fun r => is_tier BU r || ls_mask r) pos_draftable in
    let n_pos_baseline := Z.of_nat (length pos_baseline) in
    if (n_pos_baseline =? 0)%Z then
      Return (assign_where (at_pos p) (fun r => set_vorp (vols (snd r)) (snd r)) ap)
    else
      let index := py_int (frac_through_bench * inject_Z n_pos_baseline) in
      if (Z.of_nat (length pos_baseline) <=? index)%Z then
        (* [len(pos_baseline-1)]: arithmetic on a frame with text columns *)
        Raise TypeError
      else
        match py_index (map (fun r => vols (snd r)) (sort_values vols false pos_baseline)) index
        with
        | None => Raise (IndexError "single positional indexer is out-of-bounds")
        | Some vorp_baseline =>
            Return (assign_where (at_pos p)
                      (fun r => set_vorp (cell_sub (vols (snd r)) vorp_baseline) (snd r)) ap)
        end.

(** The keys of [n_roster_per_team] other than 'FLEX' and 'BENCH'. *)
Definition vorp_positions (n_roster : list (string * Z)) : list string :=
  List.filter (fun p => negb (in_list p ["FLEX"; "BENCH"]%string)) (map fst n_roster).

(** [_update_vorp(ap, pp)]: the available table with its 'vorp' column refreshed. *)
Definition _update_vorp (n_roster : list (string * Z)) (ap pp : frame) : outcome frame :=
  for_each (update_vorp_pos pp) (vorp_positions n_roster) ap.

Definition has_manager_column (pp : frame) : bool :=
  existsb (fun r => match manager (snd r) with Some _ => true | None => false end) pp.

(** [_get_manager_roster(manager, pp)] *)
Definition _get_manager_roster (mgr : option Z) (pp : frame) : frame :=
  match pp with
  | [] => pp
  | _ :: _ =>
      if has_manager_column pp then
        List.filter (fun r => match manager (snd r), mgr with
                              | Some m, Some m' => (m =? m')%Z
                              | _, _ => false
                              end) pp
      else pp
  end.

Definition crap_positions : list string := ["K"; "DST"]%string.
Definition key_positions : list string := ["QB"; "RB"; "WR"; "TE"]%string.

(** The positions [_pick_rec] is willing to fill, before the disabled ones
    are removed. *)
Definition acceptable_positions (n_roster : list (string * Z)) (roster : frame) : list string :=
  let have p := count (at_pos p) roster in
  let need p := roster_get n_roster p in
  (* [pos.upper() is not 'BENCH'] compares identities and holds for every key *)
  let starting_roster_spots := fold_right Z.add 0%Z (map snd n_roster) in
  let needed_crap_starter_positions :=
    List.filter (fun p => (have p <? need p)%Z) crap_positions in
  let key_nonflex_positions :=
    List.filter (fun p => negb (in_list p flex_pos)) key_positions in
  let used_flex_spot := existsb (fun p => (need p <? have p)%Z) flex_pos in
  let flex_mult := if used_flex_spot then 0%Z else 1%Z in
  let needed_key_starter_positions :=
    List.filter (fun p => (have p <? need p)%Z) key_nonflex_positions
    ++ List.filter (fun p => (have p <? need p + flex_mult * need "FLEX")%Z) flex_pos in
  let current_roster_size := Z.of_nat (length roster) in
  match needed_key_starter_positions with
  | _ :: _ => needed_key_starter_positions
  | [] =>
      if (starting_roster_spots
          <=? current_roster_size + Z.of_nat (length needed_crap_starter_positions))%Z
      then needed_crap_starter_positions
      else
        let acceptable_crap := List.filter (fun p => (have p <? need p)%Z) crap_positions in
        let acceptable_backup :=
          List.filter (fun p => (have p <? need p + need "BENCH" / 2)%Z) key_positions in
        acceptable_backup ++ acceptable_crap
  end.

(** [_pick_rec(manager, strat, ap, pp, disabled_pos)]: the available table
    as the call leaves it (the 'vorp' strategy refreshes that column first),
    and the label of the recommended player. *)
Definition _pick_rec (n_roster : list (string * Z)) (mgr : option Z) (strat : strategy)
    (ap pp : frame) (disabled : list string) : frame * outcome Z :=
  let roster := _get_manager_roster mgr pp in
  let acceptable := acceptable_positions n_roster roster in
  match (match strat with Vorp => _update_vorp n_roster ap pp | _ => Return ap end) with
  | Raise e => (ap, Raise e)
  | Return ap =>
      let acceptable := List.filter (fun p => negb (in_list p disabled)) acceptable in
      let acceptable := match acceptable with [] => key_positions | _ :: _ => acceptable end in
      let toppicks :=
        sort_values (strat_column strat) (strat_ascending strat)
          (List.filter (fun r => in_list (rpos r) acceptable) ap) in
      match toppicks with
      | [] => (ap, Raise (IndexError "index 0 is out of bounds for axis 0 with size 0"))
      | top :: _ => (ap, Return (fst top))
      end
  end.

(** A command: the prompt as it leaves it, and how it ended. *)
Definition result : Type := prompt * outcome unit.

(** [try: ... except IndexError as e: print(e)] *)
Definition except_index_error (r : result) : result :=
  match r with
  | (st, Raise (IndexError _)) => (st, Return tt)
  | _ => r
  end.

Definition _regress_snake (st : prompt) : result :=
  match i_manager_turn st with
  | Some t => (with_turn (Some (t - 1)%Z) st, Return tt)
  | None => (st, Raise TypeError)
  end.

Definition _get_current_manager (st : prompt) : outcome (option Z) :=
  match manager_picks st, i_manager_turn st with
  | [], _ | _, None => Return None
  | _ :: _, Some t =>
      if (Z.of_nat (length (manager_picks st)) <=? t)%Z then Return None
      else match py_index (manager_picks st) t with
           | Some m => Return (Some m)
           | None => Raise (IndexError "list index out of range")
           end
  end.

Definition dict_find {V : Type} (key : Z) (d : list (Z * V)) : option V :=
  option_map snd (find (fun kv => (fst kv =? key)%Z) d).

(** [_advance_snake()].  [conf] is what the user types if asked whether the
    draft is done; [depth] bounds the chain of automatic picks, each of which
    calls [_advance_snake] again. *)
Fixpoint _advance_snake (depth : nat) (conf : string) (st : prompt) : result :=
  match i_manager_turn st with
  | None => (st, Raise TypeError)
  | Some t0 =>
      let t := (t0 + 1)%Z in
      let st := with_turn (Some t) st in
      if (Z.of_nat (length (manager_picks st)) <=? t)%Z then
        if (conf =? "y")%string then (st, Return tt)
        else
          match List.last (map Some (labels (pp st))) None with
          | None => (st, Raise (IndexError "index -1 is out of bounds for axis 0 with size 0"))
          | Some lasti =>
              match push_to_player_list lasti (ap st) (pp st) with
              | (ap', pp', Raise e) => (with_tables ap' pp' st, Raise e)
              | (ap', pp', Return _) => _regress_snake (with_tables ap' pp' st)
              end
          end
      else
        match py_index (manager_picks st) t with
        | None => (st, Raise (IndexError "list index out of range"))
        | Some mgr =>
            match dict_find mgr (manager_auto_strats st) with
            | None => (st, Return tt)
            | Some strat =>
                except_index_error
                  (let pickno := (t + 1)%Z in
                   match _update_vorp (n_roster st) (ap st) (pp st) with
                   | Raise e => (st, Raise e)
                   | Return ap1 =>
                       match _pick_rec (n_roster st) (Some mgr) strat ap1 (pp st) [] with
                       | (ap2, Raise e) => (with_tables ap2 (pp st) st, Raise e)
                       | (ap2, Return player_index) =>
                           match pop_from_player_list player_index ap2 (pp st)
                                   (Some mgr) (Some pickno) with
                           | (ap3, pp3, Raise e) => (with_tables ap3 pp3 st, Raise e)
                           | (ap3, pp3, Return _) =>
                               match depth with
                               | O => (with_tables ap3 pp3 st, Raise RecursionError)
                               | S depth' => _advance_snake depth' conf (with_tables ap3 pp3 st)
                               end
                           end
                       end
                   end)
            end
        end
  end.

(** [do_pick(args)] when [args] is the decimal numeral of [index]. *)
Definition do_pick (index : Z) (conf : string) (st : prompt) : result :=
  match _get_current_manager st with
  | Raise e => (st, Raise e)
  | Return mgr =>
      except_index_error
        (match (if draft_mode st
                then match i_manager_turn st with
                     | Some t => Return (Some (t + 1)%Z)
                     | None => Raise TypeError
                     end
                else Return None) with
         | Raise e => (st, Raise e)
         | Return pickno =>
             match pop_from_player_list index (ap st) (pp st) mgr pickno with
             | (ap1, pp1, Raise e) => (with_tables ap1 pp1 st, Raise e)
             | (ap1, pp1, Return _) =>
                 match _update_vorp (n_roster st) ap1 pp1 with
                 | Raise e => (with_tables ap1 pp1 st, Raise e)
                 | Return ap2 =>
                     let st2 := with_tables ap2 pp1 st in
                     if draft_mode st
                     then _advance_snake (length (manager_picks st)) conf st2
                     else (st2, Return tt)
                 end
             end
         end)
  end.

(** [do_unpick(args)] *)
Definition do_unpick (st : prompt) : result :=
  match List.last (map Some (labels (pp st))) None with
  | None => (st, Return tt)
  | Some lasti =>
      except_index_error
        (match push_to_player_list lasti (ap st) (pp st) with
         | (ap1, pp1, Raise e) => (with_tables ap1 pp1 st, Raise e)
         | (ap1, pp1, Return _) =>
             match _update_vorp (n_roster st) ap1 pp1 with
             | Raise e => (with_tables ap1 pp1 st, Raise e)
             | Return ap2 =>
                 let st2 := with_tables ap2 pp1 st in
                 if draft_mode st then _regress_snake st2 else (st2, Return tt)
             end
         end)
  end.

(** [do_recommend]'s call for one strategy: [_pick_rec] with the prompt's
    own tables and its disabled positions. *)
Definition recommend (strat : strategy) (st : prompt) : frame * outcome Z :=
  match _get_current_manager st with
  | Raise e => (ap st, Raise e)
  | Return mgr => _pick_rec (n_roster st) mgr strat (ap st) (pp st) (disabled_pos st)
  end.

End Shell.

(** ** draft_app.py: facts about the value pipeline *)
Module DraftFacts.
Import Draft.

Lemma in_list_In s l : in_list s l = true <-> In s l.
Proof.
  unfold in_list. rewrite existsb_exists. split.
  - intros [x [Hx Heq]]. apply String.eqb_eq in Heq. subst x. exact Hx.
  - intros H. exists s. split; [exact H | apply String.eqb_refl].
Qed.

Lemma insert_row_In key asc x y l :
  In x (insert_row key asc y l) <-> x = y \/ In x l.
Proof.
  induction l as [|z l IH]; simpl.
  - intuition.
  - destruct (key_le asc (key (snd y)) (key (snd z))); simpl; [intuition|].
    rewrite IH. intuition.
Qed.

Lemma sort_values_In key asc x l : In x (sort_values key asc l) <-> In x l.
Proof.
  unfold sort_values. induction l as [|y l IH]; simpl; [tauto|].
  rewrite insert_row_In, IH. intuition.
Qed.

Lemma insert_row_perm key asc y l : Permutation (insert_row key asc y l) (y :: l).
Proof.
  induction l as [|z l IH]; simpl; [reflexivity|].
  destruct (key_le asc (key (snd y)) (key (snd z))); [reflexivity|].
  rewrite IH. apply perm_swap.
Qed.

Lemma sort_values_perm key asc l : Permutation (sort_values key asc l) l.
Proof.
  unfold sort_values. induction l as [|y l IH]; simpl; [reflexivity|].
  rewrite insert_row_perm. apply perm_skip, IH.
Qed.

Lemma sort_values_length key asc l : length (sort_values key asc l) = length l.
Proof. apply Permutation_length, sort_values_perm. Qed.

(** ** Loops that may raise *)

Lemma for_each_raise {S A : Type} (body : S -> A -> outcome S) items e :
  fold_left (fun acc x => do st <- acc; body st x) items (Raise e) = Raise e.
Proof. induction items as [|x items IH]; simpl; [reflexivity | exact IH]. Qed.

Lemma for_each_cons {S A : Type} (body : S -> A -> outcome S) x items init :
  for_each body (x :: items) init = do st <- body init x; for_each body items st.
Proof.
  unfold for_each. simpl. destruct (body init x) as [st|e]; simpl; [reflexivity|].
  apply for_each_raise.
Qed.

(** An invariant indexed by the items already processed. *)
Lemma for_each_invariant {S A : Type} (body : S -> A -> outcome S)
    (P : list A -> S -> Prop) items :
  forall done init final,
    P done init ->
    (forall pre x st st', P pre st -> body st x = Return st' -> P (pre ++ [x]) st') ->
    for_each body items init = Return final ->
    P (done ++ items) final.
Proof.
  induction items as [|x items IH]; intros done init final Hinit Hstep Hrun.
  - unfold for_each in Hrun. simpl in Hrun. injection Hrun as <-.
    rewrite app_nil_r. exact Hinit.
  - rewrite for_each_cons in Hrun. destruct (body init x) as [st|e] eqn:Hb; simpl in Hrun;
      [|discriminate Hrun].
    replace (done ++ x :: items) with ((done ++ [x]) ++ items)
      by (rewrite <- app_assoc; reflexivity).
    apply (IH (done ++ [x]) st final); [|exact Hstep|exact Hrun].
    apply (Hstep done x init st Hinit Hb).
Qed.

(** ** Tables related row by row *)

Definition related (R : row -> row -> Prop) (df df' : frame) : Prop :=
  Forall2 (fun r r' => fst r' = fst r /\ R (snd r) (snd r')) df df'.

Lemma related_refl (R : row -> row -> Prop) df :
  (forall x, R x x) -> related R df df.
Proof. intros HR. induction df; constructor; auto. Qed.

Lemma related_trans (R : row -> row -> Prop) a b c :
  (forall x y z, R x y -> R y z -> R x z) ->
  related R a b -> related R b c -> related R a c.
Proof.
  intros HR Hab. revert c. induction Hab as [|x y a b [Hl Hxy] _ IH]; intros c Hbc.
  - inversion Hbc. constructor.
  - inversion Hbc as [|y' z b' c' [Hl' Hyz] Hrest]; subst. constructor.
    + split; [congruence | eapply HR; eassumption].
    + apply IH, Hrest.
Qed.

Lemma related_labels R df df' : related R df df' -> map fst df' = map fst df.
Proof. induction 1 as [|x y a b [Hl _] _ IH]; simpl; [reflexivity | congruence]. Qed.

Lemma assign_where_related (R : row -> row -> Prop) mask f df :
  (forall x, R x x) ->
  (forall r, In r df -> mask r = true -> R (snd r) (f r)) ->
  related R df (assign_where mask f df).
Proof.
  intros HR Hf. unfold assign_where. induction df as [|r df IH]; simpl; constructor.
  - destruct (mask r) eqn:Hm; simpl; split; auto. apply Hf; [left; reflexivity | exact Hm].
  - apply IH. intros r' Hin. apply Hf. right. exact Hin.
Qed.

Lemma assign_where_labels mask f df : map fst (assign_where mask f df) = map fst df.
Proof.
  unfold assign_where. induction df as [|r df IH]; simpl; [reflexivity|].
  rewrite IH. destruct (mask r); reflexivity.
Qed.

Lemma for_each_related {A : Type} (R : row -> row -> Prop)
    (body : frame -> A -> outcome frame) items df final :
  (forall x, R x x) ->
  (forall x y z, R x y -> R y z -> R x z) ->
  (forall d x d', body d x = Return d' -> related R d d') ->
  for_each body items df = Return final ->
  related R df final.
Proof.
  intros Hrefl Htrans Hbody Hrun.
  apply (for_each_invariant body (fun _ d => related R df d) items [] df final).
  - apply related_refl, Hrefl.
  - intros pre x st st' Hst Hb. eapply related_trans; [exact Htrans | exact Hst|].
    eapply Hbody, Hb.
  - exact Hrun.
Qed.

Lemma related_In_r R df df' r' :
  related R df df' -> In r' df' -> exists r, In r df /\ fst r' = fst r /\ R (snd r) (snd r').
Proof.
  induction 1 as [|x y a b [Hl Hxy] _ IH]; intros Hin; [destruct Hin|].
  destruct Hin as [<-|Hin].
  - exists x. split; [left; reflexivity | auto].
  - destruct (IH Hin) as [r [Hr Hrest]]. exists r. split; [right; exact Hr | exact Hrest].
Qed.

Lemma related_In_l R df df' r :
  related R df df' -> In r df -> exists r', In r' df' /\ fst r' = fst r /\ R (snd r) (snd r').
Proof.
  induction 1 as [|x y a b [Hl Hxy] _ IH]; intros Hin; [destruct Hin|].
  destruct Hin as [<-|Hin].
  - exists y. split; [left; reflexivity | auto].
  - destruct (IH Hin) as [r' [Hr Hrest]]. exists r'. split; [right; exact Hr | exact Hrest].
Qed.

Definition starter_tier (r : row) : bool :=
  match tier r with
  | Some (Starter _ _) | Some (FlexTier _) => true
  | _ => false
  end.

Lemma related_compose (R1 R2 R3 : row -> row -> Prop) a b c :
  (forall x y z, R1 x y -> R2 y z -> R3 x z) ->
  related R1 a b -> related R2 b c -> related R3 a c.
Proof.
  intros HR Hab. revert c. induction Hab as [|x y a b [Hl Hxy] _ IH]; intros c Hbc.
  - inversion Hbc. constructor.
  - inversion Hbc as [|y' z b' c' [Hl' Hyz] Hrest]; subst. constructor.
    + split; [congruence | eapply HR; eassumption].
    + apply IH, Hrest.
Qed.

Lemma related_weaken (R1 R2 : row -> row -> Prop) a b :
  (forall x y, R1 x y -> R2 x y) -> related R1 a b -> related R2 a b.
Proof.
  intros HR. induction 1 as [|x y a b [Hl Hxy] _ IH]; constructor; auto.
Qed.

(** The later stages keep a row's identity, its [vols], and a tier label
    once written; an unlabelled row may only become 'BU' or 'FA'. *)
Definition keeps_value (r r' : row) : Prop :=
  info r' = info r /\ vols r' = vols r
  /\ match tier r with
     | Some t => tier r' = Some t
     | None => tier r' = None \/ tier r' = Some BU \/ tier r' = Some FA
     end.

Lemma keeps_value_refl r : keeps_value r r.
Proof. unfold keeps_value. destruct (tier r); auto. Qed.

Lemma keeps_value_trans x y z : keeps_value x y -> keeps_value y z -> keeps_value x z.
Proof.
  unfold keeps_value. intros (Hi & Hv & Ht) (Hi' & Hv' & Ht').
  repeat split; try congruence.
  destruct (tier x) as [t|].
  - rewrite Ht in Ht'. exact Ht'.
  - destruct Ht as [Ht | [Ht | Ht]]; rewrite Ht in Ht'; auto.
Qed.

Lemma rank_auction_step_keeps p req df entry df' :
  rank_auction_step p req df entry = Return df' -> related keeps_value df df'.
Proof.
  unfold rank_auction_step. destruct (auction_multiplier p req (fst entry)) as [m|e]; simpl;
    intros H; [|discriminate H]. injection H as <-.
  apply assign_where_related; [apply keeps_value_refl|].
  intros r _ _. unfold keeps_value. simpl. destruct (tier (snd r)); auto.
Qed.

Lemma value_pos_keeps tb ts sr bm df p df' :
  value_pos tb ts sr bm df p = Return df' -> related keeps_value df df'.
Proof.
  unfold value_pos. destruct (sr - ts =? 0)%Z; [discriminate|]. intros H.
  match type of H with for_each _ _ (assign_where ?m2 ?f2 (assign_where ?m1 ?f1 _)) = _ =>
    assert (H1 : related keeps_value df (assign_where m1 f1 df));
    [| assert (H2 : related keeps_value (assign_where m1 f1 df)
                      (assign_where m2 f2 (assign_where m1 f1 df))) ]
  end.
  - apply assign_where_related; [apply keeps_value_refl|].
    intros r _ _. unfold keeps_value. simpl. destruct (tier (snd r)); auto.
  - apply assign_where_related; [apply keeps_value_refl|].
    intros r _ _. unfold keeps_value. simpl. destruct (tier (snd r)); auto.
  - eapply related_trans; [exact keeps_value_trans | exact H1 |].
    eapply related_trans; [exact keeps_value_trans | exact H2 |].
    eapply for_each_related; [exact keeps_value_refl | exact keeps_value_trans | | exact H].
    intros d x d'. apply rank_auction_step_keeps.
Qed.

Lemma NoDup_labels_eq (df : frame) i r r' :
  List.NoDup (map fst df) -> In (i, r) df -> In (i, r') df -> r = r'.
Proof.
  induction df as [|[j x] df IH]; intros Hnd H1 H2; [destruct H1|].
  simpl in Hnd. apply NoDup_cons_iff in Hnd as [Hnotin Hnd].
  destruct H1 as [H1|H1], H2 as [H2|H2].
  - congruence.
  - injection H1 as -> ->. exfalso. apply Hnotin.
    change i with (fst (i, r')). apply in_map, H2.
  - injection H2 as -> ->. exfalso. apply Hnotin.
    change i with (fst (i, r)). apply in_map, H1.
  - apply IH; assumption.
Qed.

Lemma tiered_false r : tiered r = false -> tier (snd r) = None.
Proof. unfold tiered. destruct (tier (snd r)); [discriminate | reflexivity]. Qed.

Lemma take_incl {A : Type} n (l : list A) x : In x (take n l) -> In x l.
Proof.
  revert n. induction l as [|a l IH]; intros [|n] H; simpl in H; try contradiction.
  destruct H as [H|H]; [left; exact H | right; exact (IH n H)].
Qed.

Lemma head_incl k (df : frame) r : In r (head k df) -> In r df.
Proof. unfold head. destruct (0 <=? k)%Z; apply take_incl. Qed.

Lemma label_backups_keeps ts tb df :
  List.NoDup (map fst df) -> related keeps_value df (label_backups ts tb df).
Proof.
  intros Hnd. unfold label_backups, set_tier_where.
  set (df1 := assign_where _ _ df).
  assert (H1 : related keeps_value df df1).
  { apply assign_where_related; [apply keeps_value_refl|].
    intros r _ Hm. apply andb_prop in Hm as [Hm _]. apply negb_true_iff, tiered_false in Hm.
    unfold keeps_value. simpl. rewrite Hm. auto. }
  eapply related_trans; [exact keeps_value_trans | exact H1 |].
  apply assign_where_related; [apply keeps_value_refl|].
  intros r Hin Hm. apply existsb_exists in Hm as [i [Hi Heq]]. apply Z.eqb_eq in Heq.
  apply in_map_iff in Hi as [r0 [Hr0 Hin0]]. apply head_incl in Hin0.
  apply filter_In in Hin0 as [Hin0 Hun]. apply negb_true_iff, tiered_false in Hun.
  assert (Hnd1 : List.NoDup (map fst df1)) by (unfold df1; rewrite assign_where_labels; exact Hnd).
  assert (snd r = snd r0).
  { destruct r as [j x], r0 as [j0 x0]. simpl in Heq, Hr0. simpl.
    assert (Hj : j0 = j) by congruence. rewrite Hj in Hin0.
    apply (NoDup_labels_eq df1 j x x0 Hnd1 Hin Hin0). }
  unfold keeps_value. simpl. rewrite H, Hun. auto.
Qed.

Lemma rescale_auction_keeps lg df : related keeps_value df (rescale_auction lg df).
Proof.
  unfold rescale_auction.
  match goal with |- related _ _ (assign_where _ _ ?mid) =>
    apply (related_trans keeps_value df mid _ keeps_value_trans) end.
  - apply assign_where_related; [apply keeps_value_refl|].
    intros r _ _. unfold keeps_value. simpl. destruct (tier (snd r)); auto.
  - apply assign_where_related; [apply keeps_value_refl|].
    intros r _ _. unfold keeps_value. simpl. destruct (tier (snd r)); auto.
Qed.

Lemma label_free_agents_keeps df : related keeps_value df (label_free_agents df).
Proof.
  unfold label_free_agents, set_tier_where.
  apply assign_where_related; [apply keeps_value_refl|].
  intros r _ Hm. apply negb_true_iff, tiered_false in Hm.
  unfold keeps_value. simpl. rewrite Hm. auto.
Qed.

(** ** Column minimum *)

Lemma col_min_some cells m :
  col_min cells = Some m ->
  In (Some m) cells /\ forall v, In (Some v) cells -> m <= v.
Proof.
  revert m. induction cells as [|c cells IH]; intros m H; simpl in H; [discriminate|].
  destruct c as [x|]; [|destruct (IH m H) as [Hin Hle]; split;
                         [right; exact Hin
                         | intros v [Hv|Hv]; [discriminate | apply Hle, Hv]]].
  destruct (col_min cells) as [m0|] eqn:Hm0.
  - destruct (IH m0 eq_refl) as [Hin Hle].
    destruct (Qle_bool x m0) eqn:Hx; injection H as <-.
    + apply Qle_bool_iff in Hx. split; [left; reflexivity|].
      intros v [Hv|Hv]; [injection Hv as <-; apply Qle_refl|].
      eapply Qle_trans; [exact Hx | apply Hle, Hv].
    + assert (Hlt : m0 < x).
      { apply Qnot_le_lt. intros Hc. apply Qle_bool_iff in Hc. congruence. }
      split; [right; exact Hin|].
      intros v [Hv|Hv]; [injection Hv as <-; apply Qlt_le_weak, Hlt | apply Hle, Hv].
  - injection H as <-. split; [left; reflexivity|].
    intros v [Hv|Hv]; [injection Hv as <-; apply Qle_refl|].
    exfalso. clear IH. induction cells as [|c' cells IH']; [destruct Hv|].
    simpl in Hm0. destruct Hv as [->|Hv].
    + destruct (col_min cells); discriminate Hm0.
    + destruct c'; [destruct (col_min cells); discriminate Hm0 | apply IH'; assumption].
Qed.

Lemma col_min_exists cells v :
  In (Some v) cells -> exists m, col_min cells = Some m.
Proof.
  induction cells as [|c cells IH]; intros H; [destruct H|].
  simpl. destruct H as [->|H].
  - destruct (col_min cells); eexists; reflexivity.
  - destruct (IH H) as [m Hm]. rewrite Hm. destruct c; eexists; reflexivity.
Qed.

Lemma py_min_le x b : exists y, py_min (Some x) b = Some y /\ y <= x.
Proof.
  unfold py_min. destruct b as [z|].
  - destruct (Qle_bool x z) eqn:Hx.
    + exists x. split; [reflexivity | apply Qle_refl].
    + exists z. split; [reflexivity|]. apply Qlt_le_weak, Qnot_le_lt.
      intros Hc. apply Qle_bool_iff in Hc. congruence.
  - exists x. split; [reflexivity | apply Qle_refl].
Qed.

(** ** Rows of one position under a masked assignment *)

Lemma at_pos_true p r : at_pos p r = true <-> rpos r = p.
Proof. unfold at_pos. apply String.eqb_eq. Qed.

Lemma filter_assign_other p q (f : Z * row -> row) df :
  q <> p ->
  (forall r, pos (info (f r)) = pos (info (snd r))) ->
  List.filter (at_pos p) (assign_where (at_pos q) f df) = List.filter (at_pos p) df.
Proof.
  intros Hne Hf. unfold assign_where. induction df as [|r df IH]; simpl; [reflexivity|].
  rewrite IH. destruct (at_pos q r) eqn:Hq; [|reflexivity].
  apply at_pos_true in Hq.
  assert (H1 : at_pos p (fst r, f r) = false).
  { unfold at_pos, rpos. simpl. rewrite Hf. apply String.eqb_neq. unfold rpos in Hq. congruence. }
  assert (H2 : at_pos p r = false).
  { unfold at_pos. apply String.eqb_neq. congruence. }
  rewrite H1, H2. reflexivity.
Qed.

Lemma filter_assign_same p (f : Z * row -> row) df :
  (forall r, pos (info (f r)) = pos (info (snd r))) ->
  List.filter (at_pos p) (assign_where (at_pos p) f df)
  = map (fun r => (fst r, f r)) (List.filter (at_pos p) df).
Proof.
  intros Hf. unfold assign_where. induction df as [|r df IH]; simpl; [reflexivity|].
  rewrite IH. destruct (at_pos p r) eqn:Hp.
  - assert (H1 : at_pos p (fst r, f r) = true).
    { unfold at_pos, rpos in *. simpl. rewrite Hf. exact Hp. }
    rewrite H1. reflexivity.
  - rewrite Hp. reflexivity.
Qed.

Lemma filter_and {A : Type} (f g : A -> bool) l :
  List.filter (fun x => f x && g x) l = List.filter g (List.filter f l).
Proof.
  induction l as [|x l IH]; simpl; [reflexivity|].
  destruct (f x); simpl; [destruct (g x); rewrite IH; reflexivity | exact IH].
Qed.

(** ** The re-baselining loop, seen from one position *)

Definition shift_vols (w : option Q) (r : Z * row) : Z * row :=
  (fst r, set_vols (cell_sub (vols (snd r)) w) (snd r)).

Lemma rebaseline_pos_other p q df :
  q <> p -> List.filter (at_pos p) (rebaseline_pos df q) = List.filter (at_pos p) df.
Proof. intros Hne. unfold rebaseline_pos. apply filter_assign_other; [exact Hne | reflexivity]. Qed.

Lemma rebaseline_others p qs df :
  ~ In p qs ->
  List.filter (at_pos p) (fold_left rebaseline_pos qs df) = List.filter (at_pos p) df.
Proof.
  revert df. induction qs as [|q qs IH]; intros df Hnot; simpl; [reflexivity|].
  rewrite IH by (intros H; apply Hnot; right; exact H).
  apply rebaseline_pos_other. intros ->. apply Hnot. left. reflexivity.
Qed.

Lemma rebaseline_rows_at p pre post df :
  main_positions = pre ++ p :: post -> ~ In p pre -> ~ In p post ->
  List.filter (at_pos p) (rebaseline df)
  = map (shift_vols (worst_starter_season (fold_left rebaseline_pos pre df) p))
        (List.filter (at_pos p) df).
Proof.
  intros Hsplit Hpre Hpost. unfold rebaseline. rewrite Hsplit, fold_left_app. simpl.
  rewrite (rebaseline_others p post) by exact Hpost.
  unfold rebaseline_pos at 1. rewrite filter_assign_same by reflexivity.
  rewrite (rebaseline_others p pre) by exact Hpre. reflexivity.
Qed.

Lemma own_worst_before p pre df :
  ~ In p pre ->
  List.filter (fun r => at_pos p r && tiered r) (fold_left rebaseline_pos pre df)
  = List.filter (fun r => at_pos p r && tiered r) df.
Proof.
  intros Hpre. rewrite !filter_and, (rebaseline_others p pre) by exact Hpre. reflexivity.
Qed.

Lemma assign_where_related2 (R : row -> row -> Prop) mask f df :
  (forall r, In r df -> mask r = true -> R (snd r) (f r)) ->
  (forall r, In r df -> mask r = false -> R (snd r) (snd r)) ->
  related R df (assign_where mask f df).
Proof.
  intros Hf Hid. unfold assign_where. induction df as [|r df IH]; simpl; constructor.
  - destruct (mask r) eqn:Hm; simpl; split; auto.
    + apply Hf; [left; reflexivity | exact Hm].
    + apply Hid; [left; reflexivity | exact Hm].
  - apply IH; intros r' Hin; [apply Hf | apply Hid]; right; exact Hin.
Qed.

Lemma fold_left_related {A : Type} (R : row -> row -> Prop) (step : frame -> A -> frame) xs :
  (forall x, R x x) -> (forall x y z, R x y -> R y z -> R x z) ->
  (forall d x, related R d (step d x)) ->
  forall df, related R df (fold_left step xs df).
Proof.
  intros Hrefl Htrans Hstep. induction xs as [|x xs IH]; intros df; simpl.
  - apply related_refl, Hrefl.
  - eapply related_trans; [exact Htrans | apply Hstep | apply IH].
Qed.

(** ** Labels of the initial table *)

Lemma combine_fst {A B : Type} (a : list A) (b : list B) :
  length a = length b -> map fst (combine a b) = a.
Proof.
  revert b. induction a as [|x a IH]; intros [|y b] H; simpl in *; try discriminate;
    [reflexivity|]. f_equal. apply IH. lia.
Qed.

Lemma combine_snd {A B : Type} (a : list A) (b : list B) :
  length a = length b -> map snd (combine a b) = b.
Proof.
  revert b. induction a as [|x a IH]; intros [|y b] H; simpl in *; try discriminate;
    [reflexivity|]. f_equal. apply IH. lia.
Qed.

Lemma enumerate_labels {A : Type} (l : list A) :
  map fst (enumerate l) = map Z.of_nat (seq 0 (length l)).
Proof. unfold enumerate. apply combine_fst. rewrite length_map, length_seq. reflexivity. Qed.

Lemma enumerate_values {A : Type} (l : list A) : map snd (enumerate l) = l.
Proof. unfold enumerate. apply combine_snd. rewrite length_map, length_seq. reflexivity. Qed.

Lemma enumerate_NoDup {A : Type} (l : list A) : List.NoDup (map fst (enumerate l)).
Proof.
  rewrite enumerate_labels. apply Finite.Injective_map_NoDup.
  - intros x y H. lia.
  - apply seq_NoDup.
Qed.

(** ** The table before the second baseline *)

(** What holds of every row when the starters have been labelled. *)
Definition labelled_row (r : row) : Prop :=
  (In (pos (info r)) main_positions -> exists v, vols r = Some v)
  /\ (tier r = None \/ starter_tier r = true).

Definition vols_done (done : list string) (r r' : row) : Prop :=
  info r' = info r /\ tier r' = tier r
  /\ (In (pos (info r)) done \/ (exists v, vols r = Some v) -> exists v, vols r' = Some v).

Lemma vols_pos_done bl df p df' :
  vols_pos bl df p = Return df' ->
  related (fun r r' => info r' = info r /\ tier r' = tier r
                       /\ (pos (info r) = p \/ (exists v, vols r = Some v)
                           -> exists v, vols r' = Some v)) df df'.
Proof.
  unfold vols_pos. destruct (dict_get bl p) as [w|e]; simpl; [|discriminate].
  destruct (if in_list p flex_pos then _ else _) as [w'|e]; simpl; [|discriminate].
  intros H. injection H as <-. apply assign_where_related2.
  - intros r _ _. simpl. repeat split. intros _. eexists. reflexivity.
  - intros r _ Hm. repeat split. intros [Hp|Hv]; [|exact Hv].
    exfalso. apply at_pos_true in Hp. unfold at_pos in *. congruence.
Qed.

Lemma vols_stage bl df df' :
  for_each (vols_pos bl) main_positions df = Return df' ->
  related (vols_done main_positions) df df'.
Proof.
  intros H.
  apply (for_each_invariant (vols_pos bl) (fun done d => related (vols_done done) df d)
           main_positions [] df df').
  - apply related_refl. intros x. repeat split. intros [[]|Hv]. exact Hv.
  - intros pre x st st' Hst Hb. eapply related_compose; [|exact Hst|exact (vols_pos_done _ _ _ _ Hb)].
    intros a b c (Hi & Ht & Hv) (Hi' & Ht' & Hv'). repeat split; try congruence.
    intros [Hin|Hsome].
    + apply in_app_or in Hin as [Hin|[Hx|[]]].
      * apply Hv'. right. apply Hv. left. exact Hin.
      * apply Hv'. left. congruence.
    + apply Hv'. right. apply Hv. right. exact Hsome.
  - exact H.
Qed.

Definition labels_more (r r' : row) : Prop :=
  info r' = info r /\ vols r' = vols r /\ (tier r' = tier r \/ starter_tier r' = true).

Lemma labels_more_refl r : labels_more r r.
Proof. unfold labels_more. auto. Qed.

Lemma labels_more_trans x y z : labels_more x y -> labels_more y z -> labels_more x z.
Proof.
  unfold labels_more. intros (Hi & Hv & Ht) (Hi' & Hv' & Ht'). repeat split; try congruence.
  destruct Ht' as [Ht'|Ht']; [|right; exact Ht'].
  destruct Ht as [Ht|Ht]; [left; congruence|]. right.
  unfold starter_tier in *. rewrite Ht'. exact Ht.
Qed.

Lemma label_classes_more mk n nt sorted df :
  (forall c r, starter_tier (set_tier (Some (mk c)) r) = true) ->
  related labels_more df (label_classes mk n nt sorted df).
Proof.
  intros Hmk. unfold label_classes.
  apply fold_left_related; [exact labels_more_refl | exact labels_more_trans|].
  intros d x. apply assign_where_related; [exact labels_more_refl|].
  intros r _ _. unfold labels_more. simpl. repeat split. right. apply Hmk.
Qed.

Lemma label_starters_more lg df : related labels_more df (label_starters lg df).
Proof.
  unfold label_starters, label_flex.
  eapply related_trans; [exact labels_more_trans | | apply label_classes_more; reflexivity].
  apply fold_left_related; [exact labels_more_refl | exact labels_more_trans|].
  intros d p. unfold label_starters_pos. apply label_classes_more. reflexivity.
Qed.

Lemma initial_frame_rows players r : In r (initial_frame players) ->
  tier (snd r) = None.
Proof.
  intros H. apply (in_map snd) in H. unfold initial_frame in H.
  rewrite enumerate_values in H. apply in_map_iff in H as [i [<- _]]. reflexivity.
Qed.

Lemma labelled_after_starters lg bl players dfv r :
  for_each (vols_pos bl) main_positions (initial_frame players) = Return dfv ->
  In r (label_starters lg dfv) -> labelled_row (snd r).
Proof.
  intros Hv Hin.
  destruct (related_In_r _ _ _ _ (label_starters_more lg dfv) Hin)
    as [r1 [Hin1 [_ (Hi1 & Hv1 & Ht1)]]].
  destruct (related_In_r _ _ _ _ (vols_stage _ _ _ Hv) Hin1)
    as [r0 [Hin0 [_ (Hi0 & Ht0 & Hv0)]]].
  apply initial_frame_rows in Hin0. split.
  - intros Hp. rewrite Hv1. apply Hv0. left. congruence.
  - destruct Ht1 as [Ht1|Ht1]; [left; congruence | right; exact Ht1].
Qed.

Definition starters_at (p : string) (df : frame) : list row :=
  List.filter (fun r => (pos (info r) =? p)%string && starter_tier r) (map snd df).

Definition min_vols_is (m : Q) (rows : list row) : Prop :=
  (forall r, In r rows -> exists v, vols r = Some v /\ m <= v)
  /\ exists r v, In r rows /\ vols r = Some v /\ v == m.

Definition same_player (r r' : row) : Prop := info r' = info r /\ tier r' = tier r.

Lemma rebaseline_same_player df : related same_player df (rebaseline df).
Proof.
  unfold rebaseline. apply fold_left_related.
  - intros x. split; reflexivity.
  - intros x y z [H1 H2] [H3 H4]. split; congruence.
  - intros d p. unfold rebaseline_pos. apply assign_where_related.
    + intros x. split; reflexivity.
    + intros r _ _. split; reflexivity.
Qed.

Lemma bind_return {A B : Type} (m : outcome A) (k : A -> outcome B) y :
  bind m k = Return y -> exists x, m = Return x /\ k x = Return y.
Proof. destruct m as [x|e]; simpl; intros H; [exists x; auto | discriminate H]. Qed.

(** The stages of [value_table], named. *)
Lemma value_table_stages lg players df :
  value_table lg players = Return df ->
  exists dfl,
    (forall r, In r dfl -> labelled_row (snd r))
    /\ related keeps_value (rebaseline dfl) df.
Proof.
  unfold value_table. intros H.
  apply bind_return in H as [dfu [Hu H]]. injection H as <-.
  unfold backups_table in Hu.
  apply bind_return in Hu as [bl [_ Hu]].
  apply bind_return in Hu as [dfv [Hv Hu]].
  apply bind_return in Hu as [dfa [Ha Hu]].
  injection Hu as <-.
  exists (label_starters lg dfv). split.
  - intros r Hin. eapply labelled_after_starters; [exact Hv | exact Hin].
  - assert (Hk : related keeps_value (rebaseline (label_starters lg dfv)) dfa).
    { eapply for_each_related; [exact keeps_value_refl | exact keeps_value_trans | | exact Ha].
      intros d x d'. apply value_pos_keeps. }
    assert (Hnd : List.NoDup (map fst dfa)).
    { rewrite (related_labels _ _ _ Hk).
      rewrite (related_labels _ _ _ (rebaseline_same_player (label_starters lg dfv))).
      rewrite (related_labels _ _ _ (label_starters_more lg dfv)).
      rewrite (related_labels _ _ _ (vols_stage _ _ _ Hv)).
      apply enumerate_NoDup. }
    eapply related_trans; [exact keeps_value_trans | exact Hk|].
    eapply related_trans; [exact keeps_value_trans | apply label_backups_keeps, Hnd|].
    eapply related_trans; [exact keeps_value_trans | apply rescale_auction_keeps|].
    apply label_free_agents_keeps.
Qed.

Lemma tiered_shift w r : tiered (shift_vols w r) = tiered r.
Proof. reflexivity. Qed.

Section one_position.

Variables (p : string) (pre post : list string).
Hypothesis Hsplit : main_positions = pre ++ p :: post.
Hypothesis Hpre : ~ In p pre.
Hypothesis Hpost : ~ In p post.

Variables (dfl df : frame).
Hypothesis Hlab : forall r, In r dfl -> labelled_row (snd r).
Hypothesis Hkeep : related keeps_value (rebaseline dfl) df.

Let w := worst_starter_season (fold_left rebaseline_pos pre dfl) p.
Let T := List.filter (fun r => at_pos p r && tiered r) dfl.

Lemma p_main : In p main_positions.
Proof. rewrite Hsplit. apply in_or_app. right. left. reflexivity. Qed.

Lemma starter_from_T r' :
  In r' (starters_at p df) ->
  exists r0, In r0 T /\ vols r' = cell_sub (vols (snd r0)) w.
Proof.
  unfold starters_at. intros Hin. apply filter_In in Hin as [Hin Hm].
  apply andb_prop in Hm as [Hp Hst]. apply String.eqb_eq in Hp.
  apply in_map_iff in Hin as [x [<- Hx]].
  destruct (related_In_r _ _ _ _ Hkeep Hx) as [r [Hr [_ (Hi & Hv & Ht)]]].
  assert (Htier : tiered r = true).
  { unfold tiered. destruct (tier (snd r)); [reflexivity|]. unfold starter_tier in Hst.
    destruct Ht as [Ht|[Ht|Ht]]; rewrite Ht in Hst; discriminate Hst. }
  assert (Hat : at_pos p r = true).
  { apply at_pos_true. unfold rpos. congruence. }
  assert (Hrf : In r (List.filter (at_pos p) (rebaseline dfl))).
  { apply filter_In. split; assumption. }
  rewrite (rebaseline_rows_at p pre post dfl Hsplit Hpre Hpost) in Hrf.
  apply in_map_iff in Hrf as [r0 [<- Hr0]]. apply filter_In in Hr0 as [Hr0 Hat0].
  exists r0. split.
  - unfold T. apply filter_In. split; [exact Hr0|]. rewrite Hat0. exact Htier.
  - rewrite Hv. reflexivity.
Qed.

Lemma starter_of_T r0 :
  In r0 T ->
  exists r', In r' (starters_at p df) /\ vols r' = cell_sub (vols (snd r0)) w.
Proof.
  unfold T. intros Hin. apply filter_In in Hin as [Hin Hm]. apply andb_prop in Hm as [Hat Hti].
  assert (Hrf : In (shift_vols w r0) (List.filter (at_pos p) (rebaseline dfl))).
  { rewrite (rebaseline_rows_at p pre post dfl Hsplit Hpre Hpost).
    apply in_map. apply filter_In. split; assumption. }
  apply filter_In in Hrf as [Hrf _].
  destruct (related_In_l _ _ _ _ Hkeep Hrf) as [x [Hx [_ (Hi & Hv & Ht)]]].
  exists (snd x). split.
  - unfold starters_at. apply filter_In. split; [apply in_map, Hx|].
    apply at_pos_true in Hat. unfold rpos in Hat. simpl in Hi. rewrite Hi, Hat, String.eqb_refl.
    simpl. simpl in Ht. unfold tiered in Hti. destruct (Hlab r0 Hin) as [_ [Hn|Hs]].
    + rewrite Hn in Hti. discriminate Hti.
    + unfold starter_tier in *. destruct (tier (snd r0)); [|discriminate Hti].
      rewrite Ht. exact Hs.
  - rewrite Hv. reflexivity.
Qed.

Lemma T_vols r0 : In r0 T -> exists v, vols (snd r0) = Some v.
Proof.
  unfold T. intros Hin. apply filter_In in Hin as [Hin Hm]. apply andb_prop in Hm as [Hat _].
  apply at_pos_true in Hat. apply (Hlab r0 Hin). unfold rpos in Hat. rewrite Hat. exact p_main.
Qed.

Lemma own_min r0 :
  In r0 T ->
  exists m, col_min (map (fun r => vols (snd r))
                         (List.filter (fun r => at_pos p r && tiered r)
                                      (fold_left rebaseline_pos pre dfl))) = Some m
            /\ (forall r, In r T -> exists v, vols (snd r) = Some v /\ m <= v)
            /\ exists r1, In r1 T /\ vols (snd r1) = Some m.
Proof.
  intros Hin. rewrite (own_worst_before p pre dfl Hpre). fold T.
  destruct (T_vols r0 Hin) as [v0 Hv0].
  destruct (col_min_exists (map (fun r => vols (snd r)) T) v0) as [m Hm].
  { rewrite <- Hv0. apply (in_map (fun r => vols (snd r))), Hin. }
  exists m. split; [exact Hm|]. destruct (col_min_some _ _ Hm) as [Hatt Hle]. split.
  - intros r Hr. destruct (T_vols r Hr) as [v Hv]. exists v. split; [exact Hv|].
    apply Hle. rewrite <- Hv. apply (in_map (fun r => vols (snd r))), Hr.
  - apply in_map_iff in Hatt as [r1 [Hv1 Hr1]]. exists r1. split; assumption.
Qed.

(** A position outside the flex set: its worst starter sits at zero. *)
Lemma nonflex_min_zero :
  in_list p flex_pos = false -> starters_at p df <> [] -> min_vols_is 0 (starters_at p df).
Proof.
  intros Hnf Hne.
  destruct (starters_at p df) as [|s rest] eqn:Hs; [contradiction|].
  destruct (starter_from_T s) as [r0 [Hr0 _]]; [rewrite Hs; left; reflexivity|].
  rewrite <- Hs. clear Hs Hne s rest.
  destruct (own_min r0 Hr0) as [m [Hm [Hle [r1 [Hr1 Hv1]]]]].
  assert (Hw : w = Some m).
  { unfold w, worst_starter_season. rewrite Hnf. exact Hm. }
  split.
  - intros r' Hin. destruct (starter_from_T r' Hin) as [r [Hr Hv]].
    destruct (Hle r Hr) as [v [Hvr Hmv]]. rewrite Hv, Hvr, Hw. simpl.
    eexists. split; [reflexivity|]. lra.
  - destruct (starter_of_T r1 Hr1) as [r' [Hin Hv]]. exists r', (m - m). split; [exact Hin|].
    split; [|ring]. rewrite Hv, Hv1, Hw. reflexivity.
Qed.

(** A flex-eligible position: no starter is below zero. *)
Lemma flex_nonneg r' :
  In r' (starters_at p df) -> exists v, vols r' = Some v /\ 0 <= v.
Proof.
  intros Hin. destruct (starter_from_T r' Hin) as [r0 [Hr0 Hv]].
  destruct (own_min r0 Hr0) as [m [Hm [Hle _]]].
  destruct (Hle r0 Hr0) as [v0 [Hv0 Hmv]].
  assert (Hw : exists y, w = Some y /\ y <= m).
  { unfold w, worst_starter_season. destruct (in_list p flex_pos).
    - rewrite Hm. apply py_min_le.
    - exists m. split; [exact Hm | apply Qle_refl]. }
  destruct Hw as [y [Hw Hy]]. rewrite Hv, Hv0, Hw. simpl.
  eexists. split; [reflexivity|]. lra.
Qed.

End one_position.

Definition non_fa (r : row) : bool :=
  match tier r with Some FA => false | _ => true end.

Definition non_fa_at (p : string) (df : frame) : list row :=
  List.filter (fun r => (pos (info r) =? p)%string && non_fa r) (map snd df).

Definition min_vols_isb (m : Q) (rows : list row) : bool :=
  forallb (fun r => match vols r with Some v => Qle_bool m v | None => false end) rows
  && existsb (fun r => match vols r with Some v => Qeq_bool v m | None => false end) rows.

Lemma min_vols_isb_spec m rows : min_vols_isb m rows = true <-> min_vols_is m rows.
Proof.
  unfold min_vols_isb, min_vols_is. rewrite andb_true_iff, forallb_forall, existsb_exists.
  split; intros [Hall Hex]; split.
  - intros r Hr. specialize (Hall r Hr). destruct (vols r) as [v|]; [|discriminate].
    exists v. split; [reflexivity | apply Qle_bool_iff, Hall].
  - destruct Hex as [r [Hr Hv]]. destruct (vols r) as [v|] eqn:E; [|discriminate].
    exists r, v. repeat split; auto. apply Qeq_bool_eq, Hv.
  - intros r Hr. destruct (Hall r Hr) as [v [-> Hv]]. apply Qle_bool_iff, Hv.
  - destruct Hex as [r [v [Hr [Hv Heq]]]]. exists r. split; [exact Hr|]. rewrite Hv.
    apply Qeq_eq_bool, Heq.
Qed.

Definition mkp (name p : string) (proj : Q) : player_info :=
  {| player := name; team := "T"; pos := p; adp := None; ecp := None;
     exp_proj := proj; g := 15 |}.

(** A two-team league with one starter per slot and one bench place. *)
Definition sample_league : league :=
  {| n_teams := 2; n_qb := 1; n_rb := 1; n_wr := 1; n_te := 1; n_flex := 1;
     n_dst := 1; n_k := 1; n_bench := 1 |}.

Definition sample_pool : list player_info :=
  [ mkp "QB A" "QB" 300; mkp "QB B" "QB" 290; mkp "QB C" "QB" 280; mkp "QB D" "QB" 205;
    mkp "RB A" "RB" 250; mkp "RB B" "RB" 245; mkp "RB C" "RB" 240; mkp "RB D" "RB" 235;
    mkp "RB E" "RB" 230; mkp "RB F" "RB" 100;
    mkp "WR A" "WR" 200; mkp "WR B" "WR" 195; mkp "WR C" "WR" 190; mkp "WR D" "WR" 120;
    mkp "TE A" "TE" 150; mkp "TE B" "TE" 145; mkp "TE C" "TE" 140; mkp "TE D" "TE" 90;
    mkp "K A" "K" 131; mkp "K B" "K" 126; mkp "K C" "K" 121;
    mkp "DST A" "DST" 112; mkp "DST B" "DST" 106; mkp "DST C" "DST" 101 ]%string.

Definition sample_table : frame :=
  match startup_table sample_league sample_pool with
  | Return df => df
  | Raise _ => []
  end.

Lemma sample_table_runs : startup_table sample_league sample_pool = Return sample_table.
Proof. vm_compute. reflexivity. Qed.

Lemma sort_and_reindex_rows df : Permutation (map snd (sort_and_reindex df)) (map snd df).
Proof.
  unfold sort_and_reindex. rewrite enumerate_values.
  apply Permutation_map, sort_values_perm.
Qed.

Lemma starters_at_sorted p df r :
  In r (starters_at p (sort_and_reindex df)) <-> In r (starters_at p df).
Proof.
  unfold starters_at. rewrite !filter_In.
  split; intros [Hin Hm]; split; try exact Hm.
  - eapply Permutation_in; [apply sort_and_reindex_rows | exact Hin].
  - eapply Permutation_in; [symmetry; apply sort_and_reindex_rows | exact Hin].
Qed.

Lemma min_vols_is_ext m rows rows' :
  (forall r, In r rows' <-> In r rows) -> min_vols_is m rows -> min_vols_is m rows'.
Proof.
  intros Hext [Hall [r [v [Hr Hv]]]]. split.
  - intros r' Hr'. apply Hall, Hext, Hr'.
  - exists r, v. split; [apply Hext, Hr | exact Hv].
Qed.

(** C2 as stated fails on the sample league: the quarterbacks labelled 'BU'
    are below zero, and the worst running back with a tier sits at 15/4. *)
Lemma sample_minimum_vols_is_not_zero :
  startup_table sample_league sample_pool = Return sample_table
  /\ ~ min_vols_is 0 (non_fa_at "QB" sample_table)
  /\ ~ min_vols_is 0 (non_fa_at "RB" sample_table)
  /\ min_vols_is (15 # 4) (non_fa_at "RB" sample_table).
Proof.
  split; [exact sample_table_runs|].
  repeat split.
  - intros H. apply min_vols_isb_spec in H. vm_compute in H. discriminate H.
  - intros H. apply min_vols_isb_spec in H. vm_compute in H. discriminate H.
  - apply min_vols_isb_spec. vm_compute. reflexivity.
  - apply min_vols_isb_spec. vm_compute. reflexivity.
Qed.

(** C2, amended.  When the start-up pipeline completes, the minimum [vols]
    among the players of QB, K or DST that carry a starter label is exactly 0
    (when the position has such a player), and no RB, WR or TE with a starter
    or FLEX label is below 0. *)
Theorem rebaselined_starters_are_not_below_zero :
  forall (lg : league) (players : list player_info) (df : frame),
    startup_table lg players = Return df ->
    (forall p, In p ["QB"; "K"; "DST"]%string ->
       starters_at p df <> [] -> min_vols_is 0 (starters_at p df))
    /\ (forall p r, In p flex_pos -> In r (starters_at p df) ->
          exists v, vols r = Some v /\ 0 <= v).
Proof.
  intros lg players df H. unfold startup_table in H.
  apply bind_return in H as [dfv [Hv H]]. injection H as <-.
  destruct (value_table_stages lg players dfv Hv) as [dfl [Hlab Hkeep]].
  assert (Hnf : forall p pre post,
             main_positions = pre ++ p :: post -> ~ In p pre -> ~ In p post ->
             in_list p flex_pos = false ->
             starters_at p (sort_and_reindex dfv) <> [] ->
             min_vols_is 0 (starters_at p (sort_and_reindex dfv))).
  { intros p pre post Hsplit Hpre Hpost Hflex Hne.
    apply (min_vols_is_ext 0 (starters_at p dfv)); [apply starters_at_sorted|].
    apply (nonflex_min_zero p pre post Hsplit Hpre Hpost dfl dfv Hlab Hkeep Hflex).
    intros Hnil. destruct (starters_at p (sort_and_reindex dfv)) as [|s rest] eqn:Hs;
      [contradiction|].
    assert (Hin : In s (starters_at p dfv)).
    { apply starters_at_sorted. rewrite Hs. left. reflexivity. }
    rewrite Hnil in Hin. destruct Hin. }
  assert (Hfx : forall p pre post r,
             main_positions = pre ++ p :: post -> ~ In p pre -> ~ In p post ->
             In r (starters_at p (sort_and_reindex dfv)) ->
             exists v, vols r = Some v /\ 0 <= v).
  { intros p pre post r Hsplit Hpre Hpost Hin. apply (proj1 (starters_at_sorted _ _ _)) in Hin.
    exact (flex_nonneg p pre post Hsplit Hpre Hpost dfl dfv Hlab Hkeep r Hin). }
  split.
  - intros p Hp. simpl in Hp. destruct Hp as [<-|[<-|[<-|[]]]].
    + apply (Hnf "QB"%string [] ["RB"; "WR"; "TE"; "K"; "DST"]%string); try reflexivity;
        simpl; intuition discriminate.
    + apply (Hnf "K"%string ["QB"; "RB"; "WR"; "TE"]%string ["DST"]%string); try reflexivity;
        simpl; intuition discriminate.
    + apply (Hnf "DST"%string ["QB"; "RB"; "WR"; "TE"; "K"]%string []); try reflexivity;
        simpl; intuition discriminate.
  - intros p r Hp. simpl in Hp. destruct Hp as [<-|[<-|[<-|[]]]].
    + apply (Hfx "RB"%string ["QB"]%string ["WR"; "TE"; "K"; "DST"]%string); try reflexivity;
        simpl; intuition discriminate.
    + apply (Hfx "WR"%string ["QB"; "RB"]%string ["TE"; "K"; "DST"]%string); try reflexivity;
        simpl; intuition discriminate.
    + apply (Hfx "TE"%string ["QB"; "RB"; "WR"]%string ["K"; "DST"]%string); try reflexivity;
        simpl; intuition discriminate.
Qed.

Lemma rebaselined_starters_are_not_below_zero_witness :
  startup_table sample_league sample_pool = Return sample_table
  /\ starters_at "QB" sample_table <> []
  /\ min_vols_is 0 (starters_at "QB" sample_table).
Proof.
  split; [exact sample_table_runs|].
  assert (Hne : starters_at "QB" sample_table <> []) by (vm_compute; discriminate).
  split; [exact Hne|].
  apply (proj1 (rebaselined_starters_are_not_below_zero
                  sample_league sample_pool sample_table sample_table_runs) "QB"%string).
  - left. reflexivity.
  - exact Hne.
Defined.

(** ** Pairwise relations between tables *)

Lemma Forall2_compose {A : Type} (R1 R2 R3 : A -> A -> Prop) a b c :
  (forall x y z, R1 x y -> R2 y z -> R3 x z) ->
  Forall2 R1 a b -> Forall2 R2 b c -> Forall2 R3 a c.
Proof.
  intros HR Hab. revert c. induction Hab as [|x y a b Hxy _ IH]; intros c Hbc.
  - inversion Hbc. constructor.
  - inversion Hbc as [|y' z b' c' Hyz Hrest]; subst. constructor; [eapply HR; eassumption|].
    apply IH, Hrest.
Qed.

Lemma Forall2_In_l {A : Type} (R : A -> A -> Prop) a b :
  Forall2 R a b -> Forall2 (fun x y => In x a /\ R x y) a b.
Proof.
  induction 1 as [|x y a b Hxy _ IH]; constructor.
  - split; [left; reflexivity | exact Hxy].
  - eapply List.Forall2_impl; [|exact IH]. intros u v [Hin Huv]. split; [right; exact Hin | exact Huv].
Qed.

Lemma Forall2_labels (R : Z * row -> Z * row -> Prop) (a b : frame) :
  (forall x y : Z * row, R x y -> fst y = fst x) -> Forall2 R a b -> map fst b = map fst a.
Proof.
  intros HR. induction 1 as [|x y a b Hxy _ IH]; simpl; [reflexivity|].
  rewrite IH, (HR x y Hxy). reflexivity.
Qed.

Lemma Forall2_assign (R : Z * row -> Z * row -> Prop) (mask : Z * row -> bool)
    (f : Z * row -> row) (df : frame) :
  (forall r, In r df -> R r (if mask r then (fst r, f r) else r)) ->
  Forall2 R df (assign_where mask f df).
Proof.
  unfold assign_where. induction df as [|r df IH]; intros H; simpl; constructor.
  - apply H. left. reflexivity.
  - apply IH. intros r' Hin. apply H. right. exact Hin.
Qed.

Lemma Forall2_In_r {A : Type} (R : A -> A -> Prop) a b y :
  Forall2 R a b -> In y b -> exists x, In x a /\ R x y.
Proof.
  induction 1 as [|x0 y0 a b Hxy _ IH]; intros Hin; [destruct Hin|].
  destruct Hin as [<-|Hin]; [exists x0; split; [left; reflexivity | exact Hxy]|].
  destruct (IH Hin) as [x [Hx Hr]]. exists x. split; [right; exact Hx | exact Hr].
Qed.

Lemma for_each_invariant_in {S A : Type} (body : S -> A -> outcome S)
    (P : list A -> S -> Prop) items :
  forall done init final,
    P done init ->
    (forall pre x st st', In x items -> P pre st -> body st x = Return st' -> P (pre ++ [x]) st') ->
    for_each body items init = Return final ->
    P (done ++ items) final.
Proof.
  induction items as [|x items IH]; intros done init final Hinit Hstep Hrun.
  - unfold for_each in Hrun. simpl in Hrun. injection Hrun as <-.
    rewrite app_nil_r. exact Hinit.
  - rewrite for_each_cons in Hrun. apply bind_return in Hrun as [st [Hb Hrun]].
    replace (done ++ x :: items) with ((done ++ [x]) ++ items)
      by (rewrite <- app_assoc; reflexivity).
    apply (IH (done ++ [x]) st final); [| |exact Hrun].
    + apply (Hstep done x init st); [left; reflexivity | exact Hinit | exact Hb].
    + intros pre y s s' Hy. apply Hstep. right. exact Hy.
Qed.

(** ** Pricing *)

(** A row whose [auction] is a multiple of its own clipped, injury-scaled
    [volb]. *)
Definition priced (r : row) : Prop :=
  exists m, auction r
            = Some (m * max0 (cell_scale (volb r) (pos_injury_factor (pos (info r))))).

Definition entry_label (e : Z * (Z * row)) : Z := fst (snd e).

Definition loop_rel (p : string) (seen : list (Z * (Z * row))) (x0 x : Z * row) : Prop :=
  fst x = fst x0 /\ info (snd x) = info (snd x0) /\ tier (snd x) = tier (snd x0)
  /\ volb (snd x) = volb (snd x0)
  /\ ((at_pos p x0 = true /\ priced (snd x))
      \/ (auction (snd x) = auction (snd x0) /\ ~ In (fst x0) (map entry_label seen))).

Lemma rank_auction_loop p req (df2 : frame) entries final :
  List.NoDup (map fst df2) ->
  (forall e, In e entries -> In (snd e) df2 /\ at_pos p (snd e) = true) ->
  for_each (rank_auction_step p req) entries df2 = Return final ->
  Forall2 (loop_rel p entries) df2 final.
Proof.
  intros Hnd Hent Hrun.
  apply (for_each_invariant_in (rank_auction_step p req)
           (fun seen d => Forall2 (loop_rel p seen) df2 d) entries [] df2 final).
  - clear. induction df2 as [|x df2 IH]; constructor; [|exact IH].
    unfold loop_rel. repeat split. right. split; [reflexivity | intros []].
  - intros pre e st st' He Hst Hb. unfold rank_auction_step in Hb.
    apply bind_return in Hb as [mult [_ Hb]]. injection Hb as <-.
    destruct (Hent e He) as [Hin Hat].
    match goal with |- Forall2 _ _ (assign_where ?mask ?f _) =>
      apply (Forall2_compose (fun x0 x => In x0 df2 /\ loop_rel p pre x0 x)
               (fun x z => z = if mask x then (fst x, f x) else x) _ df2 st _);
      [| exact (Forall2_In_l _ _ _ Hst) | apply Forall2_assign; intros r _; reflexivity]
    end.
    intros x0 x z [Hx0 (Hl & Hi & Ht & Hvb & Hcase)] Hz. subst z. cbv beta.
    destruct (fst x =? fst (snd e))%Z eqn:Hlab.
    + apply Z.eqb_eq in Hlab. unfold loop_rel. simpl. repeat split; try assumption.
      left. assert (Hsame : snd x0 = snd (snd e)).
      { destruct x0 as [i0 r0], (snd e) as [ie re] eqn:Ee. simpl in Hl, Hlab. simpl.
        assert (Hie : ie = i0) by congruence. rewrite Hie in Hin.
        exact (NoDup_labels_eq df2 i0 r0 re Hnd Hx0 Hin). }
      assert (Hat0 : at_pos p x0 = true).
      { unfold at_pos, rpos in *. rewrite Hsame. exact Hat. }
      split; [exact Hat0|]. exists mult. simpl. rewrite Hi, Hvb, Hsame.
      apply at_pos_true in Hat. unfold rpos in Hat. rewrite Hat. reflexivity.
    + apply Z.eqb_neq in Hlab. unfold loop_rel. repeat split; try assumption.
      destruct Hcase as [Hc|[Ha Hnot]]; [left; exact Hc | right].
      split; [exact Ha|]. rewrite map_app. intros Hin'. apply in_app_or in Hin' as [Hin'|[Hin'|[]]].
      * apply Hnot, Hin'.
      * apply Hlab. unfold entry_label in Hin'. congruence.
  - exact Hrun.
Qed.

Lemma enumerate_In_snd {A : Type} (l : list A) e : In e (enumerate l) -> In (snd e) l.
Proof. destruct e as [i x]. unfold enumerate. apply in_combine_r. Qed.

Lemma enumerate_In {A : Type} (l : list A) x : In x l -> exists i, In (i, x) (enumerate l).
Proof.
  intros H. rewrite <- (enumerate_values l) in H. apply in_map_iff in H as [[i y] [Hy Hin]].
  simpl in Hy. subst y. exists i. exact Hin.
Qed.

Definition value_rel (p : string) (x0 x : Z * row) : Prop :=
  fst x = fst x0 /\ info (snd x) = info (snd x0) /\ tier (snd x) = tier (snd x0)
  /\ (if at_pos p x0 then priced (snd x)
      else volb (snd x) = volb (snd x0) /\ auction (snd x) = auction (snd x0)).

Lemma value_pos_priced tb ts sr bm df p df' :
  List.NoDup (map fst df) ->
  value_pos tb ts sr bm df p = Return df' ->
  Forall2 (value_rel p) df df'.
Proof.
  intros Hnd. unfold value_pos. destruct (sr - ts =? 0)%Z; [discriminate|]. intros H.
  match type of H with
    for_each _ (enumerate (sort_values _ _ (List.filter _ ?d2))) ?d2' = _ =>
      set (df2 := d2) in *
  end.
  assert (H12 : Forall2 (fun x0 x2 => fst x2 = fst x0 /\ info (snd x2) = info (snd x0)
                           /\ tier (snd x2) = tier (snd x0)
                           /\ auction (snd x2) = auction (snd x0)
                           /\ (at_pos p x0 = false -> volb (snd x2) = volb (snd x0))) df df2).
  { unfold df2.
    match goal with |- Forall2 ?R _ (assign_where _ _ ?mid) =>
      apply (Forall2_compose R R R df mid _)
    end.
    - intros x y z (H1 & H2 & H3 & H4 & H5) (H1' & H2' & H3' & H4' & H5').
      repeat split; try congruence. intros Hat. rewrite H5', H5; try reflexivity; try exact Hat.
      unfold at_pos, rpos in *. rewrite H2. exact Hat.
    - apply Forall2_assign. intros r _. destruct (at_pos p r); simpl; repeat split; discriminate.
    - apply Forall2_assign. intros r _. destruct (at_pos p r) eqn:E; simpl; repeat split.
      intros Hf. discriminate Hf. }
  assert (Hnd2 : List.NoDup (map fst df2)).
  { rewrite (Forall2_labels _ _ _ (fun x y Hxy => proj1 Hxy) H12). exact Hnd. }
  pose proof (rank_auction_loop p _ df2 _ df' Hnd2
                (fun e He => proj1 (filter_In _ _ _)
                   (proj1 (sort_values_In _ _ _ _) (enumerate_In_snd _ e He))) H) as Hloop.
  eapply Forall2_compose; [|exact H12|exact (Forall2_In_l _ _ _ Hloop)].
  intros x0 x2 x (H1 & H2 & H3 & H4 & H5) [Hin2 (L1 & L2 & L3 & L4 & Lcase)].
  unfold value_rel. repeat split; try congruence.
  assert (Hat2 : at_pos p x2 = at_pos p x0) by (unfold at_pos, rpos; rewrite H2; reflexivity).
  destruct (at_pos p x0) eqn:Hat.
  - destruct Lcase as [[_ Hp]|[_ Hnot]]; [exact Hp|]. exfalso. apply Hnot.
    assert (Hs : In x2 (sort_values vols false (List.filter (at_pos p) df2))).
    { apply sort_values_In, filter_In. split; assumption. }
    apply enumerate_In in Hs as [i Hi].
    change (fst x2) with (entry_label (i, x2)). apply in_map, Hi.
  - destruct Lcase as [[Hc _]|[Ha _]]; [congruence|].
    split; [rewrite L4; apply H5; reflexivity | congruence].
Qed.

Definition stage_rel (done : list string) (x0 x : Z * row) : Prop :=
  fst x = fst x0 /\ info (snd x) = info (snd x0) /\ tier (snd x) = tier (snd x0)
  /\ (In (rpos x0) done -> priced (snd x)).

Lemma priced_ext r r' :
  info r' = info r -> volb r' = volb r -> auction r' = auction r -> priced r -> priced r'.
Proof. unfold priced. intros -> -> -> H. exact H. Qed.

Lemma value_stage_priced tb ts sr bm dfr dfa :
  List.NoDup (map fst dfr) ->
  for_each (value_pos tb ts sr bm) main_positions dfr = Return dfa ->
  Forall2 (stage_rel main_positions) dfr dfa.
Proof.
  intros Hnd Hrun.
  apply (for_each_invariant (value_pos tb ts sr bm)
           (fun done d => Forall2 (stage_rel done) dfr d) main_positions [] dfr dfa).
  - clear. induction dfr as [|x dfr IH]; constructor; [|exact IH].
    unfold stage_rel. repeat split. intros [].
  - intros pre p st st' Hst Hb.
    assert (Hnd' : List.NoDup (map fst st)).
    { rewrite (Forall2_labels _ _ _ (fun x y Hxy => proj1 Hxy) Hst). exact Hnd. }
    eapply Forall2_compose; [|exact Hst|exact (value_pos_priced _ _ _ _ _ _ _ Hnd' Hb)].
    intros x0 y z (H1 & H2 & H3 & H4) (V1 & V2 & V3 & V4).
    unfold stage_rel. repeat split; try congruence.
    assert (Hat : at_pos p y = at_pos p x0) by (unfold at_pos, rpos; rewrite H2; reflexivity).
    intros Hin. destruct (at_pos p y) eqn:Hy; [exact V4|]. destruct V4 as [Vb Va].
    apply in_app_or in Hin as [Hin|[Hp|[]]].
    + apply (priced_ext (snd y)); try assumption. apply H4, Hin.
    + exfalso. symmetry in Hat. apply String.eqb_neq in Hat. apply Hat. symmetry. exact Hp.
  - exact Hrun.
Qed.

Definition backup_rel (x y : Z * row) : Prop :=
  fst y = fst x /\ info (snd y) = info (snd x) /\ volb (snd y) = volb (snd x)
  /\ auction (snd y) = auction (snd x)
  /\ (tier (snd y) = tier (snd x) \/ tier (snd y) = Some BU)
  /\ (tiered y = false -> volb_nonneg x = false).

Lemma label_backups_rel ts tb df : Forall2 backup_rel df (label_backups ts tb df).
Proof.
  unfold label_backups, set_tier_where.
  match goal with |- Forall2 _ _ (assign_where _ _ ?mid) =>
    apply (Forall2_compose
             (fun x y => fst y = fst x /\ info (snd y) = info (snd x)
                         /\ volb (snd y) = volb (snd x) /\ auction (snd y) = auction (snd x)
                         /\ (tier (snd y) = tier (snd x) \/ tier (snd y) = Some BU)
                         /\ (tiered y = false -> volb_nonneg x = false))
             (fun x y => fst y = fst x /\ info (snd y) = info (snd x)
                         /\ volb (snd y) = volb (snd x) /\ auction (snd y) = auction (snd x)
                         /\ (tier (snd y) = tier (snd x) \/ tier (snd y) = Some BU)
                         /\ (tiered y = false -> y = x))
             backup_rel df mid _)
  end.
  - intros x y z (H1 & H2 & H3 & H4 & H5 & H6) (K1 & K2 & K3 & K4 & K5 & K6).
    unfold backup_rel. repeat split; try congruence.
    + destruct K5 as [K5|K5]; [rewrite K5; exact H5 | right; exact K5].
    + intros Hz. specialize (K6 Hz). subst z. apply H6, Hz.
  - apply Forall2_assign. intros r _.
    destruct (negb (tiered r) && volb_nonneg r) eqn:Hm; simpl; repeat split; auto.
    + intros Hf. discriminate Hf.
    + intros Ht. rewrite Ht in Hm. simpl in Hm. exact Hm.
  - apply Forall2_assign. intros r _.
    match goal with |- context [if ?c then _ else _] => destruct c end; simpl; repeat split; auto.
    intros Hf. discriminate Hf.
Qed.

Lemma pos_injury_factor_pos p : 0 < pos_injury_factor p.
Proof.
  unfold pos_injury_factor.
  repeat match goal with |- context [if ?c then _ else _] => destruct c end; reflexivity.
Qed.

Lemma max0_negative v c :
  match v with Some a => Qle_bool 0 a | None => false end = false ->
  0 < c -> max0 (cell_scale v c) = 0.
Proof.
  intros Hv Hc. destruct v as [a|]; simpl; [|reflexivity].
  assert (Ha : a < 0).
  { apply Qnot_le_lt. intros Hle. apply Qle_bool_iff in Hle. congruence. }
  unfold Qlt_bool. assert (Hle : Qle_bool (a * c) 0 = true).
  { apply Qle_bool_iff. nra. }
  rewrite Hle. reflexivity.
Qed.

(** What holds of every row when the backups have been labelled. *)
Definition settled (x : Z * row) : Prop :=
  (exists a, auction (snd x) = Some a /\ (tiered x = false -> a == 0))
  /\ tier (snd x) <> Some FA.

Lemma initial_frame_info players x :
  In x (initial_frame players) -> In (info (snd x)) players.
Proof.
  intros H. apply (in_map snd) in H. unfold initial_frame in H.
  rewrite enumerate_values in H. apply in_map_iff in H as [i [<- Hi]]. exact Hi.
Qed.

Lemma backups_table_settled lg players dfu :
  Forall (fun i => In (pos i) main_positions) players ->
  backups_table lg players = Return dfu ->
  Forall settled dfu.
Proof.
  intros Hpos Hu. unfold backups_table in Hu.
  apply bind_return in Hu as [bl [_ Hu]].
  apply bind_return in Hu as [dfv [Hv Hu]].
  apply bind_return in Hu as [dfa [Ha Hu]].
  injection Hu as <-.
  set (dfl := label_starters lg dfv) in *.
  assert (Hnd : List.NoDup (map fst (rebaseline dfl))).
  { rewrite (related_labels _ _ _ (rebaseline_same_player dfl)). unfold dfl.
    rewrite (related_labels _ _ _ (label_starters_more lg dfv)).
    rewrite (related_labels _ _ _ (vols_stage _ _ _ Hv)).
    apply enumerate_NoDup. }
  pose proof (value_stage_priced _ _ _ _ _ _ Hnd Ha) as Hstage.
  apply List.Forall_forall. intros y Hy.
  destruct (Forall2_In_r _ _ _ _ (label_backups_rel _ _ dfa) Hy)
    as [x [Hx (B1 & B2 & B3 & B4 & B5 & B6)]].
  destruct (Forall2_In_r _ _ _ _ Hstage Hx) as [xr [Hxr (S1 & S2 & S3 & S4)]].
  destruct (related_In_r _ _ _ _ (rebaseline_same_player dfl) Hxr)
    as [xl [Hxl [_ (R1 & R2)]]].
  destruct (related_In_r _ _ _ _ (label_starters_more lg dfv) Hxl)
    as [xv [Hxv [_ (L1 & _ & _)]]].
  destruct (related_In_r _ _ _ _ (vols_stage _ _ _ Hv) Hxv)
    as [x0 [Hx0 [_ (V1 & _ & _)]]].
  assert (Hmain : In (rpos xr) main_positions).
  { unfold rpos. rewrite R1, L1, V1. rewrite List.Forall_forall in Hpos.
    apply Hpos, initial_frame_info, Hx0. }
  split.
  - destruct (S4 Hmain) as [m Hm]. eexists. split; [rewrite B4; exact Hm|].
    intros Hun. rewrite max0_negative; [ring| |apply pos_injury_factor_pos].
    specialize (B6 Hun). unfold volb_nonneg in B6. exact B6.
  - assert (Hlab : labelled_row (snd xl)).
    { eapply labelled_after_starters; [exact Hv | exact Hxl]. }
    destruct Hlab as [_ Hlab].
    assert (Hx_tier : tier (snd x) <> Some FA).
    { rewrite S3, R2. destruct Hlab as [Hn|Hs]; [rewrite Hn; discriminate|].
      unfold starter_tier in Hs. intros Hfa. rewrite Hfa in Hs. discriminate Hs. }
    destruct B5 as [B5|B5]; rewrite B5; [exact Hx_tier | discriminate].
Qed.

(** The players the claim sums over, and their auction total. *)
Definition tiered_players (df : frame) : list row := List.filter non_fa (map snd df).
Definition auction_total (rows : list row) : Q := col_sum (map auction rows).

Lemma col_sum_perm l l' : Permutation l l' -> col_sum l == col_sum l'.
Proof.
  induction 1 as [|c l l' _ IH|c d l|l1 l2 l3 _ IH1 _ IH2]; simpl.
  - reflexivity.
  - destruct c; rewrite IH; reflexivity.
  - destruct c, d; ring.
  - rewrite IH1. exact IH2.
Qed.

Lemma filter_perm {A : Type} (f : A -> bool) l l' :
  Permutation l l' -> Permutation (List.filter f l) (List.filter f l').
Proof.
  induction 1 as [|c l l' _ IH|c d l|l1 l2 l3 _ IH1 _ IH2]; simpl.
  - reflexivity.
  - destruct (f c); [apply perm_skip|]; exact IH.
  - destruct (f c), (f d); try reflexivity. apply perm_swap.
  - eapply perm_trans; eassumption.
Qed.

Lemma tiered_players_sorted df :
  Permutation (tiered_players (sort_and_reindex df)) (tiered_players df).
Proof. unfold tiered_players. apply filter_perm, sort_and_reindex_rows. Qed.

Definition finish (c : Q) (df : frame) : frame :=
  label_free_agents
    (assign_where tiered
       (fun r => set_auction (match auction (snd r) with
                              | Some a => Some (a + inject_Z minbid)
                              | None => None
                              end) (snd r))
       (assign_where (fun _ => true)
          (fun r => set_auction (cell_scale (auction (snd r)) c) (snd r)) df)).

Definition finish_one (c : Q) (x : Z * row) : Z * row :=
  let x1 := (fst x, set_auction (cell_scale (auction (snd x)) c) (snd x)) in
  let x2 := if tiered x1
            then (fst x1, set_auction (match auction (snd x1) with
                                       | Some a => Some (a + inject_Z minbid)
                                       | None => None
                                       end) (snd x1))
            else x1 in
  if negb (tiered x2) then (fst x2, set_tier (Some FA) (snd x2)) else x2.

Lemma finish_cons c x df : finish c (x :: df) = finish_one c x :: finish c df.
Proof. reflexivity. Qed.

Lemma finish_one_tiered c x a :
  auction (snd x) = Some a -> tier (snd x) <> Some FA -> tiered x = true ->
  non_fa (snd (finish_one c x)) = true
  /\ auction (snd (finish_one c x)) = Some (a * c + inject_Z minbid).
Proof.
  intros Ha Hfa Ht. unfold finish_one, tiered, non_fa in *. simpl.
  destruct (tier (snd x)) as [t|] eqn:E; [|discriminate Ht]. simpl. rewrite E, Ha. simpl.
  split; [|reflexivity]. rewrite E. destruct t; try reflexivity. exfalso. apply Hfa. reflexivity.
Qed.

Lemma finish_one_untiered c x : tiered x = false -> non_fa (snd (finish_one c x)) = false.
Proof.
  intros Ht. unfold finish_one, tiered, non_fa in *. simpl.
  destruct (tier (snd x)) as [t|] eqn:E; [discriminate Ht|]. simpl. rewrite E. reflexivity.
Qed.

Lemma finish_sum c dfu :
  Forall settled dfu ->
  auction_total (tiered_players (finish c dfu))
  == c * total_auction_pts dfu + inject_Z (Z.of_nat (length (tiered_players (finish c dfu)))).
Proof.
  unfold auction_total, tiered_players, total_auction_pts.
  induction 1 as [|x dfu [[a [Ha Hzero]] Hfa] _ IH]; [simpl; ring|].
  rewrite finish_cons. cbn [map List.filter]. rewrite Ha. cbn [col_sum fold_right].
  fold (col_sum (map (fun r => auction (snd r)) dfu)).
  destruct (tiered x) eqn:Ht.
  - destruct (finish_one_tiered c x a Ha Hfa Ht) as [Hn Hv]. rewrite Hn.
    cbn [map length]. rewrite Hv. cbn [col_sum fold_right].
    fold (col_sum (map auction (List.filter non_fa (map snd (finish c dfu))))).
    rewrite IH, Nat2Z.inj_succ, <- Z.add_1_r, inject_Z_plus. unfold minbid.
    change (inject_Z 1) with 1. ring.
  - rewrite (finish_one_untiered c x Ht). rewrite IH, (Hzero eq_refl). ring.
Qed.

Lemma rescale_finish lg dfu :
  label_free_agents (rescale_auction lg dfu)
  = finish (inject_Z (avail_cap lg) / total_auction_pts dfu) dfu.
Proof. reflexivity. Qed.

(** C3 as stated fails on the sample league: the tiered players' auction
    values add up to the league cap 2 * 200 = 400, not to 400 - 16 = 384. *)
Lemma sample_auction_total_is_league_cap :
  startup_table sample_league sample_pool = Return sample_table
  /\ auction_total (tiered_players sample_table) == 400
  /\ inject_Z (n_teams sample_league * 200 - 1 * total_roster_slots sample_league) == 384
  /\ ~ Qabs (auction_total (tiered_players sample_table)
             - inject_Z (n_teams sample_league * 200 - 1 * total_roster_slots sample_league))
       <= 1 # 2.
Proof.
  split; [exact sample_table_runs|].
  assert (H400 : auction_total (tiered_players sample_table) == 400).
  { apply Qeq_bool_eq. vm_compute. reflexivity. }
  assert (H384 : inject_Z (n_teams sample_league * 200 - 1 * total_roster_slots sample_league)
                 == 384) by reflexivity.
  repeat split; try assumption.
  rewrite H400, H384. intros H. vm_compute in H. apply H. reflexivity.
Qed.

(** Over exact rationals the rescaled auction values of the tiered players
    add up to the target with no error at all. *)
Lemma tiered_auction_exact_total :
  forall (lg : league) (players : list player_info) (dfu : frame),
    Forall (fun i => In (pos i) main_positions) players ->
    backups_table lg players = Return dfu ->
    ~ total_auction_pts dfu == 0 ->
    exists df,
      startup_table lg players = Return df
      /\ auction_total (tiered_players df)
         == inject_Z (n_teams lg * 200 - 1 * total_roster_slots lg)
            + inject_Z (Z.of_nat (length (tiered_players df)))
      /\ (Z.of_nat (length (tiered_players df)) = total_roster_slots lg ->
          auction_total (tiered_players df) == inject_Z (n_teams lg * 200)).
Proof.
  intros lg players dfu Hpos Hu Htot.
  exists (sort_and_reindex (label_free_agents (rescale_auction lg dfu))).
  assert (Hrun : startup_table lg players
                 = Return (sort_and_reindex (label_free_agents (rescale_auction lg dfu)))).
  { unfold startup_table, value_table. rewrite Hu. reflexivity. }
  assert (Hsum : auction_total (tiered_players
                    (sort_and_reindex (label_free_agents (rescale_auction lg dfu))))
                 == inject_Z (n_teams lg * 200 - 1 * total_roster_slots lg)
                    + inject_Z (Z.of_nat (length (tiered_players
                        (sort_and_reindex (label_free_agents (rescale_auction lg dfu))))))).
  { pose proof (tiered_players_sorted (label_free_agents (rescale_auction lg dfu))) as Hperm.
    rewrite (Permutation_length Hperm). unfold auction_total.
    rewrite (col_sum_perm _ _ (Permutation_map auction Hperm)).
    fold (auction_total (tiered_players (label_free_agents (rescale_auction lg dfu)))).
    rewrite rescale_finish, (finish_sum _ dfu (backups_table_settled lg players dfu Hpos Hu)).
    apply Qplus_inj_r. unfold avail_cap, league_cap, cap, minbid. field. exact Htot. }
  split; [exact Hrun|]. split; [exact Hsum|].
  intros Hcount. rewrite Hsum, Hcount, <- inject_Z_plus. apply inject_Z_injective. lia.
Qed.

Definition sample_backups : frame :=
  match backups_table sample_league sample_pool with
  | Return df => df
  | Raise _ => []
  end.

Lemma sample_backups_runs : backups_table sample_league sample_pool = Return sample_backups.
Proof. vm_compute. reflexivity. Qed.

(** C3, amended.  If every player's position is one of the six and the
    unscaled auction points do not add up to zero, the pipeline completes and
    the auction values of the tiered (non-'FA') players add up, within a
    tolerance of 0.5, to n_teams*200 - total_rostered_slots + the number of
    tiered players: to the league cap n_teams*200 when as many players are
    tiered as there are roster slots. *)
Theorem tiered_auction_total :
  forall (lg : league) (players : list player_info) (dfu : frame),
    Forall (fun i => In (pos i) main_positions) players ->
    backups_table lg players = Return dfu ->
    ~ total_auction_pts dfu == 0 ->
    exists df,
      startup_table lg players = Return df
      /\ Qabs (auction_total (tiered_players df)
               - (inject_Z (n_teams lg * 200 - 1 * total_roster_slots lg)
                  + inject_Z (Z.of_nat (length (tiered_players df)))))
         < 1 # 2
      /\ (Z.of_nat (length (tiered_players df)) = total_roster_slots lg ->
          Qabs (auction_total (tiered_players df) - inject_Z (n_teams lg * 200)) < 1 # 2).
Proof.
  intros lg players dfu Hpos Hu Htot.
  destruct (tiered_auction_exact_total lg players dfu Hpos Hu Htot) as (df & Hrun & Hsum & Hcap).
  exists df. split; [exact Hrun|]. split.
  - rewrite Hsum.
    assert (E : forall x : Q, x - x == 0) by (intros x; ring).
    rewrite E. reflexivity.
  - intros Hcount. rewrite (Hcap Hcount).
    assert (E : forall x : Q, x - x == 0) by (intros x; ring).
    rewrite E. reflexivity.
Qed.

Lemma tiered_auction_total_witness :
  Forall (fun i => In (pos i) main_positions) sample_pool
  /\ ~ total_auction_pts sample_backups == 0
  /\ exists df,
       startup_table sample_league sample_pool = Return df
       /\ Qabs (auction_total (tiered_players df)
                - (inject_Z (n_teams sample_league * 200
                             - 1 * total_roster_slots sample_league)
                   + inject_Z (Z.of_nat (length (tiered_players df)))))
          < 1 # 2
       /\ (Z.of_nat (length (tiered_players df)) = total_roster_slots sample_league ->
           Qabs (auction_total (tiered_players df) - inject_Z (n_teams sample_league * 200))
           < 1 # 2).
Proof.
  assert (Hpos : Forall (fun i => In (pos i) main_positions) sample_pool).
  { apply List.Forall_forall. intros i Hi. vm_compute in Hi.
    repeat (destruct Hi as [Hi|Hi]; [subst i; vm_compute; tauto|]). destruct Hi. }
  assert (Htot : ~ total_auction_pts sample_backups == 0).
  { intros H. apply Qeq_bool_iff in H. vm_compute in H. discriminate. }
  split; [exact Hpos|]. split; [exact Htot|].
  exact (tiered_auction_total sample_league sample_pool sample_backups
           Hpos sample_backups_runs Htot).
Defined.

End DraftFacts.

(** ** draft_app.py: facts about the shell commands *)
Module ShellFacts.
Import Draft Shell DraftFacts.

Lemma pick_rec_plain_position n_roster mgr strat avail picked disabled avail' i :
  strat <> Vorp ->
  _pick_rec n_roster mgr strat avail picked disabled = (avail', Return i) ->
  avail' = avail
  /\ exists r, In (i, r) avail
       /\ (In (pos (info r)) key_positions
           \/ (In (pos (info r)) (acceptable_positions n_roster (_get_manager_roster mgr picked))
               /\ ~ In (pos (info r)) disabled)).
Proof.
  intros Hstrat. unfold _pick_rec.
  set (acc := List.filter (fun p => negb (in_list p disabled))
                (acceptable_positions n_roster (_get_manager_roster mgr picked))).
  assert (Hup : (match strat with Vorp => _update_vorp n_roster avail picked | _ => Return avail end)
                = Return avail) by (destruct strat; try reflexivity; contradiction).
  rewrite Hup.
  set (acc' := match acc with [] => key_positions | _ :: _ => acc end).
  destruct (sort_values (strat_column strat) (strat_ascending strat)
              (List.filter (fun r => in_list (rpos r) acc') avail)) as [|top rest] eqn:Hsort;
    intros H; [discriminate H|]. injection H as Hav Hi. subst avail' i.
  split; [reflexivity|].
  assert (Hin : In top (List.filter (fun r => in_list (rpos r) acc') avail)).
  { apply (sort_values_In (strat_column strat) (strat_ascending strat)).
    rewrite Hsort. left. reflexivity. }
  apply filter_In in Hin as [Hin Hpos]. apply in_list_In in Hpos.
  destruct top as [i r]. exists r. split; [exact Hin|]. unfold rpos in Hpos. simpl in *.
  subst acc'. destruct acc as [|a acc0] eqn:Hacc; [left; exact Hpos|].
  right. rewrite <- Hacc in Hpos. subst acc. apply filter_In in Hpos as [Hp Hd].
  split; [exact Hp|]. intros Hdis. apply in_list_In in Hdis. rewrite Hdis in Hd. discriminate.
Qed.

Lemma pick_rec_plain_outcome n_roster mgr strat avail picked disabled :
  strat <> Vorp ->
  (exists i, _pick_rec n_roster mgr strat avail picked disabled = (avail, Return i))
  \/ (exists msg, _pick_rec n_roster mgr strat avail picked disabled = (avail, Raise (IndexError msg))).
Proof.
  intros Hstrat. unfold _pick_rec.
  assert (Hup : (match strat with Vorp => _update_vorp n_roster avail picked | _ => Return avail end)
                = Return avail) by (destruct strat; try reflexivity; contradiction).
  rewrite Hup.
  match goal with |- context [match ?s with [] => _ | _ :: _ => _ end] =>
    destruct s as [|top rest] end.
  - right. eexists. reflexivity.
  - left. eexists. reflexivity.
Qed.

(** A small board: two QBs, a RB, a kicker with the best [vols], a defence. *)
Definition board_row (name p : string) (v : Q) (t : tier_label) : row :=
  set_tier (Some t) (set_vols (Some v)
    (new_row {| player := name; team := "T"; pos := p; adp := None; ecp := None;
                exp_proj := 100 + v; g := 15 |})).

Definition board : frame :=
  [ (0, board_row "K A" "K" 50 (Starter "K" 1)); (1, board_row "QB A" "QB" 30 (Starter "QB" 1));
    (2, board_row "DST A" "DST" 40 (Starter "DST" 1)); (3, board_row "RB A" "RB" 35 (Starter "RB" 1));
    (4, board_row "QB B" "QB" 10 BU); (5, board_row "WR A" "WR" 20 (Starter "WR" 1)) ]%Z.

(** C7.  With K and DST among the disabled positions, a 'vols'
    recommendation that is returned names an available player whose position
    is neither K nor DST (the only such player when index labels are unique),
    whatever the two tables hold; the call otherwise ends in [IndexError]. *)
Theorem vols_recommendation_avoids_disabled_kickers :
  forall (n_roster : list (string * Z)) (mgr : option Z) (avail picked : frame)
         (disabled : list string),
    In "K"%string disabled -> In "DST"%string disabled ->
    (forall avail' i,
       _pick_rec n_roster mgr Vols avail picked disabled = (avail', Return i) ->
       exists r, In (i, r) avail
                 /\ pos (info r) <> "K"%string /\ pos (info r) <> "DST"%string
                 /\ (List.NoDup (labels avail) -> forall r', In (i, r') avail -> r' = r))
    /\ ((exists i, _pick_rec n_roster mgr Vols avail picked disabled = (avail, Return i))
        \/ (exists msg, _pick_rec n_roster mgr Vols avail picked disabled
                        = (avail, Raise (IndexError msg)))).
Proof.
  intros n_roster mgr avail picked disabled HK HD. split.
  - intros avail' i H.
    destruct (pick_rec_plain_position n_roster mgr Vols avail picked disabled avail' i
                ltac:(discriminate) H) as [_ [r [Hin Hpos]]].
    exists r. split; [exact Hin|].
    assert (Hk : pos (info r) <> "K"%string /\ pos (info r) <> "DST"%string).
    { destruct Hpos as [Hkey|[_ Hnot]].
      - simpl in Hkey. split; intros E; rewrite E in Hkey; intuition discriminate.
      - split; intros E; apply Hnot; rewrite E; assumption. }
    destruct Hk as [Hk1 Hk2]. repeat split; try assumption.
    intros Hnd r' Hin'. exact (NoDup_labels_eq avail i r' r Hnd Hin' Hin).
  - apply pick_rec_plain_outcome. discriminate.
Qed.

Lemma vols_recommendation_avoids_disabled_kickers_witness :
  In "K"%string ["K"; "DST"]%string /\ In "DST"%string ["K"; "DST"]%string
  /\ _pick_rec (n_roster_per_team sample_league) None Vols board [] ["K"; "DST"]%string
     = (board, Return 3%Z)
  /\ exists r, In (3%Z, r) board
               /\ pos (info r) <> "K"%string /\ pos (info r) <> "DST"%string
               /\ (List.NoDup (labels board) -> forall r', In (3%Z, r') board -> r' = r).
Proof.
  assert (HK : In "K"%string ["K"; "DST"]%string) by (left; reflexivity).
  assert (HD : In "DST"%string ["K"; "DST"]%string) by (right; left; reflexivity).
  assert (Hrun : _pick_rec (n_roster_per_team sample_league) None Vols board []
                   ["K"; "DST"]%string = (board, Return 3%Z)) by reflexivity.
  repeat split; try assumption.
  exact (proj1 (vols_recommendation_avoids_disabled_kickers
                  (n_roster_per_team sample_league) None board []
                  ["K"; "DST"]%string HK HD) board 3%Z Hrun).
Defined.

(** A row without its 'vorp' cell. *)
Definition erase_vorp (x : Z * row) : Z * row := (fst x, set_vorp None (snd x)).

Lemma frac_index k m n :
  (0 <= k)%Z -> (0 < m)%Z -> (0 < n)%Z ->
  (0 <= py_int (inject_Z k * 1.0 / inject_Z (k + m) * inject_Z n) < n)%Z.
Proof.
  intros Hk Hm Hn.
  set (d := inject_Z (k + m)). set (q := inject_Z k * 1.0 / d).
  assert (Hd : 0 < d).
  { unfold d. change 0 with (inject_Z 0). rewrite <- Zlt_Qlt. lia. }
  assert (Hk' : 0 <= inject_Z k).
  { change 0 with (inject_Z 0). rewrite <- Zle_Qle. exact Hk. }
  assert (Hn' : 0 < inject_Z n).
  { change 0 with (inject_Z 0). rewrite <- Zlt_Qlt. exact Hn. }
  assert (Hkd : inject_Z k < d).
  { unfold d. rewrite <- Zlt_Qlt. lia. }
  assert (Hqd : q * d == inject_Z k).
  { unfold q. field. intros E. rewrite E in Hd. revert Hd. apply Qlt_irrefl. }
  assert (Hq0 : 0 <= q).
  { unfold q. apply Qle_shift_div_l; [exact Hd|]. rewrite Qmult_0_l.
    assert (E : inject_Z k * 1.0 == inject_Z k) by ring. rewrite E. exact Hk'. }
  assert (Hq1 : q < 1).
  { unfold q. apply Qlt_shift_div_r; [exact Hd|].
    assert (E : inject_Z k * 1.0 == inject_Z k) by ring. rewrite E.
    rewrite Qmult_1_l. exact Hkd. }
  assert (Hx0 : 0 <= q * inject_Z n) by (apply Qmult_le_0_compat; [exact Hq0 | apply Qlt_le_weak, Hn']).
  assert (Hx1 : q * inject_Z n < inject_Z n) by nra.
  unfold py_int. apply Qle_bool_iff in Hx0 as Hb. rewrite Hb. split.
  - change 0%Z with (Qfloor 0). apply Qfloor_resp_le, Hx0.
  - rewrite Zlt_Qlt. eapply Qle_lt_trans; [apply Qfloor_le | exact Hx1].
Qed.

Lemma assign_vorp_erase mask (v : Z * row -> option Q) df :
  map erase_vorp (assign_where mask (fun r => set_vorp (v r) (snd r)) df) = map erase_vorp df.
Proof.
  unfold assign_where. rewrite map_map. apply map_ext. intros r.
  destruct (mask r); reflexivity.
Qed.

Lemma py_index_some {A : Type} (l : list A) i :
  (0 <= i < Z.of_nat (length l))%Z -> exists x, py_index l i = Some x.
Proof.
  intros [H0 H1]. unfold py_index.
  destruct (i <? 0)%Z eqn:E; [apply Z.ltb_lt in E; lia|].
  destruct (nth_error l (Z.to_nat i)) as [x|] eqn:Hn; [exists x; reflexivity|].
  apply nth_error_None in Hn. lia.
Qed.

Lemma update_vorp_pos_returns picked avail p :
  exists avail', update_vorp_pos picked avail p = Return avail'
                 /\ map erase_vorp avail' = map erase_vorp avail.
Proof.
  unfold update_vorp_pos. cbv zeta.
  set (n_pos_picked := Z.of_nat (length (List.filter (at_pos p) picked))).
  match goal with |- context [(?d <=? 0)%Z] => set (n_pos_draftable := d) end.
  destruct (n_pos_draftable <=? 0)%Z eqn:Hd.
  - eexists. split; [reflexivity | apply assign_vorp_erase].
  - apply Z.leb_gt in Hd.
    match goal with |- context [(Z.of_nat (length ?b) =? 0)%Z] => set (pos_baseline := b) end.
    destruct (Z.of_nat (length pos_baseline) =? 0)%Z eqn:Hn.
    + eexists. split; [reflexivity | apply assign_vorp_erase].
    + apply Z.eqb_neq in Hn.
      pose proof (frac_index n_pos_picked n_pos_draftable (Z.of_nat (length pos_baseline))
                    ltac:(unfold n_pos_picked; lia) Hd ltac:(lia)) as [Hi0 Hi1].
      match goal with |- context [(?a <=? ?b)%Z] =>
        destruct (a <=? b)%Z eqn:Hle; [apply Z.leb_le in Hle; lia|]
      end.
      match goal with |- context [py_index ?l ?i] =>
        destruct (py_index_some l i) as [v Hv]
      end.
      { rewrite length_map, sort_values_length. split; assumption. }
      rewrite Hv. eexists. split; [reflexivity | apply assign_vorp_erase].
Qed.

Lemma update_vorp_returns n_roster avail picked :
  exists avail', _update_vorp n_roster avail picked = Return avail'
                 /\ map erase_vorp avail' = map erase_vorp avail.
Proof.
  unfold _update_vorp. generalize (vorp_positions n_roster). intros ps. revert avail.
  induction ps as [|p ps IH]; intros avail.
  - exists avail. split; reflexivity.
  - rewrite for_each_cons.
    destruct (update_vorp_pos_returns picked avail p) as [a1 [H1 E1]]. rewrite H1. simpl.
    destruct (IH a1) as [a2 [H2 E2]]. exists a2. split; [exact H2 | congruence].
Qed.


(** The row a pick writes into the picked table. *)
Definition picked_row (mgr pickno : option Z) (r : row) : row :=
  let r1 := to_picked_columns r in
  let r2 := match mgr with Some m => set_manager (Some m) r1 | None => r1 end in
  match pickno with Some k => set_pick (Some k) r2 | None => r2 end.

Lemma loc_set_fresh i r df : has_label i df = false -> loc_set i r df = df ++ [(i, r)].
Proof. intros H. unfold loc_set. rewrite H. reflexivity. Qed.

Lemma has_label_cons i x df :
  has_label i (x :: df) = (i =? fst x)%Z || has_label i df.
Proof. reflexivity. Qed.

Lemma assign_where_fresh i f df :
  has_label i df = false -> assign_where (fun x => (fst x =? i)%Z) f df = df.
Proof.
  induction df as [|x df IH]; intros H; [reflexivity|].
  rewrite has_label_cons in H. apply orb_false_iff in H as [Hx Hdf].
  unfold assign_where in *. cbn [map]. rewrite (IH Hdf).
  rewrite Z.eqb_sym, Hx. reflexivity.
Qed.

Lemma assign_where_last i f df r :
  has_label i df = false ->
  assign_where (fun x => (fst x =? i)%Z) f (df ++ [(i, r)]) = df ++ [(i, f (i, r))].
Proof.
  intros H. unfold assign_where. rewrite map_app.
  change (map _ df) with (assign_where (fun x => (fst x =? i)%Z) f df).
  rewrite (assign_where_fresh i f df H). cbn [map fst]. rewrite Z.eqb_refl. reflexivity.
Qed.

Lemma astype_int_last (col : row -> option Z) df i r k :
  astype_int col df = Return tt -> col r = Some k ->
  astype_int col (df ++ [(i, r)]) = Return tt.
Proof.
  unfold astype_int. intros H Hr.
  destruct (forallb _ df) eqn:E; [|discriminate].
  rewrite forallb_app, E. cbn. rewrite Hr. reflexivity.
Qed.

Lemma pop_fresh i avail picked mgr pickno r :
  loc i avail = Some r ->
  has_label i picked = false ->
  (mgr <> None -> astype_int Draft.manager picked = Return tt) ->
  (pickno <> None -> astype_int Draft.pick picked = Return tt) ->
  pop_from_player_list i avail picked mgr pickno
  = (drop_label i avail, picked ++ [(i, picked_row mgr pickno r)], Return tt).
Proof.
  intros Hloc Hfresh Hm Hp. unfold pop_from_player_list. rewrite Hloc.
  rewrite (loc_set_fresh _ _ _ Hfresh).
  destruct mgr as [m|]; destruct pickno as [k|]; cbv zeta;
    repeat (rewrite (assign_where_last _ _ _ _ Hfresh); cbn [snd]);
    repeat (erewrite astype_int_last;
            [ | first [apply Hm | apply Hp]; discriminate | reflexivity ]);
    reflexivity.
Qed.

Lemma find_fresh i (df rest : frame) :
  has_label i df = false ->
  find (fun x => (fst x =? i)%Z) (df ++ rest) = find (fun x => (fst x =? i)%Z) rest.
Proof.
  induction df as [|x df IH]; intros H; [reflexivity|].
  rewrite has_label_cons in H. apply orb_false_iff in H as [Hx Hdf].
  cbn [app find]. rewrite Z.eqb_sym, Hx. apply IH, Hdf.
Qed.

Lemma drop_label_fresh i df : has_label i df = false -> drop_label i df = df.
Proof.
  induction df as [|x df IH]; intros H; [reflexivity|].
  rewrite has_label_cons in H. apply orb_false_iff in H as [Hx Hdf].
  unfold drop_label in *. cbn [List.filter]. rewrite Z.eqb_sym, Hx. cbn [negb].
  rewrite (IH Hdf). reflexivity.
Qed.

Lemma has_label_drop i df : has_label i (drop_label i df) = false.
Proof.
  induction df as [|x df IH]; [reflexivity|].
  unfold drop_label in *. cbn [List.filter].
  destruct (fst x =? i)%Z eqn:E; cbn [negb]; [exact IH|].
  rewrite has_label_cons, Z.eqb_sym, E. exact IH.
Qed.

Lemma push_last i avail picked r :
  has_label i picked = false ->
  has_label i avail = false ->
  push_to_player_list i avail (picked ++ [(i, r)])
  = (avail ++ [(i, to_available_columns r)], picked, Return tt).
Proof.
  intros Hp Ha. unfold push_to_player_list, loc.
  rewrite (find_fresh _ _ _ Hp). cbn [find fst]. rewrite Z.eqb_refl. cbn [option_map snd].
  rewrite (loc_set_fresh _ _ _ Ha). unfold drop_label. rewrite List.filter_app.
  change (List.filter _ picked) with (drop_label i picked).
  rewrite (drop_label_fresh _ _ Hp). cbn [List.filter fst]. rewrite Z.eqb_refl. cbn [negb].
  rewrite app_nil_r. reflexivity.
Qed.

Lemma last_label picked i (r : row) :
  List.last (map Some (labels (picked ++ [(i, r)]))) None = Some i.
Proof. unfold labels. rewrite !map_app. cbn [map fst]. apply last_last. Qed.

Lemma erase_vorp_labels a b : map erase_vorp a = map erase_vorp b -> labels a = labels b.
Proof.
  intros H. unfold labels.
  assert (E : forall df, map fst df = map fst (map erase_vorp df)).
  { intros df. rewrite map_map. reflexivity. }
  rewrite (E a), (E b), H. reflexivity.
Qed.

Lemma has_label_erase a b i :
  map erase_vorp a = map erase_vorp b -> has_label i a = has_label i b.
Proof. intros H. unfold has_label. rewrite (erase_vorp_labels a b H). reflexivity. Qed.

Lemma advance_snake_manual depth conf st t next :
  i_manager_turn st = Some t ->
  (t + 1 < Z.of_nat (length (manager_picks st)))%Z ->
  py_index (manager_picks st) (t + 1) = Some next ->
  dict_find next (manager_auto_strats st) = None ->
  _advance_snake depth conf st = (with_turn (Some (t + 1)%Z) st, Return tt).
Proof.
  intros Ht Hlen Hnext Hauto.
  destruct depth; cbn [_advance_snake]; rewrite Ht; cbv zeta;
    cbn [with_turn manager_picks manager_auto_strats];
    (destruct (Z.of_nat (length (manager_picks st)) <=? t + 1)%Z eqn:E;
       [apply Z.leb_le in E; lia|]);
    rewrite Hnext, Hauto; reflexivity.
Qed.

Lemma restored_row r mgr pickno :
  manager r = None -> pick r = None ->
  set_vorp None (to_available_columns (picked_row mgr pickno r)) = set_vorp None r.
Proof.
  intros Hm Hp. destruct r as [inf vl ti vb vo rk au vr mg pk]. cbn in Hm, Hp. subst mg pk.
  destruct mgr, pickno; reflexivity.
Qed.

Lemma drop_label_perm i df r :
  List.NoDup (labels df) -> loc i df = Some r ->
  Permutation (drop_label i df ++ [(i, r)]) df.
Proof.
  induction df as [|x df IH]; intros Hnd Hloc; [discriminate|].
  unfold labels in Hnd. cbn [map] in Hnd. inversion Hnd as [|y l Hnotin Hnd']; subst.
  unfold loc in Hloc. cbn [find] in Hloc. unfold drop_label. cbn [List.filter].
  destruct (fst x =? i)%Z eqn:E.
  - cbn [negb]. cbn [option_map] in Hloc. apply Z.eqb_eq in E.
    injection Hloc as Hr. change (List.filter _ df) with (drop_label i df).
    rewrite drop_label_fresh.
    + destruct x as [j rx]. cbn in E, Hr. subst. rewrite Permutation_app_comm. reflexivity.
    + unfold has_label. apply not_true_is_false. intros Hex.
      apply existsb_exists in Hex as [j [Hj Hij]]. apply Z.eqb_eq in Hij. subst j.
      apply Hnotin. rewrite E. exact Hj.
  - cbn [negb app]. apply perm_skip. apply IH; assumption.
Qed.


(** The pick number [do_pick] records, and the turn it leaves. *)
Definition pickno_of (st : prompt) : option Z :=
  if draft_mode st then option_map (fun t => (t + 1)%Z) (i_manager_turn st) else None.

Lemma do_pick_manual st i conf r mgr :
  loc i (ap st) = Some r ->
  has_label i (pp st) = false ->
  _get_current_manager st = Return mgr ->
  (mgr <> None -> astype_int Draft.manager (pp st) = Return tt) ->
  (draft_mode st = true ->
   exists t next,
     i_manager_turn st = Some t
     /\ astype_int Draft.pick (pp st) = Return tt
     /\ (t + 1 < Z.of_nat (length (manager_picks st)))%Z
     /\ py_index (manager_picks st) (t + 1) = Some next
     /\ dict_find next (manager_auto_strats st) = None) ->
  exists ap2,
    map erase_vorp ap2 = map erase_vorp (drop_label i (ap st))
    /\ do_pick i conf st
       = ((if draft_mode st then with_turn (pickno_of st) else fun s => s)
            (with_tables ap2 (pp st ++ [(i, picked_row mgr (pickno_of st) r)]) st),
          Return tt).
Proof.
  intros Hloc Hfresh Hmgr Hm Hdraft. unfold do_pick, pickno_of. rewrite Hmgr.
  destruct (draft_mode st) eqn:Hd.
  - destruct (Hdraft eq_refl) as (t & next & Ht & Hp & Hlen & Hnext & Hauto).
    rewrite Ht. cbn [option_map].
    rewrite (pop_fresh i (ap st) (pp st) mgr (Some (t + 1)%Z) r Hloc Hfresh Hm (fun _ => Hp)).
    destruct (update_vorp_returns (n_roster st) (drop_label i (ap st))
                (pp st ++ [(i, picked_row mgr (Some (t + 1)%Z) r)])) as [ap2 [H2 E2]].
    rewrite H2. exists ap2. split; [exact E2|].
    cbv zeta.
    rewrite (advance_snake_manual (length (manager_picks st)) conf
               (with_tables ap2 (pp st ++ [(i, picked_row mgr (Some (t + 1)%Z) r)]) st)
               t next Ht Hlen Hnext Hauto).
    reflexivity.
  - rewrite (pop_fresh i (ap st) (pp st) mgr None r Hloc Hfresh Hm
               ltac:(intros H; exfalso; apply H; reflexivity)).
    destruct (update_vorp_returns (n_roster st) (drop_label i (ap st))
                (pp st ++ [(i, picked_row mgr None r)])) as [ap2 [H2 E2]].
    rewrite H2. exists ap2. split; [exact E2 | reflexivity].
Qed.

Lemma do_unpick_last st picked i r' :
  pp st = picked ++ [(i, r')] ->
  has_label i picked = false ->
  has_label i (ap st) = false ->
  (draft_mode st = true -> i_manager_turn st <> None) ->
  exists ap4,
    _update_vorp (n_roster st) (ap st ++ [(i, to_available_columns r')]) picked = Return ap4
    /\ map erase_vorp ap4 = map erase_vorp (ap st ++ [(i, to_available_columns r')])
    /\ do_unpick st
       = ((if draft_mode st
           then with_turn (option_map (fun t => (t - 1)%Z) (i_manager_turn st))
           else fun s => s) (with_tables ap4 picked st), Return tt).
Proof.
  intros Hpp Hp Ha Hturn. unfold do_unpick. rewrite Hpp, last_label.
  rewrite (push_last i (ap st) picked r' Hp Ha).
  destruct (update_vorp_returns (n_roster st) (ap st ++ [(i, to_available_columns r')]) picked)
    as [ap4 [H4 E4]].
  rewrite H4. exists ap4. split; [reflexivity|]. split; [exact E4|].
  destruct (draft_mode st) eqn:Hd; [|reflexivity].
  unfold _regress_snake. cbn [i_manager_turn with_tables].
  destruct (i_manager_turn st) as [t|] eqn:Ht; [reflexivity|].
  exfalso. apply (Hturn eq_refl). reflexivity.
Qed.

(** C6, amended.  Picking an available index and unpicking at once, outside draft
    mode or when the manager who is next in the draft sequence picks by hand:
    both commands return, the picked table and the turn index are as before,
    and so is every other member of the prompt; the available table holds
    the rows it held with every cell other than 'vorp' unchanged, the row
    that was picked now being the last one, and its 'vorp' column is the one
    [_update_vorp] computes from the restored tables. *)
Theorem pick_then_unpick_restores_tables :
  forall (st : prompt) (i : Z) (conf : string) (r : row) (mgr : option Z),
    loc i (ap st) = Some r ->
    has_label i (pp st) = false ->
    manager r = None -> pick r = None ->
    _get_current_manager st = Return mgr ->
    (mgr <> None -> astype_int Draft.manager (pp st) = Return tt) ->
    (draft_mode st = true ->
     exists t next,
       i_manager_turn st = Some t
       /\ astype_int Draft.pick (pp st) = Return tt
       /\ (t + 1 < Z.of_nat (length (manager_picks st)))%Z
       /\ py_index (manager_picks st) (t + 1) = Some next
       /\ dict_find next (manager_auto_strats st) = None) ->
    exists st1 st2 restored,
      do_pick i conf st = (st1, Return tt)
      /\ do_unpick st1 = (st2, Return tt)
      /\ labels (pp st1) = labels (pp st) ++ [i]
      /\ i_manager_turn st1 = (if draft_mode st then pickno_of st else i_manager_turn st)
      /\ pp st2 = pp st
      /\ i_manager_turn st2 = i_manager_turn st
      /\ st2 = with_tables (ap st2) (pp st) st
      /\ map erase_vorp restored = map erase_vorp (drop_label i (ap st) ++ [(i, r)])
      /\ _update_vorp (n_roster st) restored (pp st) = Return (ap st2)
      /\ map erase_vorp (ap st2) = map erase_vorp (drop_label i (ap st) ++ [(i, r)])
      /\ (List.NoDup (labels (ap st)) ->
          Permutation (map erase_vorp (ap st2)) (map erase_vorp (ap st))).
Proof.
  intros st i conf r mgr Hloc Hfresh Hrm Hrp Hmgr Hm Hdraft.
  destruct (do_pick_manual st i conf r mgr Hloc Hfresh Hmgr Hm Hdraft) as [ap2 [E2 Hpick]].
  set (st1 := (if draft_mode st then with_turn (pickno_of st) else fun s => s)
                (with_tables ap2 (pp st ++ [(i, picked_row mgr (pickno_of st) r)]) st)) in *.
  assert (Hpp1 : pp st1 = pp st ++ [(i, picked_row mgr (pickno_of st) r)]).
  { unfold st1. destruct (draft_mode st); reflexivity. }
  assert (Hap1 : ap st1 = ap2).
  { unfold st1. destruct (draft_mode st); reflexivity. }
  assert (Hd1 : draft_mode st1 = draft_mode st).
  { unfold st1. case_eq (draft_mode st); intros Hd; exact Hd. }
  assert (Hn1 : n_roster st1 = n_roster st).
  { unfold st1. destruct (draft_mode st); reflexivity. }
  assert (Ht1 : i_manager_turn st1 = if draft_mode st then pickno_of st else i_manager_turn st).
  { unfold st1. destruct (draft_mode st); reflexivity. }
  assert (Ha1 : has_label i (ap st1) = false).
  { rewrite Hap1, (has_label_erase _ _ i E2). apply has_label_drop. }
  assert (Hturn1 : draft_mode st1 = true -> i_manager_turn st1 <> None).
  { rewrite Hd1, Ht1. intros Hd. rewrite Hd. unfold pickno_of. rewrite Hd.
    destruct (Hdraft Hd) as (t & _ & Ht & _). rewrite Ht. discriminate. }
  destruct (do_unpick_last st1 (pp st) i _ Hpp1 Hfresh Ha1 Hturn1) as [ap4 [H4 [E4 Hunpick]]].
  rewrite Hap1, Hn1 in H4. rewrite Hap1 in E4. rewrite Hd1 in Hunpick.
  set (st2 := (if draft_mode st
               then with_turn (option_map (fun t => (t - 1)%Z) (i_manager_turn st1))
               else fun s => s) (with_tables ap4 (pp st) st1)) in *.
  assert (Hap2 : ap st2 = ap4).
  { unfold st2. destruct (draft_mode st); reflexivity. }
  assert (Hrest : map erase_vorp
                    (ap2 ++ [(i, to_available_columns (picked_row mgr (pickno_of st) r))])
                  = map erase_vorp (drop_label i (ap st) ++ [(i, r)])).
  { rewrite !map_app, E2. f_equal. cbn [map]. unfold erase_vorp. cbn [fst snd].
    rewrite (restored_row r mgr (pickno_of st) Hrm Hrp). reflexivity. }
  assert (Hturn2 : i_manager_turn st2 = i_manager_turn st).
  { unfold st2. rewrite Ht1. unfold pickno_of. destruct (draft_mode st) eqn:Hd.
    - destruct (Hdraft eq_refl) as (t & _ & Ht & _). rewrite Ht. cbn.
      f_equal. lia.
    - reflexivity. }
  exists st1, st2, (ap2 ++ [(i, to_available_columns (picked_row mgr (pickno_of st) r))]).
  split; [exact Hpick|]. split; [exact Hunpick|].
  split; [rewrite Hpp1; unfold labels; rewrite map_app; reflexivity|].
  split; [exact Ht1|].
  split; [unfold st2; destruct (draft_mode st); reflexivity|].
  split; [exact Hturn2|].
  split.
  { rewrite Hap2. revert Hturn2. unfold st2, st1, pickno_of.
    destruct (draft_mode st) eqn:Hd.
    - cbn [i_manager_turn with_turn with_tables]. intros Hturn2.
      unfold with_turn, with_tables. cbn. rewrite Hturn2, Hd. reflexivity.
    - intros _. unfold with_tables. cbn. rewrite Hd. reflexivity. }
  split; [exact Hrest|].
  split; [rewrite Hap2; exact H4|].
  split; [rewrite Hap2, E4; exact Hrest|].
  intros Hnd. rewrite Hap2, E4, Hrest.
  apply Permutation_map. apply drop_label_perm; assumption.
Qed.

(** The start of a four-pick snake draft on [board]. *)
Definition draft_start (autos : list (Z * strategy)) : prompt :=
  {| ap := board; pp := []; draft_mode := true; i_manager_turn := Some 0%Z;
     manager_picks := [1; 2; 2; 1]%Z; manager_auto_strats := autos;
     n_roster := n_roster_per_team sample_league; disabled_pos := [] |}.

Definition picked_summary (st : prompt) : list (Z * option Z * option Z) :=
  map (fun x => (fst x, manager (snd x), pick (snd x))) (pp st).

(** The row that is unpicked goes to the end of the available table. *)
Lemma unpicked_row_returns_last :
  labels (ap (draft_start [])) = [0; 1; 2; 3; 4; 5]%Z
  /\ labels (ap (fst (do_unpick (fst (do_pick 3 "n" (draft_start []))))))
     = [0; 1; 2; 4; 5; 3]%Z.
Proof. split; vm_compute; reflexivity. Qed.

(** The 'vorp' column is computed afresh: a table whose 'vorp' cells were
    never filled comes back with them filled. *)
Lemma unpick_refreshes_vorp :
  map (fun x => vorp (snd x)) (ap (draft_start [])) = [None; None; None; None; None; None]
  /\ map (fun x => option_map Qred (vorp (snd x)))
       (ap (fst (do_unpick (fst (do_pick 3 "n" (draft_start []))))))
     = [Some 0; Some 0; Some 0; Some (-20 # 1); Some 0; Some 0].
Proof. split; vm_compute; reflexivity. Qed.

(** C6 as stated fails when the next manager picks automatically: manager 2,
    who follows the 'vols' strategy, picks twice as soon as manager 1 has
    picked index 3, and the unpick takes back only the last of these picks. *)
Lemma unpick_after_automatic_picks :
  loc 3 (ap (draft_start [(2%Z, Vols)])) <> None
  /\ picked_summary (draft_start [(2%Z, Vols)]) = []
  /\ i_manager_turn (draft_start [(2%Z, Vols)]) = Some 0%Z
  /\ snd (do_pick 3 "n" (draft_start [(2%Z, Vols)])) = Return tt
  /\ picked_summary (fst (do_pick 3 "n" (draft_start [(2%Z, Vols)])))
     = [(3, Some 1, Some 1); (1, Some 2, Some 2); (5, Some 2, Some 3)]%Z
  /\ snd (do_unpick (fst (do_pick 3 "n" (draft_start [(2%Z, Vols)])))) = Return tt
  /\ picked_summary (fst (do_unpick (fst (do_pick 3 "n" (draft_start [(2%Z, Vols)])))))
     = [(3, Some 1, Some 1); (1, Some 2, Some 2)]%Z
  /\ labels (ap (fst (do_unpick (fst (do_pick 3 "n" (draft_start [(2%Z, Vols)]))))))
     = [0; 2; 4; 5]%Z
  /\ i_manager_turn (fst (do_unpick (fst (do_pick 3 "n" (draft_start [(2%Z, Vols)])))))
     = Some 2%Z.
Proof. repeat split; try (vm_compute; reflexivity). vm_compute. discriminate. Qed.

Lemma pick_then_unpick_restores_tables_witness :
  exists st1 st2,
    do_pick 3 "n" (draft_start []) = (st1, Return tt)
    /\ do_unpick st1 = (st2, Return tt)
    /\ labels (pp st1) = [3%Z]
    /\ i_manager_turn st1 = Some 1%Z
    /\ pp st2 = []
    /\ i_manager_turn st2 = Some 0%Z
    /\ Permutation (map erase_vorp (ap st2)) (map erase_vorp board).
Proof.
  assert (Hloc : loc 3 (ap (draft_start []))
                 = Some (board_row "RB A" "RB" 35 (Starter "RB" 1))).
  { vm_compute. reflexivity. }
  assert (Hfresh : has_label 3 (pp (draft_start [])) = false) by reflexivity.
  assert (Hmgr : _get_current_manager (draft_start []) = Return (Some 1%Z)).
  { vm_compute. reflexivity. }
  destruct (pick_then_unpick_restores_tables (draft_start []) 3 "n"
              (board_row "RB A" "RB" 35 (Starter "RB" 1)) (Some 1%Z)
              Hloc Hfresh eq_refl eq_refl Hmgr)
    as (st1 & st2 & restored & H1 & H2 & H3 & H4 & H5 & H6 & _ & _ & _ & _ & H11).
  - intros _. reflexivity.
  - intros _. exists 0%Z, 2%Z. repeat split.
  - exists st1, st2. repeat split; try assumption.
    apply H11. vm_compute. repeat constructor; cbn; intuition discriminate.
Defined.

End ShellFacts.

(** ** get_fantasy_points.py: [getBasePoints] beside [get_points] *)
Module BasePoints.
Import Scoring.

(** [plyr.name]: a missing attribute raises. *)
Definition getattr (plyr : gmap string Q) (name : string) : outcome Q :=
  match plyr !! name with
  | Some v => Return v
  | None => Raise (AttributeError name)
  end.

(** The attributes [getBasePoints] reads, in the order of their first read. *)
Definition base_attributes : list string :=
  [ "passing_yds"; "passing_cmp"; "passing_att"; "passing_tds"; "passing_int";
    "passing_twoptm"; "rushing_yds"; "rushing_tds"; "rushing_twoptm";
    "receiving_yds"; "receiving_rec"; "receiving_tds"; "receiving_twoptm";
    "fumbles_lost"; "kicking_xpmade"; "kicking_fga"; "kicking_fgm" ]%string.

(** [getBasePoints(rs, plyr)] on number-valued stats ([/] is the true
    division of floats). *)
Definition getBasePoints (rs : ruleset) (plyr : gmap string Q) : outcome Q :=
  do passing_yds <- getattr plyr "passing_yds";
  do passing_cmp <- getattr plyr "passing_cmp";
  do passing_att <- getattr plyr "passing_att";
  do passing_tds <- getattr plyr "passing_tds";
  do passing_int <- getattr plyr "passing_int";
  do passing_twoptm <- getattr plyr "passing_twoptm";
  do rushing_yds <- getattr plyr "rushing_yds";
  do rushing_tds <- getattr plyr "rushing_tds";
  do rushing_twoptm <- getattr plyr "rushing_twoptm";
  do receiving_yds <- getattr plyr "receiving_yds";
  do receiving_rec <- getattr plyr "receiving_rec";
  do receiving_tds <- getattr plyr "receiving_tds";
  do receiving_twoptm <- getattr plyr "receiving_twoptm";
  do fumbles_lost <- getattr plyr "fumbles_lost";
  do kicking_xpmade <- getattr plyr "kicking_xpmade";
  do kicking_fga <- getattr plyr "kicking_fga";
  do kicking_fgm <- getattr plyr "kicking_fgm";
  Return (ppPY rs * passing_yds
          + ppPY25 rs * (passing_yds / 25)
          + ppPC rs * passing_cmp
          + ppINC rs * (passing_att - passing_cmp)
          + ppPTD rs * passing_tds
          + ppINT rs * passing_int
          + pp2PC rs * passing_twoptm
          + ppRY rs * rushing_yds
          + ppRY10 rs * (rushing_yds / 10)
          + ppRTD rs * rushing_tds
          + pp2PR rs * rushing_twoptm
          + ppREY rs * receiving_yds
          + ppREY10 rs * (receiving_yds / 10)
          + ppREC rs * receiving_rec
          + ppRETD rs * receiving_tds
          + pp2PRE rs * receiving_twoptm
          + ppFUML rs * fumbles_lost
          + ppPAT rs * kicking_xpmade
          + ppFGM rs * (kicking_fga - kicking_fgm)
          + ppFG0 rs * kicking_fgm).










(** [getBasePoints] needs every attribute: it raises [AttributeError] for
    the first one, in reading order, that the record lacks, and returns a
    number when none is missing (where [get_points] counts a missing key as
    zero). *)
Theorem getBasePoints_raises_on_first_missing_attribute :
  forall (rs : ruleset) (plyr : gmap string Q),
    match find (fun a => bool_decide (plyr !! a = None)) base_attributes with
    | Some a => getBasePoints rs plyr = Raise (AttributeError a)
    | None => exists v, getBasePoints rs plyr = Return v
    end.
Proof.
  intros rs plyr. unfold getBasePoints, getattr, base_attributes.
  cbn [find].
  repeat match goal with
  | |- context [bool_decide (plyr !! ?a = None)] =>
      destruct (plyr !! a) as [?v|] eqn:?;
      [ rewrite bool_decide_eq_false_2 by discriminate; cbn [bind]
      | rewrite bool_decide_eq_true_2 by reflexivity; cbn [bind]; reflexivity ]
  end.
  eexists. reflexivity.
Qed.

End BasePoints.

(** ** bayes_models.py: the negative-binomial probabilities, the constant
    models and the running-mean baseline *)
Module BayesMore.
Import Bayes.

Lemma Qsum_app xs ys : Qsum (xs ++ ys) == Qsum xs + Qsum ys.
Proof.
  induction xs as [|x xs IH]; simpl.
  - ring.
  - rewrite IH. ring.
Qed.

Lemma last_lookup (l : list Q) d x :
  l !! (length l - 1)%nat = Some x -> List.last l d = x.
Proof.
  revert x. induction l as [|a l IH]; intros x H; [discriminate|].
  destruct l as [|b l].
  - simpl in H. injection H as ->. reflexivity.
  - change (List.last (a :: b :: l) d) with (List.last (b :: l) d).
    apply IH. simpl in *. rewrite Nat.sub_0_r in *. exact H.
Qed.

Lemma rps_loop_paired_last cols c lr rs bs :
  rps_loop (Paired (cols ++ [c])) lr rs bs
  = (append_step (fst (rps_loop (Paired cols) lr rs bs)) (lr * fst c),
     append_step (snd (rps_loop (Paired cols) lr rs bs)) (lr * snd c)).
Proof. unfold rps_loop. rewrite fold_left_app. reflexivity. Qed.

(** The two lists after the paired loop: one entry more than there are
    observations, the k-th being the start value plus [lr] times the sum of
    the first k numerators (denominators). *)
Lemma rps_loop_paired_entries lr r0 b0 cols :
  length (fst (rps_loop (Paired cols) lr [r0] [b0])) = S (length cols)
  /\ length (snd (rps_loop (Paired cols) lr [r0] [b0])) = S (length cols)
  /\ forall k, (k <= length cols)%nat ->
       exists x y,
         fst (rps_loop (Paired cols) lr [r0] [b0]) !! k = Some x
         /\ snd (rps_loop (Paired cols) lr [r0] [b0]) !! k = Some y
         /\ x == r0 + lr * Qsum (map fst (take k cols))
         /\ y == b0 + lr * Qsum (map snd (take k cols)).
Proof.
  induction cols as [|c cols IH] using rev_ind.
  - split; [reflexivity|]. split; [reflexivity|].
    intros k Hk. assert (k = 0%nat) as -> by (simpl in Hk; lia).
    exists r0, b0. simpl. repeat split; ring.
  - destruct IH as (Lr & Lb & IH).
    rewrite rps_loop_paired_last. cbn [fst snd]. unfold append_step.
    rewrite !length_app, Lr, Lb. cbn [length].
    split; [lia|]. split; [lia|].
    intros k Hk. cbn [length] in Hk.
    destruct (Nat.eq_dec k (S (length cols))) as [->|Hne].
    + destruct (IH (length cols) (Nat.le_refl _)) as (x & y & Hx & Hy & Ex & Ey).
      rewrite firstn_all in Ex, Ey.
      exists (List.last (fst (rps_loop (Paired cols) lr [r0] [b0])) 0 + lr * fst c),
             (List.last (snd (rps_loop (Paired cols) lr [r0] [b0])) 0 + lr * snd c).
      split; [|split].
      * rewrite lookup_app_r by (rewrite Lr; lia). rewrite Lr, Nat.sub_diag. reflexivity.
      * rewrite lookup_app_r by (rewrite Lb; lia). rewrite Lb, Nat.sub_diag. reflexivity.
      * rewrite (last_lookup _ 0 x) by (rewrite Lr; simpl; rewrite Nat.sub_0_r; exact Hx).
        rewrite (last_lookup _ 0 y) by (rewrite Lb; simpl; rewrite Nat.sub_0_r; exact Hy).
        rewrite firstn_all2 by (rewrite length_app; simpl; lia).
        rewrite !map_app, !Qsum_app. cbn [map Qsum fold_right]. rewrite Ex, Ey.
        split; ring.
    + assert (Hk' : (k <= length cols)%nat) by lia.
      destruct (IH k Hk') as (x & y & Hx & Hy & Ex & Ey).
      exists x, y.
      rewrite !lookup_app_l by (rewrite ?Lr, ?Lb; lia).
      rewrite take_app_le by exact Hk'.
      repeat split; assumption.
Qed.

Lemma rps_loop_flat_as_paired data lr rs bs :
  rps_loop (Flat data) lr rs bs = rps_loop (Paired (map (fun d => (d, d)) data)) lr rs bs.
Proof.
  unfold rps_loop. revert rs bs. induction data as [|d data IH]; intros rs bs.
  - reflexivity.
  - cbn [map fold_left fst snd]. apply IH.
Qed.

Lemma get_rps_paired_entries :
  forall (cols : list (Q * Q)) (r0 p0 lr : Q),
    ~ p0 == 0 ->
    exists rs ps,
      _get_rps (Paired cols) r0 p0 lr = Return (rs, ps)
      /\ length rs = S (length cols) /\ length ps = S (length cols)
      /\ (forall k, (k <= length cols)%nat ->
            exists x, rs !! k = Some x
                      /\ x == r0 + lr * Qsum (map fst (take k cols)))
      /\ (forall k, (k <= length cols)%nat ->
            ~ 1 + ((1 - p0) / p0 + lr * Qsum (map snd (take k cols))) == 0 ->
            exists p, ps !! k = Some (Some p)
                      /\ p == 1 / (1 + ((1 - p0) / p0
                                        + lr * Qsum (map snd (take k cols)))))
      /\ (exists p, ps !! 0%nat = Some (Some p) /\ p == p0)
      /\ (forall data, _get_rps (Flat data) r0 p0 lr
                       = _get_rps (Paired (map (fun d => (d, d)) data)) r0 p0 lr).
Proof.
  intros cols r0 p0 lr Hp.
  assert (Hb : Qeq_bool p0 0 = false).
  { destruct (Qeq_bool p0 0) eqn:E; [|reflexivity]. apply Qeq_bool_eq in E. contradiction. }
  unfold _get_rps, _get_rps_state. rewrite Hb. cbn [bind].
  destruct (rps_loop_paired_entries lr r0 ((1 - p0) / p0) cols) as (Lr & Lb & Hk).
  eexists _, _. split; [reflexivity|]. cbn [fst snd].
  assert (Hps : forall k, (k <= length cols)%nat ->
            ~ 1 + ((1 - p0) / p0 + lr * Qsum (map snd (take k cols))) == 0 ->
            exists p, ps_of (snd (rps_loop (Paired cols) lr [r0] [(1 - p0) / p0])) !! k
                      = Some (Some p)
                      /\ p == 1 / (1 + ((1 - p0) / p0
                                        + lr * Qsum (map snd (take k cols))))).
  { intros k Hle Hne. destruct (Hk k Hle) as (x & y & _ & Hy & _ & Ey).
    unfold ps_of. rewrite list_lookup_fmap, Hy. cbn.
    destruct (Qeq_bool (1 + y) 0) eqn:E.
    - exfalso. apply Hne. apply Qeq_bool_eq in E. rewrite <- Ey. exact E.
    - eexists. split; [reflexivity|]. rewrite Ey. reflexivity. }
  split; [exact Lr|]. split; [unfold ps_of; rewrite length_map; exact Lb|].
  split.
  { intros k Hle. destruct (Hk k Hle) as (x & y & Hx & _ & Ex & _).
    exists x. split; assumption. }
  split; [exact Hps|]. split.
  { assert (Hden : 1 + ((1 - p0) / p0 + lr * Qsum (map snd (take 0 cols))) == 1 / p0).
    { change (take 0 cols) with (@nil (Q * Q)). cbn [map Qsum fold_right]. field. exact Hp. }
    assert (Hinv : ~ 1 / p0 == 0).
    { intros E. assert (H1 : p0 * (1 / p0) == 1) by (field; exact Hp).
      rewrite E in H1. lra. }
    destruct (Hps 0%nat ltac:(lia)) as (p & Hl & Ep).
    - rewrite Hden. exact Hinv.
    - exists p. split; [exact Hl|]. rewrite Ep, Hden. field. exact Hp. }
  intros data. rewrite (rps_loop_flat_as_paired data). reflexivity.
Qed.

Lemma Qsum_nonneg xs : Forall (fun x => 0 <= x) xs -> 0 <= Qsum xs.
Proof.
  induction 1 as [|x xs Hx _ IH]; simpl; [apply Qle_refl|]. lra.
Qed.

Lemma Forall_take_nonneg (xs : list Q) k :
  Forall (fun x => 0 <= x) xs -> Forall (fun x => 0 <= x) (take k xs).
Proof.
  intros H. apply List.Forall_forall. intros x Hx.
  rewrite List.Forall_forall in H. apply H. eapply DraftFacts.take_incl; exact Hx.
Qed.

Lemma Qsum_take_mono xs : forall j k,
  Forall (fun x => 0 <= x) xs -> (j <= k)%nat -> Qsum (take j xs) <= Qsum (take k xs).
Proof.
  induction xs as [|x xs IH]; intros j k Hpos Hjk.
  - destruct j, k; apply Qle_refl.
  - inversion Hpos as [|a l Hx Hxs]; subst.
    destruct j as [|j]; destruct k as [|k]; try lia.
    + apply Qle_refl.
    + change (take 0 (x :: xs)) with (@nil Q).
      apply Qsum_nonneg, Forall_take_nonneg, Hpos.
    + change (Qsum (take (S j) (x :: xs))) with (x + Qsum (take j xs)).
      change (Qsum (take (S k) (x :: xs))) with (x + Qsum (take k xs)).
      specialize (IH j k Hxs ltac:(lia)). lra.
Qed.

Lemma Qinv_decreasing a b : 0 < a -> a <= b -> 1 / b <= 1 / a.
Proof.
  intros Ha Hab. assert (Hb : 0 < b) by lra.
  assert (Hnz : ~ b == 0) by (intros E; rewrite E in Hb; revert Hb; apply Qlt_irrefl).
  apply Qle_shift_div_l; [exact Ha|].
  assert (E : 1 / b * a == a / b) by (field; exact Hnz).
  rewrite E. apply Qle_shift_div_r; [exact Hb|]. lra.
Qed.

(** Over exact rationals the probabilities start at the prior and stay
    positive. *)
Lemma get_rps_probabilities_from_the_prior :
  forall (cols : list (Q * Q)) (r0 p0 lr : Q),
    0 < p0 -> p0 <= 1 -> 0 <= lr ->
    Forall (fun c => 0 <= snd c) cols ->
    exists rs ps,
      _get_rps (Paired cols) r0 p0 lr = Return (rs, ps)
      /\ (forall k, (k <= length cols)%nat ->
            exists p, ps !! k = Some (Some p) /\ 0 < p /\ p <= p0)
      /\ (forall j k p q, (j <= k)%nat ->
            ps !! j = Some (Some p) -> ps !! k = Some (Some q) -> q <= p).
Proof.
  intros cols r0 p0 lr Hp0 Hp1 Hlr Hpos.
  assert (Hne : ~ p0 == 0) by (intros E; rewrite E in Hp0; revert Hp0; apply Qlt_irrefl).
  destruct (get_rps_paired_entries cols r0 p0 lr Hne)
    as (rs & ps & H & _ & Lp & _ & Hps & _ & _).
  assert (Hb0 : 0 <= (1 - p0) / p0).
  { apply Qle_shift_div_l; [exact Hp0 | lra]. }
  assert (Hone : 1 + (1 - p0) / p0 == 1 / p0) by (field; exact Hne).
  assert (Hs : forall k, 0 <= Qsum (map snd (take k cols))).
  { intros k. apply Qsum_nonneg. rewrite <- firstn_map.
    apply Forall_take_nonneg. apply Forall_map. exact Hpos. }
  assert (Hden : forall k, 0 < 1 + ((1 - p0) / p0 + lr * Qsum (map snd (take k cols)))).
  { intros k. specialize (Hs k).
    assert (0 <= lr * Qsum (map snd (take k cols))) by (apply Qmult_le_0_compat; assumption).
    lra. }
  assert (Hentry : forall k, (k <= length cols)%nat ->
            exists p, ps !! k = Some (Some p)
                      /\ p == 1 / (1 + ((1 - p0) / p0
                                        + lr * Qsum (map snd (take k cols))))).
  { intros k Hk. apply Hps; [exact Hk|]. intros E. specialize (Hden k). rewrite E in Hden.
    revert Hden. apply Qlt_irrefl. }
  exists rs, ps. split; [exact H|]. split.
  - intros k Hk. destruct (Hentry k Hk) as (p & Hl & Ep). exists p. split; [exact Hl|].
    rewrite Ep. split.
    + apply Qlt_shift_div_l; [apply Hden | lra].
    + assert (Hmono : 1 / (1 + ((1 - p0) / p0 + lr * Qsum (map snd (take k cols))))
                      <= 1 / (1 / p0)).
      { apply Qinv_decreasing.
        - apply Qlt_shift_div_l; [exact Hp0 | lra].
        - rewrite <- Hone. specialize (Hs k).
          assert (0 <= lr * Qsum (map snd (take k cols)))
            by (apply Qmult_le_0_compat; assumption).
          lra. }
      assert (Hinv : 1 / (1 / p0) == p0) by (field; exact Hne).
      rewrite Hinv in Hmono. exact Hmono.
  - intros j k p q Hjk Hj Hk.
    assert (Hkl : (k <= length cols)%nat).
    { apply lookup_lt_Some in Hk. rewrite Lp in Hk. lia. }
    destruct (Hentry j ltac:(lia)) as (p' & Hl & Ep). rewrite Hl in Hj. injection Hj as <-.
    destruct (Hentry k Hkl) as (q' & Hl' & Eq). rewrite Hl' in Hk. injection Hk as <-.
    rewrite Ep, Eq. apply Qinv_decreasing; [apply Hden|].
    assert (Hm : Qsum (map snd (take j cols)) <= Qsum (map snd (take k cols))).
    { rewrite <- !firstn_map. apply Qsum_take_mono; [|exact Hjk].
      apply Forall_map. exact Hpos. }
    assert (lr * Qsum (map snd (take j cols)) <= lr * Qsum (map snd (take k cols))).
    { nra. }
    lra.
Qed.

(** With a prior probability in (0, 1], a learning rate and denominators
    that are not negative, [_get_rps] returns, every probability in [ps] is
    a number between 0 and 1, and the sequence never increases: the more
    exposure has been seen, the smaller [p]. *)
Theorem get_rps_probabilities_never_increase :
  forall (cols : list (Q * Q)) (r0 p0 lr : Q),
    0 < p0 -> p0 <= 1 -> 0 <= lr ->
    Forall (fun c => 0 <= snd c) cols ->
    exists rs ps,
      _get_rps (Paired cols) r0 p0 lr = Return (rs, ps)
      /\ (forall k, (k <= length cols)%nat ->
            exists p, ps !! k = Some (Some p) /\ 0 <= p /\ p <= 1)
      /\ (forall j k p q, (j <= k)%nat ->
            ps !! j = Some (Some p) -> ps !! k = Some (Some q) -> q <= p).
Proof.
  intros cols r0 p0 lr Hp0 Hp1 Hlr Hpos.
  destruct (get_rps_probabilities_from_the_prior cols r0 p0 lr Hp0 Hp1 Hlr Hpos)
    as (rs & ps & H & Hk & Hmono).
  exists rs, ps. split; [exact H|]. split; [|exact Hmono].
  intros k Hle. destruct (Hk k Hle) as (p & Hl & Hlo & Hhi).
  exists p. split; [exact Hl|]. split; lra.
Qed.

Lemma get_rps_probabilities_never_increase_witness :
  exists rs ps,
    _get_rps (Paired [(3, 10); (5, 12)]) 2 (1 # 2) 1 = Return (rs, ps)
    /\ (exists p, ps !! 2%nat = Some (Some p) /\ 0 <= p /\ p <= 1)
    /\ (forall p q, ps !! 1%nat = Some (Some p) -> ps !! 2%nat = Some (Some q) -> q <= p).
Proof.
  destruct (get_rps_probabilities_never_increase [(3, 10); (5, 12)] 2 (1 # 2) 1)
    as (rs & ps & H & Hk & Hm).
  - reflexivity.
  - discriminate.
  - discriminate.
  - repeat constructor; discriminate.
  - exists rs, ps. split; [exact H|]. split.
    + apply (Hk 2%nat). simpl. lia.
    + intros p q. apply (Hm 1%nat 2%nat). lia.
Defined.


(** *** [mse_model_mean] *)

(** The function returns the bare [default] for empty data and an array
    otherwise. *)
Inductive mean_scores : Type :=
| Scalar (default : Q)
| Scores (mses : list Q).

(** [a.mean()] of a non-empty one-dimensional array. *)
Definition np_mean (a : list Q) : Q := Qsum a / inject_Z (Z.of_nat (length a)).

Definition mse_model_mean (data : list Q) (default : Q) : mean_scores :=
  match data with
  | [] => Scalar default
  | _ :: _ =>
      Scores (map (fun i_d =>
                let mean_so_far :=
                  if (0 <? i_d)%nat then np_mean (take i_d data) else default in
                (mean_so_far - nth i_d data 0) ^ 2)
              (seq 0 (length data)))
  end.

Definition scores_of (r : mean_scores) : list Q :=
  match r with Scalar _ => [] | Scores l => l end.

Lemma mse_model_mean_scores d data default :
  mse_model_mean (d :: data) default
  = Scores (map (fun i_d =>
              let mean_so_far :=
                if (0 <? i_d)%nat then np_mean (take i_d (d :: data)) else default in
              (mean_so_far - nth i_d (d :: data) 0) ^ 2)
            (seq 0 (length (d :: data)))).
Proof. reflexivity. Qed.

(** The running-mean baseline is computed online: on non-empty data it
    returns one score per observation, the first being the squared distance
    from [default], and the scores of a sequence are a prefix of the scores
    of every extension of it (a score never depends on later observations);
    on empty data it returns the bare [default], not an array. *)
Theorem mse_model_mean_scores_ignore_later_observations :
  forall (d : Q) (data more : list Q) (default : Q),
    mse_model_mean [] default = Scalar default
    /\ exists mses mses',
         mse_model_mean (d :: data) default = Scores mses
         /\ mse_model_mean ((d :: data) ++ more) default = Scores mses'
         /\ length mses = length (d :: data)
         /\ mses !! 0%nat = Some ((default - d) ^ 2)
         /\ take (length (d :: data)) mses' = mses.
Proof.
  intros d data more default. split; [reflexivity|].
  change ((d :: data) ++ more) with (d :: (data ++ more)).
  rewrite !mse_model_mean_scores.
  eexists _, _. split; [reflexivity|]. split; [reflexivity|].
  split; [rewrite length_map, length_seq; reflexivity|].
  split; [reflexivity|].
  rewrite firstn_map.
  change (d :: data ++ more) with ((d :: data) ++ more).
  set (l := d :: data).
  assert (Hseq : take (length l) (seq 0 (length (l ++ more))) = seq 0 (length l)).
  { rewrite length_app, take_seq. f_equal. lia. }
  rewrite Hseq. apply map_ext_in. intros i Hi. apply in_seq in Hi.
  cbv zeta. rewrite (app_nth1 l more 0) by lia.
  rewrite (take_app_le l more i) by lia. reflexivity.
Qed.


(** *** The constant models *)

(** The names bound at module level in bayes_models.py. *)
Definition module_names : list string :=
  [ "logging"; "dist_fit"; "np"; "st"; "bayes_model"; "const_delta_model_gen";
    "delta_const"; "const_gauss_model_gen"; "gauss_const"; "beta_binomial_model_gen";
    "bbinom"; "neg_binomial_model_gen"; "nbinom"; "mse_model_mean" ]%string.

(** A bare name inside a method: its local variables, then the module's
    globals; the attributes of the class are not in scope. *)
Definition resolve (name : string) (locals : list string) : outcome unit :=
  if existsb (String.eqb name) (locals ++ module_names) then Return tt
  else Raise (NameError name).

(** A score that may be infinite or not a number. *)
Inductive score : Type :=
| NegInf
| PosInf
| Finite (q : Q)
| NaN.

Module const_delta_model_gen.
Definition _mse (data : list Q) (mu : Q) : list Q := map (fun d => (mu - d) ^ 2) data.
Definition _mae (data : list Q) (const : Q) : list Q := map (fun d => Qabs (const - d)) data.
Definition _kld (data : list Q) (mu : Q) : list score :=
  map (fun d => if Qeq_bool d mu then NegInf else PosInf) data.
End const_delta_model_gen.

Section const_gauss_model_gen.

(** [var -> np.log(2.0*np.pi*var)] at a positive [var]. *)
Variable log_two_pi_times : Q -> Q.

Definition gauss_mse (data : list Q) (mu var : Q) : list Q :=
  map (fun d => (mu - d) ^ 2 + var) data.

Definition gauss_kld (data : list Q) (mu var : Q) : outcome (list score) :=
  if Qeq_bool var 0 then
    (* log.warning('zero in variance for KL divergence') *)
    do _ <- resolve "log" ["self"; "data"; "mu"; "var"]%string;
    Return (const_delta_model_gen._kld data mu)
  else if Qle_bool var 0 then
    (* np.log of a negative number is nan, and so is every sum with it *)
    Return (map (fun _ => NaN) data)
  else
    Return (map (fun d => Finite ((mu - d) ^ 2 / (2.0 * var) + 0.5 * log_two_pi_times var))
                data).

End const_gauss_model_gen.

(** The constant Gaussian model with zero variance: its squared errors are
    those of the delta model (which are the squares of the delta model's
    absolute errors), but its divergence is never computed, because the
    zero-variance branch reads a name [log] that is bound neither in the
    method nor in the module and so raises [NameError] before it can hand
    over to the delta model; with any other variance the call raises
    nothing and returns one score per observation. *)
Theorem gauss_kld_with_zero_variance_raises_name_error :
  forall (log_two_pi_times : Q -> Q) (data : list Q) (mu : Q),
    gauss_kld log_two_pi_times data mu 0 = Raise (NameError "log")
    /\ Qlist_eq (gauss_mse data mu 0) (const_delta_model_gen._mse data mu)
    /\ Qlist_eq (const_delta_model_gen._mse data mu)
                (map (fun e => e ^ 2) (const_delta_model_gen._mae data mu))
    /\ (forall var, ~ var == 0 ->
          exists klds, gauss_kld log_two_pi_times data mu var = Return klds
                       /\ length klds = length data).
Proof.
  intros lg data mu. split; [reflexivity|]. split; [|split].
  - unfold Qlist_eq, gauss_mse, const_delta_model_gen._mse.
    induction data as [|d data IH]; constructor; [ring | exact IH].
  - unfold Qlist_eq, const_delta_model_gen._mse, const_delta_model_gen._mae.
    induction data as [|d data IH]; cbn [map]; constructor; [|exact IH].
    apply (Qabs_case (mu - d) (fun a => (mu - d) ^ 2 == a ^ 2)); intros _; ring.
  - intros var Hvar. unfold gauss_kld.
    destruct (Qeq_bool var 0) eqn:E; [apply Qeq_bool_eq in E; contradiction|].
    destruct (Qle_bool var 0); eexists; (split; [reflexivity | apply length_map]).
Qed.

Lemma gauss_kld_with_zero_variance_raises_name_error_witness :
  exists klds,
    gauss_kld (fun x => x) [1; 2] 1 1 = Return klds
    /\ length klds = length [1; 2].
Proof.
  apply (proj2 (proj2 (proj2
           (gauss_kld_with_zero_variance_raises_name_error (fun x => x) [1; 2] 1)))).
  intros H. discriminate H.
Defined.

End BayesMore.

(** ** playermodels/rushing.py: the supported positions *)
Module RushingFacts.
Import Rushing.

Lemma upper_ascii_idempotent c : upper_ascii (upper_ascii c) = upper_ascii c.
Proof. destruct c as [[] [] [] [] [] [] [] []]; reflexivity. Qed.

Lemma upper_idempotent s : upper (upper s) = upper s.
Proof.
  induction s as [|c s IH]; [reflexivity|].
  cbn [upper]. rewrite upper_ascii_idempotent, IH. reflexivity.
Qed.

Lemma att_depends_on_upper p q :
  upper p = upper q -> RushAttModel._default_hyperpars p = RushAttModel._default_hyperpars q.
Proof. intros H. unfold RushAttModel._default_hyperpars. rewrite H. reflexivity. Qed.

Lemma yds_depends_on_upper p q :
  upper p = upper q -> RushYdsModel._default_hyperpars p = RushYdsModel._default_hyperpars q.
Proof. intros H. unfold RushYdsModel._default_hyperpars. rewrite H. reflexivity. Qed.

Lemma td_depends_on_upper p q :
  upper p = upper q -> RushTdModel._default_hyperpars p = RushTdModel._default_hyperpars q.
Proof. intros H. unfold RushTdModel._default_hyperpars. rewrite H. reflexivity. Qed.

(** The default-hyperparameter lookups do not depend on the case of the
    position code: a code and its upper-casing (hence any two spellings that
    differ only in case) give the same result in all three models; and for a
    code that upper-cases to RB, QB or WR nothing is logged and the arrays
    returned hold 5 (attempts), 11 (yards) and 5 (touchdowns) numbers. *)
Theorem default_hyperpars_ignore_case :
  forall pos : string,
    RushAttModel._default_hyperpars (upper pos) = RushAttModel._default_hyperpars pos
    /\ RushYdsModel._default_hyperpars (upper pos) = RushYdsModel._default_hyperpars pos
    /\ RushTdModel._default_hyperpars (upper pos) = RushTdModel._default_hyperpars pos
    /\ (supported pos = true ->
        exists att yds td,
          RushAttModel._default_hyperpars pos = ([], Return (Some att))
          /\ RushYdsModel._default_hyperpars pos = ([], Return (Some yds))
          /\ RushTdModel._default_hyperpars pos = ([], Return (Some td))
          /\ length att = 5%nat /\ length yds = 11%nat /\ length td = 5%nat).
Proof.
  intros pos.
  split; [apply att_depends_on_upper, upper_idempotent|].
  split; [apply yds_depends_on_upper, upper_idempotent|].
  split; [apply td_depends_on_upper, upper_idempotent|].
  intros H. unfold supported in H.
  unfold RushAttModel._default_hyperpars, RushYdsModel._default_hyperpars,
    RushTdModel._default_hyperpars. cbv zeta.
  destruct (upper pos =? "RB")%string eqn:Erb.
  { eexists _, _, _. repeat split. }
  destruct (upper pos =? "QB")%string eqn:Eqb.
  { eexists _, _, _. repeat split. }
  destruct (upper pos =? "WR")%string eqn:Ewr.
  { eexists _, _, _. repeat split. }
  discriminate H.
Qed.

Lemma default_hyperpars_ignore_case_witness :
  supported "rb" = true
  /\ exists att yds td,
       RushAttModel._default_hyperpars "rb" = ([], Return (Some att))
       /\ RushYdsModel._default_hyperpars "rb" = ([], Return (Some yds))
       /\ RushTdModel._default_hyperpars "rb" = ([], Return (Some td))
       /\ length att = 5%nat /\ length yds = 11%nat /\ length td = 5%nat.
Proof.
  split; [reflexivity|].
  apply (proj2 (proj2 (proj2 (default_hyperpars_ignore_case "rb")))). reflexivity.
Defined.

End RushingFacts.

(** ** draft_app.py: more on the start-up table *)
Module StartupFacts.
Import Draft DraftFacts.

(** *** [sort_values] sorts *)

Lemma key_le_total asc a b : key_le asc a b = false -> key_le asc b a = true.
Proof.
  destruct a as [x|], b as [y|]; simpl; try discriminate; try reflexivity.
  destruct asc; intros H.
  - apply Qle_bool_iff. apply Qlt_le_weak, Qnot_le_lt. intros Hle.
    apply Qle_bool_iff in Hle. congruence.
  - apply Qle_bool_iff. apply Qlt_le_weak, Qnot_le_lt. intros Hle.
    apply Qle_bool_iff in Hle. congruence.
Qed.

Lemma key_le_trans asc a b c :
  key_le asc a b = true -> key_le asc b c = true -> key_le asc a c = true.
Proof.
  destruct a as [x|], b as [y|], c as [z|]; simpl; try discriminate; try reflexivity.
  destruct asc; intros H1 H2; apply Qle_bool_iff in H1, H2; apply Qle_bool_iff.
  - eapply Qle_trans; eassumption.
  - eapply Qle_trans; eassumption.
Qed.

(** Row [x] may stand before row [y] in a table sorted on [key]. *)
Definition ordered (key : row -> option Q) (asc : bool) (x y : Z * row) : Prop :=
  key_le asc (key (snd x)) (key (snd y)) = true.

Lemma insert_row_sorted key asc x l :
  StronglySorted (ordered key asc) l ->
  StronglySorted (ordered key asc) (insert_row key asc x l).
Proof.
  induction l as [|y rest IH]; intros Hs.
  - repeat constructor.
  - inversion Hs as [|y' rest' Hrest Hy]; subst. cbn [insert_row].
    destruct (key_le asc (key (snd x)) (key (snd y))) eqn:E.
    + constructor; [exact Hs|]. constructor; [exact E|].
      rewrite List.Forall_forall in Hy |- *. intros z Hz.
      unfold ordered in *. eapply key_le_trans; [exact E | apply Hy, Hz].
    + constructor; [apply IH, Hrest|].
      apply List.Forall_forall. intros z Hz. apply insert_row_In in Hz as [->|Hz].
      * apply key_le_total, E.
      * rewrite List.Forall_forall in Hy. apply Hy, Hz.
Qed.

Lemma sort_values_sorted key asc df :
  StronglySorted (ordered key asc) (sort_values key asc df).
Proof.
  induction df as [|x df IH]; [constructor|].
  cbn [sort_values fold_right]. apply insert_row_sorted, IH.
Qed.

Lemma sorted_rows (R : row -> row -> Prop) (l : frame) :
  StronglySorted (fun x y => R (snd x) (snd y)) l -> StronglySorted R (map snd l).
Proof.
  induction 1 as [|x l Hs IH Hx]; cbn [map]; constructor; [exact IH|].
  apply Forall_map. exact Hx.
Qed.

(** *** Every player keeps his identity through the pipeline *)

Definition same_info (x y : Z * row) : Prop :=
  fst y = fst x /\ info (snd y) = info (snd x).

Lemma Forall2_same_info (a b : frame) :
  Forall2 same_info a b ->
  map fst b = map fst a
  /\ map (fun x => info (snd x)) b = map (fun x => info (snd x)) a.
Proof.
  induction 1 as [|x y a b [H1 H2] _ [IH1 IH2]]; [split; reflexivity|].
  cbn [map]. rewrite H1, H2, IH1, IH2. split; reflexivity.
Qed.

Lemma related_same_info (R : row -> row -> Prop) a b :
  (forall r r', R r r' -> info r' = info r) -> related R a b -> Forall2 same_info a b.
Proof.
  intros HR H. unfold related in H. eapply List.Forall2_impl; [|exact H].
  intros x y [H1 H2]. split; [exact H1 | apply HR, H2].
Qed.

Lemma same_info_trans a b c :
  Forall2 same_info a b -> Forall2 same_info b c -> Forall2 same_info a c.
Proof.
  apply Forall2_compose. intros x y z [H1 H2] [K1 K2]. split; congruence.
Qed.

Lemma initial_frame_infos players :
  map (fun x => info (snd x)) (initial_frame players) = players.
Proof.
  unfold initial_frame.
  rewrite <- (map_map snd info), enumerate_values, map_map. apply map_id.
Qed.

Lemma initial_frame_labels players :
  map fst (initial_frame players) = map Z.of_nat (seq 0 (length players)).
Proof. unfold initial_frame. rewrite enumerate_labels, length_map. reflexivity. Qed.

Lemma backups_table_same_info lg players dfu :
  backups_table lg players = Return dfu -> Forall2 same_info (initial_frame players) dfu.
Proof.
  intros Hu. unfold backups_table in Hu.
  apply bind_return in Hu as [bl [_ Hu]].
  apply bind_return in Hu as [dfv [Hv Hu]].
  apply bind_return in Hu as [dfa [Ha Hu]].
  injection Hu as <-.
  set (dfl := label_starters lg dfv) in *.
  pose proof (related_same_info _ _ _ (fun r r' (H : vols_done main_positions r r') => proj1 H)
                (vols_stage _ _ _ Hv)) as S1.
  pose proof (related_same_info _ _ _ (fun r r' (H : labels_more r r') => proj1 H)
                (label_starters_more lg dfv)) as S2.
  pose proof (related_same_info _ _ _ (fun r r' (H : same_player r r') => proj1 H)
                (rebaseline_same_player dfl)) as S3.
  assert (Hnd : List.NoDup (map fst (rebaseline dfl))).
  { rewrite (proj1 (Forall2_same_info _ _ S3)). unfold dfl.
    rewrite (proj1 (Forall2_same_info _ _ S2)), (proj1 (Forall2_same_info _ _ S1)).
    apply enumerate_NoDup. }
  pose proof (value_stage_priced _ _ _ _ _ _ Hnd Ha) as S4.
  assert (S4' : Forall2 same_info (rebaseline dfl) dfa).
  { eapply List.Forall2_impl; [|exact S4]. intros x y (H1 & H2 & _). split; assumption. }
  assert (S5 : Forall2 same_info dfa (label_backups (count tiered (rebaseline dfl))
                                        (n_roster_per_league lg "BENCH") dfa)).
  { eapply List.Forall2_impl; [|apply label_backups_rel].
    intros x y (H1 & H2 & _). split; assumption. }
  eapply same_info_trans; [|exact S5].
  eapply same_info_trans; [|exact S4'].
  eapply same_info_trans; [|exact S3].
  eapply same_info_trans; [exact S1 | exact S2].
Qed.

Lemma value_table_same_info lg players df :
  value_table lg players = Return df -> Forall2 same_info (initial_frame players) df.
Proof.
  intros H. unfold value_table in H. apply bind_return in H as [dfu [Hu H]].
  injection H as <-.
  eapply same_info_trans; [apply (backups_table_same_info _ _ _ Hu)|].
  eapply same_info_trans.
  - apply (related_same_info keeps_value); [intros r r' Hk; apply Hk|].
    apply rescale_auction_keeps.
  - apply (related_same_info keeps_value); [intros r r' Hk; apply Hk|].
    apply label_free_agents_keeps.
Qed.

(** The table the shell starts from lists every input player exactly once
    (no player is lost or doubled by the pipeline), is indexed 0, 1, ...,
    N-1 from the top, and is sorted by auction value, highest first, rows
    without a value last. *)
Theorem startup_table_lists_every_player_once_by_auction_value :
  forall (lg : league) (players : list player_info) (df : frame),
    startup_table lg players = Return df ->
    map fst df = map Z.of_nat (seq 0 (length players))
    /\ Permutation (map (fun x => info (snd x)) df) players
    /\ StronglySorted (fun r r' => key_le false (auction r) (auction r') = true)
                      (map snd df).
Proof.
  intros lg players df H. unfold startup_table in H.
  apply bind_return in H as [dfv [Hv H]]. injection H as <-.
  destruct (Forall2_same_info _ _ (value_table_same_info _ _ _ Hv)) as [Hl Hi].
  unfold sort_and_reindex. split; [|split].
  - rewrite enumerate_labels, length_map, sort_values_length.
    rewrite <- (length_map fst dfv), Hl, initial_frame_labels, length_map, length_seq.
    reflexivity.
  - rewrite <- (map_map snd info), enumerate_values.
    rewrite <- (initial_frame_infos players), <- Hi, <- (map_map snd info dfv).
    apply Permutation_map, Permutation_map, sort_values_perm.
  - rewrite enumerate_values. apply sorted_rows. apply (sort_values_sorted auction false).
Qed.


Lemma startup_table_lists_every_player_once_by_auction_value_witness :
  map fst sample_table = map Z.of_nat (seq 0 (length sample_pool))
  /\ Permutation (map (fun x => info (snd x)) sample_table) sample_pool.
Proof.
  destruct (startup_table_lists_every_player_once_by_auction_value
              sample_league sample_pool sample_table sample_table_runs) as (H1 & H2 & _).
  split; assumption.
Defined.

(** *** Auction values and the minimum bid *)

Definition no_auction (x : Z * row) : Prop := auction (snd x) = None.
Definition auction_ok (x : Z * row) : Prop :=
  match auction (snd x) with Some a => 0 <= a | None => True end.

Lemma assign_where_Forall (P : Z * row -> Prop) mask f df :
  Forall P df ->
  (forall r, In r df -> P r -> mask r = true -> P (fst r, f r)) ->
  Forall P (assign_where mask f df).
Proof.
  intros H Hf. unfold assign_where. apply Forall_map.
  rewrite List.Forall_forall in H |- *. intros r Hr.
  destruct (mask r) eqn:E; [apply Hf; auto | apply H, Hr].
Qed.

Lemma fold_left_Forall {A : Type} (P : Z * row -> Prop) (step : frame -> A -> frame) xs :
  (forall d x, Forall P d -> Forall P (step d x)) ->
  forall df, Forall P df -> Forall P (fold_left step xs df).
Proof.
  intros Hstep. induction xs as [|x xs IH]; intros df H; [exact H|].
  cbn [fold_left]. apply IH, Hstep, H.
Qed.

Lemma vols_pos_no_auction bl df p df' :
  vols_pos bl df p = Return df' -> Forall no_auction df -> Forall no_auction df'.
Proof.
  intros H Hall. unfold vols_pos in H.
  apply bind_return in H as [w [_ H]]. apply bind_return in H as [w' [_ H]].
  injection H as <-. apply assign_where_Forall; [exact Hall|].
  intros r _ Hr _. exact Hr.
Qed.

Lemma label_classes_no_auction mk n nt sorted df :
  Forall no_auction df -> Forall no_auction (label_classes mk n nt sorted df).
Proof.
  unfold label_classes. apply fold_left_Forall. intros d x Hd.
  apply assign_where_Forall; [exact Hd|]. intros r _ Hr _. exact Hr.
Qed.

Lemma label_starters_no_auction lg df :
  Forall no_auction df -> Forall no_auction (label_starters lg df).
Proof.
  intros H. unfold label_starters, label_flex. apply label_classes_no_auction.
  revert H. apply fold_left_Forall. intros d p Hd. unfold label_starters_pos.
  apply label_classes_no_auction, Hd.
Qed.

Lemma rebaseline_no_auction df : Forall no_auction df -> Forall no_auction (rebaseline df).
Proof.
  unfold rebaseline. apply fold_left_Forall. intros d p Hd. unfold rebaseline_pos.
  apply assign_where_Forall; [exact Hd|]. intros r _ Hr _. exact Hr.
Qed.

Lemma initial_frame_no_auction players : Forall no_auction (initial_frame players).
Proof.
  apply List.Forall_forall. intros x Hx. unfold initial_frame in Hx.
  apply enumerate_In_snd in Hx. apply in_map_iff in Hx as [i [Hi _]].
  unfold no_auction. rewrite <- Hi. reflexivity.
Qed.

Lemma auction_multiplier_nonneg p req x m :
  auction_multiplier p req x = Return m -> 0 <= m.
Proof.
  unfold auction_multiplier. destruct (in_list p ["K"; "DST"]%string).
  - intros H. injection H as <-. apply Qle_refl.
  - destruct (req =? 0)%Z; [discriminate|].
    intros H. injection H as <-.
    destruct (Qlt_bool _ 0) eqn:E; [apply Qle_refl|].
    unfold Qlt_bool in E. apply negb_false_iff in E. apply Qle_bool_iff in E. exact E.
Qed.

Lemma max0_nonneg v : 0 <= max0 v.
Proof.
  destruct v as [a|]; simpl; [|apply Qle_refl].
  destruct (Qlt_bool 0 a) eqn:E; [|apply Qle_refl].
  unfold Qlt_bool in E. apply negb_true_iff in E.
  apply Qlt_le_weak, Qnot_le_lt. intros Hle. apply Qle_bool_iff in Hle. congruence.
Qed.

Lemma rank_auction_step_ok p req df e df' :
  rank_auction_step p req df e = Return df' -> Forall auction_ok df -> Forall auction_ok df'.
Proof.
  intros H Hall. unfold rank_auction_step in H.
  apply bind_return in H as [m [Hm H]]. injection H as <-.
  apply assign_where_Forall; [exact Hall|]. intros r _ _ _.
  unfold auction_ok. cbn. apply Qmult_le_0_compat.
  - eapply auction_multiplier_nonneg, Hm.
  - apply max0_nonneg.
Qed.

Lemma value_pos_ok tb ts sr bm df p df' :
  value_pos tb ts sr bm df p = Return df' -> Forall auction_ok df -> Forall auction_ok df'.
Proof.
  intros H Hall. unfold value_pos in H. cbv zeta in H.
  destruct (sr - ts =? 0)%Z; [discriminate|].
  match type of H with for_each ?body ?items ?init = _ =>
    apply (for_each_invariant body (fun _ st => Forall auction_ok st) items [] init df')
  end; [| |exact H].
  - apply assign_where_Forall; [apply assign_where_Forall; [exact Hall|]|].
    + intros r _ Hr _. exact Hr.
    + intros r _ Hr _. exact Hr.
  - intros pre x st st' Hst Hb. eapply rank_auction_step_ok; eassumption.
Qed.

Lemma no_auction_ok df : Forall no_auction df -> Forall auction_ok df.
Proof.
  apply List.Forall_impl. intros x H. unfold auction_ok, no_auction in *. rewrite H. exact I.
Qed.

Lemma backups_table_auction_ok lg players dfu :
  backups_table lg players = Return dfu -> Forall auction_ok dfu.
Proof.
  intros Hu. unfold backups_table in Hu.
  apply bind_return in Hu as [bl [_ Hu]].
  apply bind_return in Hu as [dfv [Hv Hu]].
  apply bind_return in Hu as [dfa [Ha Hu]].
  injection Hu as <-.
  assert (Hv' : Forall no_auction dfv).
  { apply (for_each_invariant (vols_pos bl) (fun _ st => Forall no_auction st)
             main_positions [] (initial_frame players) dfv);
      [apply initial_frame_no_auction | | exact Hv].
    intros pre x st st' Hst Hb. eapply vols_pos_no_auction; eassumption. }
  assert (Hr : Forall auction_ok (rebaseline (label_starters lg dfv))).
  { apply no_auction_ok, rebaseline_no_auction, label_starters_no_auction, Hv'. }
  assert (Hdfa : Forall auction_ok dfa).
  { match type of Ha with for_each ?body ?items ?init = _ =>
      apply (for_each_invariant body (fun _ st => Forall auction_ok st) items [] init dfa)
    end; [exact Hr | | exact Ha].
    intros pre x st st' Hst Hb. eapply value_pos_ok; eassumption. }
  apply List.Forall_forall. intros y Hy.
  destruct (Forall2_In_r _ _ _ _ (label_backups_rel _ _ dfa) Hy) as [x [Hx (_ & _ & _ & B4 & _)]].
  rewrite List.Forall_forall in Hdfa. specialize (Hdfa x Hx).
  unfold auction_ok in *. rewrite B4. exact Hdfa.
Qed.

Lemma col_sum_nonneg cells :
  Forall (fun c => match c with Some a => 0 <= a | None => True end) cells ->
  0 <= col_sum cells.
Proof.
  induction 1 as [|c cells Hc _ IH]; simpl; [apply Qle_refl|].
  destruct c as [a|]; [lra | exact IH].
Qed.

Lemma finish_map c df : finish c df = map (finish_one c) df.
Proof.
  induction df as [|x df IH]; [reflexivity|]. rewrite finish_cons, IH. reflexivity.
Qed.

Lemma finish_one_free_agent c x a :
  auction (snd x) = Some a -> tiered x = false ->
  tier (snd (finish_one c x)) = Some FA /\ auction (snd (finish_one c x)) = Some (a * c).
Proof.
  intros Ha Ht. unfold finish_one, tiered in *. simpl.
  destruct (tier (snd x)) as [t|] eqn:E; [discriminate Ht|]. simpl. rewrite E, Ha.
  split; reflexivity.
Qed.

Lemma finish_one_keeps_tier c x :
  tiered x = true -> tier (snd (finish_one c x)) = tier (snd x).
Proof.
  intros Ht. unfold finish_one, tiered in *. simpl.
  destruct (tier (snd x)) as [t|] eqn:E; [|discriminate Ht]. simpl. rewrite E. simpl.
  exact E.
Qed.

(** When the unscaled auction points do not add up to zero and the league
    cap covers the minimum bids, the start-up table prices every player:
    a free agent ('FA') at 0, and every other player, each of whom carries a
    tier label, at the minimum bid of 1 or more. *)
Theorem startup_auction_values_start_at_the_minimum_bid :
  forall (lg : league) (players : list player_info) (dfu : frame),
    Forall (fun i => In (pos i) main_positions) players ->
    backups_table lg players = Return dfu ->
    ~ total_auction_pts dfu == 0 ->
    (0 <= avail_cap lg)%Z ->
    exists df,
      startup_table lg players = Return df
      /\ forall x, In x df ->
           exists a, auction (snd x) = Some a
                     /\ ((tier (snd x) = Some FA /\ a == 0)
                         \/ (non_fa (snd x) = true /\ tier (snd x) <> None
                             /\ inject_Z minbid <= a)).
Proof.
  intros lg players dfu Hpos Hu Htot Hcap.
  pose proof (backups_table_settled lg players dfu Hpos Hu) as Hset.
  pose proof (backups_table_auction_ok lg players dfu Hu) as Hok.
  set (c := inject_Z (avail_cap lg) / total_auction_pts dfu).
  assert (Htot0 : 0 <= total_auction_pts dfu).
  { unfold total_auction_pts. apply col_sum_nonneg. apply Forall_map.
    eapply List.Forall_impl; [|exact Hok]. intros x Hx. exact Hx. }
  assert (Hc : 0 <= c).
  { unfold c. apply Qle_shift_div_l; [lra|]. rewrite Qmult_0_l.
    change 0 with (inject_Z 0). rewrite <- Zle_Qle. exact Hcap. }
  exists (sort_and_reindex (finish c dfu)). split.
  { unfold startup_table, value_table. rewrite Hu. cbn [bind]. rewrite rescale_finish.
    reflexivity. }
  intros x Hx. apply (in_map snd) in Hx.
  apply (Permutation_in _ (sort_and_reindex_rows (finish c dfu))) in Hx.
  rewrite finish_map, map_map in Hx. apply in_map_iff in Hx as [x0 [E Hx0]].
  rewrite List.Forall_forall in Hset, Hok.
  destruct (Hset x0 Hx0) as [[a [Ha Hzero]] Hfa]. specialize (Hok x0 Hx0).
  unfold auction_ok in Hok. rewrite Ha in Hok.
  destruct (tiered x0) eqn:Ht.
  - destruct (finish_one_tiered c x0 a Ha Hfa Ht) as [Hn Hv].
    exists (a * c + inject_Z minbid). rewrite <- E. split; [exact Hv|]. right.
    split; [exact Hn|]. split.
    + rewrite (finish_one_keeps_tier c x0 Ht). unfold tiered in Ht.
      destruct (tier (snd x0)); [discriminate | discriminate Ht].
    + assert (0 <= a * c) by (apply Qmult_le_0_compat; assumption). lra.
  - destruct (finish_one_free_agent c x0 a Ha Ht) as [Hn Hv].
    exists (a * c). rewrite <- E. split; [exact Hv|]. left. split; [exact Hn|].
    rewrite (Hzero eq_refl). ring.
Qed.

Lemma startup_auction_values_start_at_the_minimum_bid_witness :
  exists df,
    startup_table sample_league sample_pool = Return df
    /\ forall x, In x df ->
         exists a, auction (snd x) = Some a
                   /\ ((tier (snd x) = Some FA /\ a == 0)
                       \/ (non_fa (snd x) = true /\ tier (snd x) <> None
                           /\ inject_Z minbid <= a)).
Proof.
  apply (startup_auction_values_start_at_the_minimum_bid sample_league sample_pool
           sample_backups).
  - apply List.Forall_forall. intros i Hi. vm_compute in Hi.
    repeat (destruct Hi as [Hi|Hi]; [subst i; vm_compute; tauto|]). destruct Hi.
  - exact sample_backups_runs.
  - intros H. apply Qeq_bool_iff in H. vm_compute in H. discriminate.
  - vm_compute. discriminate.
Defined.

End StartupFacts.

(** ** draft_app.py: leagues the start-up pipeline cannot value *)
Module StartupErrors.
Import Draft DraftFacts.

(** The keys of [games_needed]. *)
Definition slot_kinds : list string := main_positions ++ ["FLEX"%string].

(** What the baseline loop keeps true of a slot kind [k] that needs no
    games: it never needs any, and it never gets a baseline. *)
Definition starved (k : string) (st : gmap string Q * gmap string Q) : Prop :=
  (exists v, fst st !! k = Some v /\ v <= 0)
  /\ snd st !! k = None
  /\ (forall q, In q main_positions -> exists v, fst st !! q = Some v /\ 0 <= v)
  /\ (exists v, fst st !! "FLEX"%string = Some v).

Lemma main_not_flex q : In q main_positions -> q <> "FLEX"%string.
Proof. intros H E. subst q. cbn in H. intuition discriminate. Qed.

Lemma Qlt_bool_true a b : Qlt_bool a b = true -> a < b.
Proof.
  unfold Qlt_bool. intros H. apply negb_true_iff in H.
  apply Qnot_le_lt. intros Hle. apply Qle_bool_iff in Hle. congruence.
Qed.

Lemma Qlt_bool_false a b : Qlt_bool a b = false -> b <= a.
Proof.
  unfold Qlt_bool. intros H. apply negb_false_iff in H. apply Qle_bool_iff, H.
Qed.

Lemma games_step_starved k st x :
  starved k st -> In (rpos x) main_positions -> 0 <= g (info (snd x)) ->
  exists st', games_step st x = Return st' /\ starved k st'.
Proof.
  intros (A & B & C & D) Hp Hg. destruct st as [gn bl]. cbn [fst snd] in *.
  unfold games_step. cbv zeta. cbn [fst snd].
  set (p := rpos x) in *. set (games := g (info (snd x))) in *.
  destruct (C p Hp) as [gneeded [Hgn Hge]].
  pose proof (main_not_flex p Hp) as Hpf.
  destruct A as [vk [Hk Hvk]]. destruct D as [gflex Hfl].
  unfold dict_get at 1. rewrite Hgn. cbn [bind].
  assert (Hkp : 0 < gneeded -> k <> p).
  { intros Hpos E. subst k. rewrite Hgn in Hk. injection Hk as <-. lra. }
  destruct (Qlt_bool games gneeded) eqn:E1.
  { apply Qlt_bool_true in E1. specialize (Hkp ltac:(lra)).
    eexists. split; [reflexivity|]. unfold starved. cbn [fst snd]. split; [|split; [|split]].
    - exists vk. rewrite lookup_insert_ne by congruence. split; assumption.
    - exact B.
    - intros q Hq. destruct (decide (q = p)) as [->|Hne].
      + eexists. rewrite lookup_insert_eq. split; [reflexivity | lra].
      + rewrite lookup_insert_ne by congruence. apply C, Hq.
    - exists gflex. rewrite lookup_insert_ne by congruence. exact Hfl. }
  apply Qlt_bool_false in E1.
  destruct (Qlt_bool 0 gneeded) eqn:E2.
  { apply Qlt_bool_true in E2. specialize (Hkp E2).
    assert (HC : forall q, In q main_positions ->
                   exists v, <[p := 0]> gn !! q = Some v /\ 0 <= v).
    { intros q Hq. destruct (decide (q = p)) as [->|Hne].
      - exists 0. rewrite lookup_insert_eq. split; [reflexivity | lra].
      - rewrite lookup_insert_ne by congruence. apply C, Hq. }
    destruct (in_list p flex_pos).
    - unfold dict_get. rewrite lookup_insert_ne by congruence. rewrite Hfl. cbn [bind].
      eexists. split; [reflexivity|]. unfold starved. cbn [fst snd]. split; [|split; [|split]].
      + destruct (decide (k = "FLEX"%string)) as [->|Hne].
        * eexists. rewrite lookup_insert_eq. split; [reflexivity|].
          rewrite Hfl in Hk. injection Hk as <-. lra.
        * exists vk. rewrite !lookup_insert_ne by congruence. split; assumption.
      + rewrite lookup_insert_ne by congruence. exact B.
      + intros q Hq. rewrite lookup_insert_ne by (apply not_eq_sym, main_not_flex, Hq).
        apply HC, Hq.
      + eexists. rewrite lookup_insert_eq. reflexivity.
    - eexists. split; [reflexivity|]. unfold starved. cbn [fst snd]. split; [|split; [|split]].
      + exists vk. rewrite lookup_insert_ne by congruence. split; assumption.
      + rewrite lookup_insert_ne by congruence. exact B.
      + exact HC.
      + exists gflex. rewrite lookup_insert_ne by congruence. exact Hfl. }
  apply Qlt_bool_false in E2.
  assert (Hz : Qeq_bool gneeded 0 = true) by (apply Qeq_bool_iff; lra).
  rewrite Hz. cbn [negb].
  destruct (in_list p flex_pos).
  - unfold dict_get. rewrite Hfl. cbn [bind].
    assert (Hkf : 0 < gflex -> k <> "FLEX"%string).
    { intros Hpos E. subst k. rewrite Hfl in Hk. injection Hk as <-. lra. }
    destruct (Qlt_bool games gflex) eqn:E3.
    { apply Qlt_bool_true in E3. specialize (Hkf ltac:(lra)).
      eexists. split; [reflexivity|]. unfold starved. cbn [fst snd]. split; [|split; [|split]].
      - exists vk. rewrite lookup_insert_ne by congruence. split; assumption.
      - exact B.
      - intros q Hq. rewrite lookup_insert_ne by (apply not_eq_sym, main_not_flex, Hq).
        apply C, Hq.
      - eexists. rewrite lookup_insert_eq. reflexivity. }
    destruct (Qlt_bool 0 gflex) eqn:E4.
    { apply Qlt_bool_true in E4. specialize (Hkf E4).
      eexists. split; [reflexivity|]. unfold starved. cbn [fst snd]. split; [|split; [|split]].
      - exists vk. rewrite lookup_insert_ne by congruence. split; assumption.
      - rewrite lookup_insert_ne by congruence. exact B.
      - intros q Hq. rewrite lookup_insert_ne by (apply not_eq_sym, main_not_flex, Hq).
        apply C, Hq.
      - eexists. rewrite lookup_insert_eq. reflexivity. }
    eexists. split; [reflexivity|]. unfold starved. cbn [fst snd]. split; [|split; [|split]]; eauto.
  - eexists. split; [reflexivity|]. unfold starved. cbn [fst snd]. split; [|split; [|split]]; eauto.
Qed.

Lemma for_each_starved k rows : forall st,
  starved k st ->
  Forall (fun x => In (rpos x) main_positions /\ 0 <= g (info (snd x))) rows ->
  exists st', for_each games_step rows st = Return st' /\ starved k st'.
Proof.
  induction rows as [|x rows IH]; intros st Hst Hrows.
  - exists st. split; [reflexivity | exact Hst].
  - inversion Hrows as [|x' rows' [Hp Hg] Hrest]; subst.
    destruct (games_step_starved k st x Hst Hp Hg) as [st1 [H1 Hst1]].
    rewrite for_each_cons, H1. cbn [bind]. apply IH; assumption.
Qed.


Lemma initial_games_main lg q :
  In q main_positions ->
  initial_games_needed lg !! q = Some (inject_Z (16 * n_roster_per_league lg q)).
Proof.
  intros Hq. unfold initial_games_needed.
  rewrite lookup_insert_ne by (apply not_eq_sym, main_not_flex, Hq).
  cbn in Hq. destruct Hq as [<-|[<-|[<-|[<-|[<-|[<-|[]]]]]]]; reflexivity.
Qed.

Lemma initial_games_flex lg :
  initial_games_needed lg !! "FLEX"%string
  = Some (inject_Z (16 * n_roster_per_league lg "FLEX")).
Proof. unfold initial_games_needed. apply lookup_insert_eq. Qed.

Lemma initial_starved lg k :
  (forall q, In q main_positions -> (0 <= n_roster_per_league lg q)%Z) ->
  In k slot_kinds -> n_roster_per_league lg k = 0%Z ->
  starved k (initial_games_needed lg, ∅).
Proof.
  intros Hnn Hk Hz. unfold starved. cbn [fst snd]. split; [|split; [|split]].
  - exists (inject_Z (16 * n_roster_per_league lg k)). split.
    + unfold slot_kinds in Hk. apply in_app_or in Hk as [Hk|[<-|[]]].
      * apply initial_games_main, Hk.
      * apply initial_games_flex.
    + rewrite Hz. apply Qle_refl.
  - apply lookup_empty.
  - intros q Hq. eexists. split; [apply initial_games_main, Hq|].
    change 0 with (inject_Z 0). rewrite <- Zle_Qle. specialize (Hnn q Hq). lia.
  - eexists. apply initial_games_flex.
Qed.

Lemma vols_pos_outcome bl df p :
  match vols_pos bl df p with
  | Return _ => bl !! p <> None /\ (in_list p flex_pos = true -> bl !! "FLEX"%string <> None)
  | Raise e => e = KeyError p \/ e = KeyError "FLEX"
  end.
Proof.
  unfold vols_pos, dict_get. destruct (bl !! p) as [w|]; cbn [bind]; [|left; reflexivity].
  destruct (in_list p flex_pos).
  - destruct (bl !! "FLEX"%string) as [wf|]; cbn [bind]; [|right; reflexivity].
    split; [discriminate | intros _; discriminate].
  - cbn [bind]. split; [discriminate | intros H; discriminate H].
Qed.

Lemma vols_stage_raises bl k :
  bl !! k = None ->
  forall ps df,
    (In k ps \/ (k = "FLEX"%string /\ exists p, In p ps /\ in_list p flex_pos = true)) ->
    exists key, (In key ps \/ key = "FLEX"%string)
                /\ for_each (vols_pos bl) ps df = Raise (KeyError key).
Proof.
  intros Hk ps. induction ps as [|p ps IH]; intros df Hin.
  - exfalso. destruct Hin as [[]|[_ [p [[] _]]]].
  - rewrite for_each_cons. pose proof (vols_pos_outcome bl df p) as Hout.
    destruct (vols_pos bl df p) as [df1|e]; cbn [bind].
    + destruct Hout as [Hp Hflex].
      destruct (IH df1) as [key [Hkey Hr]].
      { destruct Hin as [[->|Hin]|[-> [p' [[->|Hp'] Hf]]]].
        - contradiction.
        - left. exact Hin.
        - exfalso. apply (Hflex Hf), Hk.
        - right. split; [reflexivity|]. exists p'. split; assumption. }
      exists key. split; [|exact Hr]. destruct Hkey as [Hkey|Hkey]; [left; right|right]; assumption.
    + destruct Hout as [He|He]; subst e.
      * exists p. split; [left; left; reflexivity | reflexivity].
      * exists "FLEX"%string. split; [right; reflexivity | reflexivity].
Qed.

(** A league that has no slot of one kind (no team, or a count of zero for
    one of the six positions or for FLEX) cannot be valued: whatever the
    players of a pool that is not empty (positions among the six, games not
    negative), the baseline loop never records a baseline for that kind and
    the start-up pipeline stops with a [KeyError] for one of the slot
    kinds. *)
Theorem startup_fails_for_a_league_without_a_slot_kind :
  forall (lg : league) (players : list player_info) (k : string),
    (forall q, In q main_positions -> (0 <= n_roster_per_league lg q)%Z) ->
    players <> [] ->
    Forall (fun i => In (pos i) main_positions /\ 0 <= g i) players ->
    In k slot_kinds ->
    n_roster_per_league lg k = 0%Z ->
    exists key, In key slot_kinds /\ startup_table lg players = Raise (KeyError key).
Proof.
  intros lg players k Hnn _ Hplayers Hk Hz.
  pose proof (initial_starved lg k Hnn Hk Hz) as Hinit.
  assert (Hrows : Forall (fun x => In (rpos x) main_positions /\ 0 <= g (info (snd x)))
                         (sort_values (fun r => Some (ppg r)) false (initial_frame players))).
  { apply List.Forall_forall. intros x Hx. apply sort_values_In in Hx.
    apply initial_frame_info in Hx. rewrite List.Forall_forall in Hplayers.
    apply (Hplayers _ Hx). }
  destruct (for_each_starved k _ _ Hinit Hrows) as [st [Hst (_ & Hbl & _ & _)]].
  destruct (vols_stage_raises (snd st) k Hbl main_positions (initial_frame players))
    as [key [Hkey Hr]].
  { unfold slot_kinds in Hk. apply in_app_or in Hk as [Hk|[<-|[]]].
    - left. exact Hk.
    - right. split; [reflexivity|]. exists "RB"%string. split; [cbn; tauto | reflexivity]. }
  exists key. split.
  { unfold slot_kinds. apply in_or_app. destruct Hkey as [Hkey| ->]; [left; exact Hkey|].
    right. left. reflexivity. }
  unfold startup_table, value_table, backups_table, ppg_baselines.
  rewrite Hst. cbn [bind]. rewrite Hr. reflexivity.
Qed.

(** A league without FLEX spots. *)
Definition no_flex_league : league :=
  {| n_teams := 2; n_qb := 1; n_rb := 1; n_wr := 1; n_te := 1; n_flex := 0;
     n_dst := 1; n_k := 1; n_bench := 1 |}.

Lemma startup_fails_for_a_league_without_a_slot_kind_witness :
  exists key, In key slot_kinds
              /\ startup_table no_flex_league sample_pool = Raise (KeyError key).
Proof.
  apply (startup_fails_for_a_league_without_a_slot_kind no_flex_league sample_pool
           "FLEX"%string).
  - intros q Hq. cbn in Hq.
    destruct Hq as [<-|[<-|[<-|[<-|[<-|[<-|[]]]]]]]; vm_compute; discriminate.
  - discriminate.
  - apply List.Forall_forall. intros i Hi. vm_compute in Hi.
    repeat (destruct Hi as [Hi|Hi]; [subst i; split; [vm_compute; tauto | discriminate]|]).
    destruct Hi.
  - unfold slot_kinds. apply in_or_app. right. left. reflexivity.
  - reflexivity.
Defined.

End StartupErrors.

(** ** draft_app.py: more on picking, recommending and the 'vorp' column *)
Module CommandFacts.
Import Draft Shell DraftFacts ShellFacts StartupFacts.

Lemma assign_vorp_rows p (v : Z * row -> option Q) df x :
  In x (assign_where (at_pos p) (fun r => set_vorp (v r) (snd r)) df) ->
  rpos x = p \/ In x df.
Proof.
  unfold assign_where. intros H. apply in_map_iff in H as [r [E Hr]].
  destruct (at_pos p r) eqn:Hp; [|right; subst x; exact Hr].
  left. subst x. apply at_pos_true in Hp. exact Hp.
Qed.

Lemma update_vorp_pos_rows picked avail p avail' x :
  update_vorp_pos picked avail p = Return avail' -> In x avail' -> rpos x = p \/ In x avail.
Proof.
  unfold update_vorp_pos. cbv zeta.
  repeat match goal with
  | |- context [if ?c then _ else _] => destruct c
  | |- context [match ?o with Some _ => _ | None => _ end] => destruct o
  end; intros H; try discriminate H; injection H as <-; apply assign_vorp_rows.
Qed.

(** [_update_vorp] always returns, and it rewrites nothing but 'vorp' cells:
    the rows, their order, their labels and every other cell stay as they
    were, and a row whose position is not a roster position (a key of the
    roster dictionary other than FLEX and BENCH) is not touched at all. *)
Theorem update_vorp_rewrites_only_vorp_cells :
  forall (n_roster : list (string * Z)) (avail picked : frame),
    exists avail',
      _update_vorp n_roster avail picked = Return avail'
      /\ map erase_vorp avail' = map erase_vorp avail
      /\ (forall x, In x avail' -> In (rpos x) (vorp_positions n_roster) \/ In x avail).
Proof.
  intros n_roster avail picked.
  destruct (update_vorp_returns n_roster avail picked) as [avail' [H E]].
  exists avail'. split; [exact H|]. split; [exact E|].
  unfold _update_vorp in H.
  pose proof (for_each_invariant (update_vorp_pos picked)
                (fun done st => forall x, In x st -> In (rpos x) done \/ In x avail)
                (vorp_positions n_roster) [] avail avail') as Hinv.
  cbn [app] in Hinv. apply Hinv; [intros x Hx; right; exact Hx | | exact H].
  intros pre p st st' Hst Hb x Hx.
  destruct (update_vorp_pos_rows _ _ _ _ _ Hb Hx) as [Hp|Hin].
  - left. apply in_or_app. right. left. symmetry. exact Hp.
  - destruct (Hst x Hin) as [Hd|Ha]; [left; apply in_or_app; left; exact Hd | right; exact Ha].
Qed.

Lemma with_tables_same st : with_tables (ap st) (pp st) st = st.
Proof. destruct st. reflexivity. Qed.

(** Picking an index that labels no available player changes nothing: the
    [IndexError] of [pop_from_player_list] is caught, both tables and the
    turn stay as they were, and the command returns. *)
Theorem pick_of_unavailable_index_changes_nothing :
  forall (st : prompt) (i : Z) (conf : string) (mgr : option Z),
    loc i (ap st) = None ->
    _get_current_manager st = Return mgr ->
    (draft_mode st = true -> i_manager_turn st <> None) ->
    do_pick i conf st = (st, Return tt).
Proof.
  intros st i conf mgr Hloc Hmgr Hturn. unfold do_pick. rewrite Hmgr.
  assert (Hpop : forall m k, pop_from_player_list i (ap st) (pp st) m k
                   = (ap st, pp st,
                      Raise (IndexError "The index does not indicate an available player!"))).
  { intros m k. unfold pop_from_player_list. rewrite Hloc. reflexivity. }
  destruct (draft_mode st) eqn:Hd.
  - destruct (i_manager_turn st) as [t|] eqn:Ht; [|exfalso; apply (Hturn eq_refl); reflexivity].
    rewrite Hpop. cbn [except_index_error]. rewrite with_tables_same. reflexivity.
  - rewrite Hpop. cbn [except_index_error]. rewrite with_tables_same. reflexivity.
Qed.

Definition undrafted : prompt :=
  {| ap := board; pp := []; draft_mode := false; i_manager_turn := None;
     manager_picks := []; manager_auto_strats := [];
     n_roster := n_roster_per_team sample_league; disabled_pos := ["K"; "DST"]%string |}.

Lemma pick_of_unavailable_index_changes_nothing_witness :
  do_pick 99 "n" undrafted = (undrafted, Return tt).
Proof.
  apply (pick_of_unavailable_index_changes_nothing undrafted 99 "n" None).
  - reflexivity.
  - reflexivity.
  - intros H. discriminate H.
Defined.


Lemma advance_snake_end_confirmed depth st t :
  i_manager_turn st = Some t ->
  (Z.of_nat (length (manager_picks st)) <= t + 1)%Z ->
  _advance_snake depth "y" st = (with_turn (Some (t + 1)%Z) st, Return tt).
Proof.
  intros Ht Hlen.
  destruct depth; cbn [_advance_snake]; rewrite Ht; cbv zeta;
    cbn [with_turn manager_picks];
    (destruct (Z.of_nat (length (manager_picks st)) <=? t + 1)%Z eqn:E;
       [|apply Z.leb_gt in E; lia]); reflexivity.
Qed.

Lemma advance_snake_end_declined depth conf st t picked i r' :
  i_manager_turn st = Some t ->
  (Z.of_nat (length (manager_picks st)) <= t + 1)%Z ->
  (conf =? "y")%string = false ->
  pp st = picked ++ [(i, r')] ->
  has_label i picked = false ->
  has_label i (ap st) = false ->
  _advance_snake depth conf st
  = (with_turn (Some (t + 1 - 1)%Z)
       (with_tables (ap st ++ [(i, to_available_columns r')]) picked
          (with_turn (Some (t + 1)%Z) st)), Return tt).
Proof.
  intros Ht Hlen Hconf Hpp Hp Ha.
  destruct depth; cbn [_advance_snake]; rewrite Ht; cbv zeta;
    cbn [with_turn manager_picks pp ap];
    (destruct (Z.of_nat (length (manager_picks st)) <=? t + 1)%Z eqn:E;
       [|apply Z.leb_gt in E; lia]);
    rewrite Hconf, Hpp, last_label, (push_last i (ap st) picked r' Hp Ha);
    reflexivity.
Qed.

(** The pick that completes the draft is kept only if the user confirms:
    when the turn after this pick is past the end of the draft sequence,
    answering 'y' leaves the player picked and the turn one past the end;
    any other answer undoes the pick at once, so that the picked table and
    the turn are as before and the available table holds its former rows
    (every cell but 'vorp'), the player being moved to its end. *)
Theorem final_pick_is_kept_only_when_confirmed :
  forall (st : prompt) (i : Z) (conf : string) (r : row) (mgr : option Z) (t : Z),
    loc i (ap st) = Some r ->
    has_label i (pp st) = false ->
    manager r = None -> pick r = None ->
    _get_current_manager st = Return mgr ->
    (mgr <> None -> astype_int Draft.manager (pp st) = Return tt) ->
    draft_mode st = true ->
    i_manager_turn st = Some t ->
    astype_int Draft.pick (pp st) = Return tt ->
    (Z.of_nat (length (manager_picks st)) <= t + 1)%Z ->
    exists st',
      do_pick i conf st = (st', Return tt)
      /\ if (conf =? "y")%string
         then labels (pp st') = labels (pp st) ++ [i]
              /\ i_manager_turn st' = Some (t + 1)%Z
              /\ has_label i (ap st') = false
         else pp st' = pp st
              /\ i_manager_turn st' = Some t
              /\ map erase_vorp (ap st') = map erase_vorp (drop_label i (ap st) ++ [(i, r)]).
Proof.
  intros st i conf r mgr t Hloc Hfresh Hrm Hrp Hmgr Hm Hd Ht Hp Hlen.
  unfold do_pick. rewrite Hmgr, Hd, Ht.
  rewrite (pop_fresh i (ap st) (pp st) mgr (Some (t + 1)%Z) r Hloc Hfresh Hm (fun _ => Hp)).
  destruct (update_vorp_returns (n_roster st) (drop_label i (ap st))
              (pp st ++ [(i, picked_row mgr (Some (t + 1)%Z) r)])) as [ap2 [H2 E2]].
  rewrite H2. cbv zeta.
  assert (Ha2 : has_label i ap2 = false).
  { rewrite (has_label_erase _ _ i E2). apply has_label_drop. }
  destruct (conf =? "y")%string eqn:Hconf.
  - apply String.eqb_eq in Hconf. subst conf.
    rewrite (advance_snake_end_confirmed _
               (with_tables ap2 (pp st ++ [(i, picked_row mgr (Some (t + 1)%Z) r)]) st)
               t Ht Hlen).
    eexists. split; [reflexivity|]. cbn [pp ap i_manager_turn with_turn with_tables].
    split; [unfold labels; rewrite map_app; reflexivity|]. split; [reflexivity | exact Ha2].
  - rewrite (advance_snake_end_declined _ conf
               (with_tables ap2 (pp st ++ [(i, picked_row mgr (Some (t + 1)%Z) r)]) st)
               t (pp st) i (picked_row mgr (Some (t + 1)%Z) r) Ht Hlen Hconf eq_refl
               Hfresh Ha2).
    eexists. split; [reflexivity|]. cbn [pp ap i_manager_turn with_turn with_tables].
    split; [reflexivity|]. split; [f_equal; lia|].
    rewrite !map_app, E2. f_equal. cbn [map]. unfold erase_vorp. cbn [fst snd].
    rewrite (restored_row r mgr (Some (t + 1)%Z) Hrm Hrp). reflexivity.
Qed.

(** The last turn of a four-pick draft on [board], three players picked. *)
Definition last_turn : prompt :=
  {| ap := [ (3, board_row "RB A" "RB" 35 (Starter "RB" 1));
             (4, board_row "QB B" "QB" 10 BU) ]%Z;
     pp := [ (1, set_pick (Some 1%Z) (set_manager (Some 1%Z)
                   (board_row "QB A" "QB" 30 (Starter "QB" 1))));
             (5, set_pick (Some 2%Z) (set_manager (Some 2%Z)
                   (board_row "WR A" "WR" 20 (Starter "WR" 1))));
             (0, set_pick (Some 3%Z) (set_manager (Some 2%Z)
                   (board_row "K A" "K" 50 (Starter "K" 1)))) ]%Z;
     draft_mode := true; i_manager_turn := Some 3%Z;
     manager_picks := [1; 2; 2; 1]%Z; manager_auto_strats := [];
     n_roster := n_roster_per_team sample_league; disabled_pos := [] |}.

Lemma final_pick_is_kept_only_when_confirmed_witness :
  exists st',
    do_pick 3 "n" last_turn = (st', Return tt)
    /\ pp st' = pp last_turn /\ i_manager_turn st' = Some 3%Z.
Proof.
  destruct (final_pick_is_kept_only_when_confirmed last_turn 3 "n"
              (board_row "RB A" "RB" 35 (Starter "RB" 1)) (Some 1%Z) 3)
    as (st' & H & Hpp & Ht & _).
  - vm_compute. reflexivity.
  - reflexivity.
  - reflexivity.
  - reflexivity.
  - vm_compute. reflexivity.
  - intros _. reflexivity.
  - reflexivity.
  - reflexivity.
  - reflexivity.
  - vm_compute. discriminate.
  - exists st'. split; [exact H|]. split; assumption.
Defined.


(** The positions [_pick_rec] draws its recommendation from: the acceptable
    ones that are not disabled, or the four key positions when none is
    left. *)
Definition considered_positions (n_roster : list (string * Z)) (roster : frame)
    (disabled : list string) : list string :=
  let acceptable :=
    List.filter (fun p => negb (in_list p disabled)) (acceptable_positions n_roster roster) in
  match acceptable with [] => key_positions | _ :: _ => acceptable end.

Lemma key_le_refl asc a : key_le asc a a = true.
Proof.
  destruct a as [x|]; [|reflexivity]. simpl.
  destruct asc; apply Qle_bool_iff, Qle_refl.
Qed.

Lemma sorted_head_first key asc (df : frame) top rest x :
  sort_values key asc df = top :: rest -> In x df ->
  key_le asc (key (snd top)) (key (snd x)) = true.
Proof.
  intros Hs Hx. pose proof (sort_values_sorted key asc df) as Hsorted.
  rewrite Hs in Hsorted. inversion Hsorted as [|t l _ Hall]; subst.
  apply (sort_values_In key asc) in Hx. rewrite Hs in Hx. destruct Hx as [<-|Hx].
  - apply key_le_refl.
  - rewrite List.Forall_forall in Hall. apply (Hall x Hx).
Qed.

(** A recommendation is a best choice: the index [_pick_rec] returns labels
    an available player at one of the considered positions, and no available
    player at a considered position sorts before him on the strategy's
    column (higher is better, except for 'adp' and 'ecp' where lower is
    better; a missing value is worst).  The table is the one the call leaves:
    the given one, or for 'vorp' the one [_update_vorp] has refreshed. *)
Theorem recommendation_is_a_best_available_player :
  forall (n_roster : list (string * Z)) (mgr : option Z) (strat : strategy)
         (avail picked : frame) (disabled : list string) (avail' : frame) (i : Z),
    _pick_rec n_roster mgr strat avail picked disabled = (avail', Return i) ->
    (strat <> Vorp -> avail' = avail)
    /\ (strat = Vorp -> _update_vorp n_roster avail picked = Return avail')
    /\ exists r,
         In (i, r) avail'
         /\ In (pos (info r))
               (considered_positions n_roster (_get_manager_roster mgr picked) disabled)
         /\ forall j r',
              In (j, r') avail' ->
              In (pos (info r'))
                 (considered_positions n_roster (_get_manager_roster mgr picked) disabled) ->
              key_le (strat_ascending strat) (strat_column strat r) (strat_column strat r')
              = true.
Proof.
  intros n_roster mgr strat avail picked disabled avail' i H.
  set (cons := considered_positions n_roster (_get_manager_roster mgr picked) disabled).
  assert (H' : match (match strat with
                      | Vorp => _update_vorp n_roster avail picked
                      | _ => Return avail
                      end) with
               | Return ap1 =>
                   match sort_values (strat_column strat) (strat_ascending strat)
                           (List.filter (fun r => in_list (rpos r) cons) ap1) with
                   | [] => (ap1, Raise (IndexError
                                          "index 0 is out of bounds for axis 0 with size 0"))
                   | top :: _ => (ap1, Return (fst top))
                   end
               | Raise e => (avail, Raise e)
               end = (avail', Return i)) by exact H.
  clear H. rename H' into H.
  destruct (match strat with Vorp => _update_vorp n_roster avail picked | _ => Return avail end)
    as [ap1|e] eqn:Hup; [|discriminate H].
  destruct (sort_values (strat_column strat) (strat_ascending strat)
              (List.filter (fun r => in_list (rpos r) cons) ap1)) as [|top rest] eqn:Hsort;
    [discriminate H|]. injection H as Hav Hi. subst avail' i.
  split; [|split].
  - intros Hs. destruct strat; try (injection Hup as <-; reflexivity). contradiction.
  - intros ->. exact Hup.
  - assert (Hin : In top (List.filter (fun r => in_list (rpos r) cons) ap1)).
    { apply (sort_values_In (strat_column strat) (strat_ascending strat)).
      rewrite Hsort. left. reflexivity. }
    apply filter_In in Hin as [Hin Hpos]. apply in_list_In in Hpos.
    destruct top as [i r]. exists r. split; [exact Hin|]. split; [exact Hpos|].
    intros j r' Hj Hc.
    apply (sorted_head_first (strat_column strat) (strat_ascending strat) _ _ _ (j, r') Hsort).
    apply filter_In. split; [exact Hj|]. apply in_list_In. exact Hc.
Qed.

Lemma recommendation_is_a_best_available_player_witness :
  exists r,
    In (3%Z, r) board
    /\ forall j r',
         In (j, r') board ->
         In (pos (info r')) (considered_positions (n_roster_per_team sample_league)
                               (_get_manager_roster None []) ["K"; "DST"]%string) ->
         key_le false (vols r) (vols r') = true.
Proof.
  destruct (recommendation_is_a_best_available_player (n_roster_per_team sample_league)
              None Vols board [] ["K"; "DST"]%string board 3)
    as (_ & _ & r & Hin & _ & Hbest).
  - vm_compute. reflexivity.
  - exists r. split; [exact Hin | exact Hbest].
Defined.

End CommandFacts.

(** ** draft_app.py: the commands that disable and enable positions *)
Module Positions.
Import Draft Shell DraftFacts ShellFacts.

(** [s.split(' ')]: one more word than there are spaces; words may be
    empty. *)
Fixpoint split_space (s : string) : list string :=
  match s with
  | EmptyString => [EmptyString]
  | String c rest =>
      if Ascii.eqb c " " then EmptyString :: split_space rest
      else match split_space rest with
           | w :: ws => String c w :: ws
           | [] => [String c EmptyString]
           end
  end.

(** [l.remove(x)]: the first occurrence goes. *)
Fixpoint remove_first (x : string) (l : list string) : list string :=
  match l with
  | [] => []
  | y :: rest => if (y =? x)%string then rest else y :: remove_first x rest
  end.

Definition with_disabled (d : list string) (st : prompt) : prompt :=
  {| ap := ap st; pp := pp st; draft_mode := draft_mode st;
     i_manager_turn := i_manager_turn st; manager_picks := manager_picks st;
     manager_auto_strats := manager_auto_strats st; n_roster := n_roster st;
     disabled_pos := d |}.

(** The body of the loop of [do_disable_pos]. *)
Definition disable_word (disabled : list string) (word : string) : list string :=
  let upos := upper word in
  if in_list upos disabled then disabled
  else if in_list upos ["QB"; "RB"; "WR"; "TE"; "K"; "DST"]%string then disabled ++ [upos]
  else disabled.

Definition do_disable_pos (args : string) (st : prompt) : prompt :=
  with_disabled (fold_left disable_word (split_space args) (disabled_pos st)) st.

(** The body of the loop of [do_enable_pos]. *)
Definition enable_word (disabled : list string) (word : string) : list string :=
  let upos := upper word in
  if in_list upos disabled then remove_first upos disabled else disabled.

Definition do_enable_pos (args : string) (st : prompt) : prompt :=
  with_disabled (fold_left enable_word (split_space args) (disabled_pos st)) st.

Example split_space_examples :
  split_space "k dst" = ["k"; "dst"]%string
  /\ split_space " a  b" = [""; "a"; ""; "b"]%string
  /\ split_space "" = [""]%string.
Proof. repeat split. Qed.

Lemma in_list_false s l : in_list s l = false <-> ~ In s l.
Proof.
  split.
  - intros H Hin. apply in_list_In in Hin. congruence.
  - intros H. destruct (in_list s l) eqn:E; [|reflexivity].
    exfalso. apply H, in_list_In, E.
Qed.

(** What [do_disable_pos] appends. *)
Lemma disable_words_add words : forall base,
  exists added,
    fold_left disable_word words base = base ++ added
    /\ List.NoDup added
    /\ (forall a, In a added ->
          ~ In a base /\ In a main_positions /\ exists w, In w words /\ a = upper w)
    /\ (forall w, In w words -> In (upper w) main_positions ->
          In (upper w) (base ++ added)).
Proof.
  induction words as [|w words IH]; intros base.
  - exists []. rewrite app_nil_r. split; [reflexivity|]. split; [constructor|].
    split; [intros a []|intros w []].
  - cbn [fold_left]. unfold disable_word at 2. cbv zeta.
    destruct (in_list (upper w) base) eqn:Hin.
    + destruct (IH base) as (added & E & Hnd & Hadd & Hall).
      exists added. split; [exact E|]. split; [exact Hnd|]. split.
      * intros a Ha. destruct (Hadd a Ha) as (H1 & H2 & w' & Hw' & Ea).
        split; [exact H1|]. split; [exact H2|]. exists w'. split; [right; exact Hw' | exact Ea].
      * intros w' [<-|Hw'] Hm; [|apply Hall; assumption].
        apply in_or_app. left. apply in_list_In, Hin.
    + apply in_list_false in Hin.
      destruct (in_list (upper w) ["QB"; "RB"; "WR"; "TE"; "K"; "DST"]%string) eqn:Hsix.
      * destruct (IH (base ++ [upper w])) as (added & E & Hnd & Hadd & Hall).
        exists (upper w :: added). rewrite E, <- app_assoc. split; [reflexivity|].
        split.
        { constructor; [|exact Hnd]. intros Ha. destruct (Hadd _ Ha) as [Hn _].
          apply Hn, in_or_app. right. left. reflexivity. }
        split.
        { intros a [<-|Ha].
          - split; [exact Hin|]. split; [apply in_list_In, Hsix|].
            exists w. split; [left; reflexivity | reflexivity].
          - destruct (Hadd a Ha) as (H1 & H2 & w' & Hw' & Ea).
            split; [intros Hb; apply H1, in_or_app; left; exact Hb|].
            split; [exact H2|]. exists w'. split; [right; exact Hw' | exact Ea]. }
        intros w' [<-|Hw'] Hm.
        { apply in_or_app. right. left. reflexivity. }
        specialize (Hall w' Hw' Hm). rewrite <- app_assoc in Hall. exact Hall.
      * destruct (IH base) as (added & E & Hnd & Hadd & Hall).
        exists added. split; [exact E|]. split; [exact Hnd|]. split.
        { intros a Ha. destruct (Hadd a Ha) as (H1 & H2 & w' & Hw' & Ea).
          split; [exact H1|]. split; [exact H2|]. exists w'. split; [right; exact Hw' | exact Ea]. }
        intros w' [<-|Hw'] Hm; [|apply Hall; assumption].
        exfalso. apply in_list_In in Hm. unfold main_positions in Hm. congruence.
Qed.

Lemma remove_first_app_r x base l :
  ~ In x base -> remove_first x (base ++ l) = base ++ remove_first x l.
Proof.
  induction base as [|b base IH]; intros H; [reflexivity|].
  cbn [app remove_first]. destruct (b =? x)%string eqn:E.
  - apply String.eqb_eq in E. exfalso. apply H. left. exact E.
  - rewrite IH; [reflexivity|]. intros Hin. apply H. right. exact Hin.
Qed.

Lemma remove_first_NoDup x l :
  List.NoDup l ->
  List.NoDup (remove_first x l)
  /\ ~ In x (remove_first x l)
  /\ (forall a, In a (remove_first x l) -> In a l)
  /\ (forall a, In a l -> a <> x -> In a (remove_first x l)).
Proof.
  induction 1 as [|y l Hy Hnd (IH1 & IH2 & IH3 & IH4)]; cbn [remove_first].
  - split; [constructor|]. split; [intros []|]. split; intros a [].
  - destruct (y =? x)%string eqn:E.
    + apply String.eqb_eq in E. subst y. split; [exact Hnd|]. split; [exact Hy|].
      split; [intros a Ha; right; exact Ha|].
      intros a [<-|Ha] Hne; [contradiction | exact Ha].
    + apply String.eqb_neq in E. split.
      { constructor; [|exact IH1]. intros Hin. apply Hy, IH3, Hin. }
      split.
      { intros [Hx|Hx]; [apply E, Hx | apply IH2, Hx]. }
      split.
      { intros a [<-|Ha]; [left; reflexivity | right; apply IH3, Ha]. }
      intros a [<-|Ha] Hne; [left; reflexivity | right; apply IH4; assumption].
Qed.

(** What [do_enable_pos] takes away again. *)
Lemma enable_words_remove base words : forall added,
  List.NoDup added ->
  (forall a, In a added -> ~ In a base /\ exists w, In w words /\ a = upper w) ->
  (forall w, In w words -> ~ In (upper w) base) ->
  fold_left enable_word words (base ++ added) = base.
Proof.
  induction words as [|w words IH]; intros added Hnd Hadd Hbase.
  - destruct added as [|a added]; [apply app_nil_r|].
    exfalso. destruct (Hadd a (or_introl eq_refl)) as [_ [w [[] _]]].
  - cbn [fold_left]. unfold enable_word at 2. cbv zeta.
    assert (Hwb : ~ In (upper w) base) by (apply Hbase; left; reflexivity).
    destruct (remove_first_NoDup (upper w) added Hnd) as (R1 & R2 & R3 & R4).
    destruct (in_list (upper w) (base ++ added)) eqn:Hin.
    + rewrite (remove_first_app_r _ _ _ Hwb). apply IH; [exact R1| |].
      * intros a Ha. destruct (Hadd a (R3 a Ha)) as [Hn [w' [[<-|Hw'] Ea]]].
        { exfalso. subst a. exact (R2 Ha). }
        split; [exact Hn|]. exists w'. split; assumption.
      * intros w' Hw'. apply Hbase. right. exact Hw'.
    + apply in_list_false in Hin. apply IH; [exact Hnd| |].
      * intros a Ha. destruct (Hadd a Ha) as [Hn [w' [[<-|Hw'] Ea]]].
        { exfalso. subst a. apply Hin, in_or_app. right. exact Ha. }
        split; [exact Hn|]. exists w'. split; assumption.
      * intros w' Hw'. apply Hbase. right. exact Hw'.
Qed.


(** [disable_pos] only appends: the positions already disabled stay where
    they are, each position it adds is one of the six, was not disabled
    before and is added once, and afterwards every word of the arguments
    that names one of the six positions (in any case) is disabled.  Nothing
    else in the prompt changes. *)
Theorem disable_pos_appends_each_named_position_once :
  forall (args : string) (st : prompt),
    exists added,
      do_disable_pos args st = with_disabled (disabled_pos st ++ added) st
      /\ List.NoDup added
      /\ (forall a, In a added -> ~ In a (disabled_pos st) /\ In a main_positions)
      /\ (forall w, In w (split_space args) -> In (upper w) main_positions ->
            In (upper w) (disabled_pos (do_disable_pos args st)))
      /\ (List.NoDup (disabled_pos st) ->
          List.NoDup (disabled_pos (do_disable_pos args st))).
Proof.
  intros args st.
  destruct (disable_words_add (split_space args) (disabled_pos st))
    as (added & E & Hnd & Hadd & Hall).
  exists added. unfold do_disable_pos. rewrite E. split; [reflexivity|].
  split; [exact Hnd|]. split.
  { intros a Ha. destruct (Hadd a Ha) as (H1 & H2 & _). split; assumption. }
  split; [exact Hall|].
  intros Hbase. cbn [disabled_pos with_disabled].
  apply List.NoDup_app; [exact Hbase | exact Hnd |].
  intros a Ha Hb. destruct (Hadd a Hb) as [Hn _]. apply Hn, Ha.
Qed.

Lemma with_disabled_same st : with_disabled (disabled_pos st) st = st.
Proof. destruct st. reflexivity. Qed.

(** [enable_pos] undoes [disable_pos]: when the arguments are ASCII and none
    of their words names a position that is disabled already, disabling and
    then enabling the same arguments gives back the prompt exactly. *)
Theorem enable_pos_undoes_disable_pos :
  forall (args : string) (st : prompt),
    isascii args = true ->
    (forall w, In w (split_space args) -> ~ In (upper w) (disabled_pos st)) ->
    do_enable_pos args (do_disable_pos args st) = st.
Proof.
  intros args st _ Hfresh.
  destruct (disable_words_add (split_space args) (disabled_pos st))
    as (added & E & Hnd & Hadd & _).
  unfold do_enable_pos, do_disable_pos. cbn [disabled_pos with_disabled]. rewrite E.
  rewrite (enable_words_remove (disabled_pos st) (split_space args) added Hnd).
  - destruct st. reflexivity.
  - intros a Ha. destruct (Hadd a Ha) as (H1 & _ & H3). split; assumption.
  - exact Hfresh.
Qed.

Definition all_enabled : prompt :=
  {| ap := board; pp := []; draft_mode := false; i_manager_turn := None;
     manager_picks := []; manager_auto_strats := [];
     n_roster := n_roster_per_team sample_league; disabled_pos := ["QB"]%string |}.

Lemma enable_pos_undoes_disable_pos_witness :
  isascii "k Dst xx k" = true
  /\ disabled_pos (do_disable_pos "k Dst xx k" all_enabled) = ["QB"; "K"; "DST"]%string
  /\ do_enable_pos "k Dst xx k" (do_disable_pos "k Dst xx k" all_enabled) = all_enabled.
Proof.
  split; [reflexivity|]. split; [reflexivity|].
  apply (enable_pos_undoes_disable_pos "k Dst xx k" all_enabled eq_refl).
  intros w Hw. cbn in Hw.
  repeat (destruct Hw as [Hw|Hw]; [subst w; cbn; intuition discriminate|]). destruct Hw.
Defined.

(** Disabling works through to the recommendations: once [disable_pos] has
    been given K or DST (in any case, among other words), no strategy that
    sorts a stored column recommends a player at that position, whatever
    the tables and the rosters are.  (A disabled key position can still be
    recommended, when no other position is left.) *)
Theorem disabled_kicker_or_defence_is_never_recommended :
  forall (args : string) (st : prompt) (strat : strategy) (w p : string)
         (avail' : frame) (i : Z),
    strat <> Vorp ->
    In w (split_space args) -> upper w = p ->
    p = "K"%string \/ p = "DST"%string ->
    recommend strat (do_disable_pos args st) = (avail', Return i) ->
    exists r, In (i, r) (ap st) /\ pos (info r) <> p.
Proof.
  intros args st strat w p avail' i Hstrat Hw Hup Hp Hrec.
  destruct (disable_words_add (split_space args) (disabled_pos st))
    as (added & E & _ & _ & Hall).
  assert (Hdis : In p (disabled_pos (do_disable_pos args st))).
  { unfold do_disable_pos. cbn [disabled_pos with_disabled]. rewrite E, <- Hup.
    apply Hall; [exact Hw|]. rewrite Hup. destruct Hp as [-> | ->]; cbn; tauto. }
  unfold recommend in Hrec.
  change (_get_current_manager (do_disable_pos args st)) with (_get_current_manager st) in Hrec.
  destruct (_get_current_manager st) as [mgr|e]; [|discriminate Hrec].
  change (ap (do_disable_pos args st)) with (ap st) in Hrec.
  destruct (pick_rec_plain_position _ _ _ _ _ _ _ _ Hstrat Hrec) as [_ [r [Hin Hpos]]].
  exists r. split; [exact Hin|]. intros Heq. destruct Hpos as [Hkey|[_ Hnot]].
  - rewrite Heq in Hkey. destruct Hp as [-> | ->]; cbn in Hkey; intuition discriminate.
  - apply Hnot. rewrite Heq. exact Hdis.
Qed.

Lemma disabled_kicker_or_defence_is_never_recommended_witness :
  exists r, In (3%Z, r) (ap all_enabled) /\ pos (info r) <> "K"%string.
Proof.
  apply (disabled_kicker_or_defence_is_never_recommended "k Dst xx k" all_enabled Vols
           "k" "K" board 3).
  - discriminate.
  - left. reflexivity.
  - reflexivity.
  - left. reflexivity.
  - vm_compute. reflexivity.
Defined.

End Positions.

(** ** draft_app.py: the snake order and the managers before the next turn *)
Module Snake.
Import Draft Shell DraftFacts ShellFacts.

(** [list(range(1, n_teams+1))] and [list(range(n_teams, 0, -1))] *)
Definition range_up (n_teams : Z) : list Z :=
  map (fun j => (1 + Z.of_nat j)%Z) (seq 0 (Z.to_nat n_teams)).
Definition range_down (n_teams : Z) : list Z :=
  map (fun j => (n_teams - Z.of_nat j)%Z) (seq 0 (Z.to_nat n_teams)).

(** The loop of [do_snake] that fills [manager_picks]. *)
Definition snake_picks (n_teams n_rounds : Z) : list Z :=
  fold_left (fun picks i =>
               if (i mod 2 =? 0)%Z then picks ++ range_up n_teams
               else picks ++ range_down n_teams)
            (zrange n_rounds) [].

(** [do_snake(args)] when [args] is the decimal numeral of [number] and
    names no strategy.  Beside the members of [prompt] the command reads the
    member [n_teams] and writes the member [user_manager], which it assigns
    before it checks the range; [conf] is what the user answers should the
    draft be over at once. *)
Definition do_snake (number n_teams : Z) (conf : string) (st : prompt)
    (user_manager : option Z) : result * option Z :=
  if draft_mode st then ((st, Return tt), user_manager)
  else if (0 <? Z.of_nat (length (pp st)))%Z then ((st, Return tt), user_manager)
  else
    let user_manager := Some number in
    if negb ((1 <=? number)%Z && (number <=? n_teams)%Z)
    then ((st, Return tt), user_manager)
    else
      let n_rounds := fold_right Z.add 0%Z (map snd (n_roster st)) in
      let picks := snake_picks n_teams n_rounds in
      let st1 :=
        {| ap := ap st; pp := pp st; draft_mode := true; i_manager_turn := Some (-1)%Z;
           manager_picks := picks; manager_auto_strats := manager_auto_strats st;
           n_roster := n_roster st; disabled_pos := disabled_pos st |} in
      (_advance_snake (length picks) conf st1, user_manager).

(** The loop of [_get_managers_til_next]: collect managers until one comes
    a second time. *)
Fixpoint collect_managers (comp_mans rest : list Z) : list Z :=
  match rest with
  | [] => comp_mans
  | man :: rest' =>
      if existsb (Z.eqb man) comp_mans then comp_mans
      else collect_managers (comp_mans ++ [man]) rest'
  end.

(** [l.remove(x)] on a list of numbers. *)
Fixpoint list_remove (x : Z) (l : list Z) : outcome (list Z) :=
  match l with
  | [] => Raise (ValueError "list.remove(x): x not in list")
  | y :: rest =>
      if (y =? x)%Z then Return rest
      else do rest' <- list_remove x rest; Return (y :: rest')
  end.

(** [_get_managers_til_next()]: [None] outside draft mode. *)
Definition _get_managers_til_next (st : prompt) : outcome (option (list Z)) :=
  match manager_picks st with
  | [] => Return None
  | _ :: _ =>
      match i_manager_turn st with
      | None => Raise TypeError
      | Some i_man =>
          match py_index (manager_picks st) i_man with
          | None => Raise (IndexError "list index out of range")
          | Some current_team =>
              let len := Z.of_nat (length (manager_picks st)) in
              let from := drop (Z.to_nat (norm_index len i_man)) (manager_picks st) in
              do comp_mans <- list_remove current_team (collect_managers [] from);
              Return (Some comp_mans)
          end
      end
  end.

Example snake_picks_3_by_3 :
  snake_picks 3 3 = [1; 2; 3; 3; 2; 1; 1; 2; 3]%Z.
Proof. reflexivity. Qed.

(** *** The snake order *)

Definition round_of (n_teams i : Z) : list Z :=
  if (i mod 2 =? 0)%Z then range_up n_teams else range_down n_teams.

Lemma snake_picks_concat n_teams n_rounds :
  snake_picks n_teams n_rounds = concat (map (round_of n_teams) (zrange n_rounds)).
Proof.
  unfold snake_picks.
  assert (H : forall rounds acc,
            fold_left (fun picks i =>
                         if (i mod 2 =? 0)%Z then picks ++ range_up n_teams
                         else picks ++ range_down n_teams) rounds acc
            = acc ++ concat (map (round_of n_teams) rounds)).
  { induction rounds as [|i rounds IH]; intros acc; cbn [fold_left map concat].
    - rewrite app_nil_r. reflexivity.
    - rewrite IH. unfold round_of. destruct (i mod 2 =? 0)%Z; rewrite <- app_assoc; reflexivity. }
  rewrite H. reflexivity.
Qed.

Lemma round_of_members n i m : In m (round_of n i) <-> (1 <= m <= n)%Z.
Proof.
  unfold round_of, range_up, range_down.
  destruct (i mod 2 =? 0)%Z; rewrite in_map_iff; split.
  - intros [j [<- Hj]]. apply in_seq in Hj. lia.
  - intros Hm. exists (Z.to_nat (m - 1)). split; [lia|]. apply in_seq. lia.
  - intros [j [<- Hj]]. apply in_seq in Hj. lia.
  - intros Hm. exists (Z.to_nat (n - m)). split; [lia|]. apply in_seq. lia.
Qed.

Lemma round_of_NoDup n i : List.NoDup (round_of n i).
Proof.
  unfold round_of, range_up, range_down.
  destruct (i mod 2 =? 0)%Z; apply Finite.Injective_map_NoDup;
    try apply seq_NoDup; intros x y H; lia.
Qed.

Lemma round_of_length n i : length (round_of n i) = Z.to_nat n.
Proof.
  unfold round_of, range_up, range_down.
  destruct (i mod 2 =? 0)%Z; rewrite length_map, length_seq; reflexivity.
Qed.

Lemma round_of_lookup n (r o : nat) :
  (o < Z.to_nat n)%nat ->
  round_of n (Z.of_nat r) !! o
  = Some (if Nat.even r then (1 + Z.of_nat o)%Z else (n - Z.of_nat o)%Z).
Proof.
  intros Ho. unfold round_of.
  assert (E : (Z.of_nat r mod 2 =? 0)%Z = Nat.even r).
  { destruct (Nat.even r) eqn:Ev.
    - apply Nat.even_spec in Ev. destruct Ev as [k ->]. apply Z.eqb_eq.
      rewrite Nat2Z.inj_mul. change (Z.of_nat 2) with 2%Z.
      rewrite Z.mul_comm. apply Z_mod_mult.
    - apply Z.eqb_neq. intros H.
      assert (Hodd : Nat.odd r = true) by (rewrite <- Nat.negb_even, Ev; reflexivity).
      apply Nat.odd_spec in Hodd. destruct Hodd as [k ->].
      rewrite Nat2Z.inj_add, Nat2Z.inj_mul in H. change (Z.of_nat 2) with 2%Z in H.
      change (Z.of_nat 1) with 1%Z in H.
      rewrite Z.add_comm, Z.mul_comm, Z_mod_plus_full in H. discriminate H. }
  rewrite E. unfold range_up, range_down.
  destruct (Nat.even r); rewrite list_lookup_fmap, lookup_seq_lt by exact Ho; reflexivity.
Qed.

Lemma concat_blocks_length {A : Type} (blocks : list (list A)) k :
  Forall (fun b => length b = k) blocks -> length (concat blocks) = (length blocks * k)%nat.
Proof.
  induction 1 as [|b blocks Hb _ IH]; [reflexivity|].
  cbn [concat length]. rewrite length_app, Hb, IH. lia.
Qed.

Lemma concat_blocks_lookup {A : Type} (blocks : list (list A)) k : forall r o b,
  Forall (fun b => length b = k) blocks ->
  blocks !! r = Some b -> (o < k)%nat ->
  concat blocks !! (r * k + o)%nat = b !! o.
Proof.
  induction blocks as [|b0 blocks IH]; intros r o b Hall Hr Ho; [discriminate Hr|].
  inversion Hall as [|b' l Hb0 Hrest]; subst. cbn [concat].
  destruct r as [|r].
  - injection Hr as ->. cbn [Nat.mul Nat.add]. apply lookup_app_l. lia.
  - rewrite lookup_app_r by lia.
    replace (S r * length b0 + o - length b0)%nat with (r * length b0 + o)%nat by lia.
    apply IH; assumption.
Qed.

Lemma count_occ_rounds n rounds m :
  (1 <= m <= n)%Z ->
  count_occ Z.eq_dec (concat (map (round_of n) rounds)) m = length rounds.
Proof.
  intros Hm. induction rounds as [|i rounds IH]; [reflexivity|].
  cbn [map concat length]. rewrite count_occ_app, IH.
  rewrite (proj1 (NoDup_count_occ' Z.eq_dec (round_of n i)) (round_of_NoDup n i) m)
    by (apply round_of_members, Hm).
  reflexivity.
Qed.

Lemma zrange_length n : length (zrange n) = Z.to_nat n.
Proof. unfold zrange. rewrite length_map, length_seq. reflexivity. Qed.

Lemma rounds_all_full n rounds : Forall (fun b => length b = Z.to_nat n) (map (round_of n) rounds).
Proof. apply Forall_map, List.Forall_forall. intros i _. apply round_of_length. Qed.

Lemma snake_picks_lookup n_teams n_rounds (r o : nat) :
  (r < Z.to_nat n_rounds)%nat -> (o < Z.to_nat n_teams)%nat ->
  snake_picks n_teams n_rounds !! (r * Z.to_nat n_teams + o)%nat
  = Some (if Nat.even r then (1 + Z.of_nat o)%Z else (n_teams - Z.of_nat o)%Z).
Proof.
  intros Hr Ho. rewrite snake_picks_concat.
  rewrite (concat_blocks_lookup _ (Z.to_nat n_teams) r o (round_of n_teams (Z.of_nat r))
             (rounds_all_full _ _)); [apply round_of_lookup, Ho| |exact Ho].
  unfold zrange. rewrite !list_lookup_fmap, lookup_seq_lt by exact Hr. reflexivity.
Qed.

(** The snake order is fair and has the shape its name says: it has
    [n_teams * n_rounds] turns, names managers 1..n_teams only, gives every
    manager exactly [n_rounds] turns, and in round [r] (counted from 0) the
    turn at offset [o] belongs to manager [1 + o] when [r] is even and to
    manager [n_teams - o] when [r] is odd, so that the manager who ends a
    round begins the next one. *)
Theorem snake_order_gives_each_manager_one_turn_per_round :
  forall (n_teams n_rounds : Z),
    length (snake_picks n_teams n_rounds) = (Z.to_nat n_rounds * Z.to_nat n_teams)%nat
    /\ (forall m, In m (snake_picks n_teams n_rounds) -> (1 <= m <= n_teams)%Z)
    /\ (forall m, (1 <= m <= n_teams)%Z ->
          count_occ Z.eq_dec (snake_picks n_teams n_rounds) m = Z.to_nat n_rounds)
    /\ (forall r o : nat,
          (r < Z.to_nat n_rounds)%nat -> (o < Z.to_nat n_teams)%nat ->
          snake_picks n_teams n_rounds !! (r * Z.to_nat n_teams + o)%nat
          = Some (if Nat.even r then (1 + Z.of_nat o)%Z else (n_teams - Z.of_nat o)%Z))
    /\ (forall r : nat,
          (S r < Z.to_nat n_rounds)%nat -> (0 < Z.to_nat n_teams)%nat ->
          snake_picks n_teams n_rounds !! (r * Z.to_nat n_teams + (Z.to_nat n_teams - 1))%nat
          = snake_picks n_teams n_rounds !! (S r * Z.to_nat n_teams)%nat).
Proof.
  intros n_teams n_rounds. split; [|split; [|split; [|split]]].
  - rewrite snake_picks_concat, (concat_blocks_length _ (Z.to_nat n_teams)
                                   (rounds_all_full _ _)).
    rewrite length_map, zrange_length. reflexivity.
  - intros m Hm. rewrite snake_picks_concat in Hm. apply in_concat in Hm as [b [Hb Hm]].
    apply in_map_iff in Hb as [i [<- _]]. apply round_of_members in Hm. exact Hm.
  - intros m Hm. rewrite snake_picks_concat, count_occ_rounds by exact Hm.
    apply zrange_length.
  - intros r o. apply snake_picks_lookup.
  - intros r Hr Hn.
    rewrite (snake_picks_lookup n_teams n_rounds r (Z.to_nat n_teams - 1)) by lia.
    replace (S r * Z.to_nat n_teams)%nat with (S r * Z.to_nat n_teams + 0)%nat by lia.
    rewrite (snake_picks_lookup n_teams n_rounds (S r) 0) by lia.
    rewrite Nat.even_succ, <- Nat.negb_even. destruct (Nat.even r); cbn [negb]; f_equal; lia.
Qed.

Lemma snake_order_gives_each_manager_one_turn_per_round_witness :
  snake_picks 3 2 !! 4%nat = Some 2%Z.
Proof.
  assert (Hr : (1 < Z.to_nat 2)%nat) by (cbn; lia).
  assert (Ho : (1 < Z.to_nat 3)%nat) by (cbn; lia).
  exact (proj1 (proj2 (proj2 (proj2
           (snake_order_gives_each_manager_one_turn_per_round 3 2)))) 1%nat 1%nat Hr Ho).
Defined.


Lemma nth_error_lookup {A : Type} (l : list A) (i : nat) : nth_error l i = l !! i.
Proof.
  revert i. induction l as [|x l IH]; intros [|i]; try reflexivity. apply IH.
Qed.

(** [snake N] in draft mode, or with players already picked, changes
    nothing.  Otherwise it records N as the user's draft position, also when
    N is outside 1..n_teams, where it does nothing else.  For a valid N, a
    roster with at least one place and a manager 1 who picks by hand, the
    draft starts at turn 0 with manager 1 to pick, the turn sequence is the
    snake order for as many rounds as a roster has places, and the tables
    are untouched. *)
Theorem snake_starts_the_draft_at_manager_one :
  forall (number n_teams : Z) (conf : string) (st : prompt) (user_manager : option Z),
    (draft_mode st = true \/ pp st <> [] ->
     do_snake number n_teams conf st user_manager = ((st, Return tt), user_manager))
    /\ (draft_mode st = false -> pp st = [] -> ~ (1 <= number <= n_teams)%Z ->
        do_snake number n_teams conf st user_manager = ((st, Return tt), Some number))
    /\ (draft_mode st = false -> pp st = [] ->
        (1 <= number <= n_teams)%Z ->
        (0 < fold_right Z.add 0%Z (map snd (n_roster st)))%Z ->
        dict_find 1%Z (manager_auto_strats st) = None ->
        exists st',
          do_snake number n_teams conf st user_manager = ((st', Return tt), Some number)
          /\ draft_mode st' = true
          /\ i_manager_turn st' = Some 0%Z
          /\ manager_picks st'
             = snake_picks n_teams (fold_right Z.add 0%Z (map snd (n_roster st)))
          /\ _get_current_manager st' = Return (Some 1%Z)
          /\ ap st' = ap st /\ pp st' = pp st).
Proof.
  intros user n_teams conf st um. split; [|split].
  - intros H. unfold do_snake. destruct (draft_mode st) eqn:Hd; [reflexivity|].
    destruct H as [H|H]; [discriminate H|].
    destruct (pp st) as [|x l]; [contradiction|]. reflexivity.
  - intros Hd Hpp H. unfold do_snake. rewrite Hd, Hpp. cbn [length].
    change (0 <? Z.of_nat 0)%Z with false. cbv iota zeta.
    destruct ((1 <=? user)%Z && (user <=? n_teams)%Z) eqn:E; [|reflexivity].
    exfalso. apply H. apply andb_prop in E as [E1 E2].
    apply Z.leb_le in E1, E2. lia.
  - intros Hd Hpp Huser Hrounds Hauto. unfold do_snake. rewrite Hd, Hpp. cbn [length].
    change (0 <? Z.of_nat 0)%Z with false. cbv iota.
    assert (E : ((1 <=? user)%Z && (user <=? n_teams)%Z) = true).
    { apply andb_true_intro. split; apply Z.leb_le; lia. }
    cbv zeta. rewrite E. cbn [negb].
    set (n_rounds := fold_right Z.add 0%Z (map snd (n_roster st))) in *.
    set (picks := snake_picks n_teams n_rounds).
    assert (Hfirst : picks !! 0%nat = Some 1%Z).
    { pose proof (snake_picks_lookup n_teams n_rounds 0 0 ltac:(lia) ltac:(lia)) as H.
      exact H. }
    assert (Hlen : (0 < Z.of_nat (length picks))%Z).
    { apply lookup_lt_Some in Hfirst. lia. }
    set (st1 := {| ap := ap st; pp := []; draft_mode := true; i_manager_turn := Some (-1)%Z;
                   manager_picks := picks; manager_auto_strats := manager_auto_strats st;
                   n_roster := n_roster st; disabled_pos := disabled_pos st |}).
    assert (Hidx : py_index picks 0 = Some 1%Z).
    { unfold py_index. cbn. rewrite nth_error_lookup. exact Hfirst. }
    rewrite (advance_snake_manual (length picks) conf st1 (-1) 1 eq_refl Hlen Hidx Hauto).
    eexists. split; [reflexivity|].
    cbn [draft_mode i_manager_turn manager_picks ap pp with_turn st1].
    split; [reflexivity|]. split; [reflexivity|]. split; [reflexivity|].
    split; [|split; reflexivity].
    unfold _get_current_manager. cbn [manager_picks i_manager_turn with_turn st1].
    destruct picks as [|p0 rest] eqn:Ep; [discriminate Hfirst|].
    change (-1 + 1)%Z with 0%Z.
    destruct (Z.of_nat (length (p0 :: rest)) <=? 0)%Z eqn:E0;
      [apply Z.leb_le in E0; lia|].
    rewrite Hidx. reflexivity.
Qed.

Lemma snake_starts_the_draft_at_manager_one_witness :
  do_snake 5 2 "n" CommandFacts.undrafted None
  = ((CommandFacts.undrafted, Return tt), Some 5%Z)
  /\ exists st',
       do_snake 2 2 "n" CommandFacts.undrafted None = ((st', Return tt), Some 2%Z)
       /\ draft_mode st' = true
       /\ i_manager_turn st' = Some 0%Z
       /\ manager_picks st' = snake_picks 2 8.
Proof.
  split.
  { apply (proj1 (proj2 (snake_starts_the_draft_at_manager_one
                           5 2 "n" CommandFacts.undrafted None)));
      [reflexivity | reflexivity | lia]. }
  destruct (proj2 (proj2 (snake_starts_the_draft_at_manager_one
                            2 2 "n" CommandFacts.undrafted None)))
    as (st' & H1 & H2 & H3 & H4 & _).
  - reflexivity.
  - reflexivity.
  - lia.
  - reflexivity.
  - reflexivity.
  - exists st'. repeat split; assumption.
Defined.

(** *** The managers before the next turn *)

Lemma collect_managers_spec rest : forall seen,
  List.NoDup seen ->
  exists pre post,
    rest = pre ++ post
    /\ collect_managers seen rest = seen ++ pre
    /\ List.NoDup (seen ++ pre)
    /\ match post with [] => True | next :: _ => In next (seen ++ pre) end.
Proof.
  induction rest as [|man rest IH]; intros seen Hseen.
  - exists [], []. rewrite !app_nil_r.
    split; [reflexivity|]. split; [reflexivity|]. split; [exact Hseen | exact I].
  - cbn [collect_managers]. destruct (existsb (Z.eqb man) seen) eqn:E.
    + exists [], (man :: rest). rewrite !app_nil_r.
      split; [reflexivity|]. split; [reflexivity|]. split; [exact Hseen|].
      apply existsb_exists in E as [y [Hy Ey]]. apply Z.eqb_eq in Ey. subst y. exact Hy.
    + assert (Hnew : ~ In man seen).
      { intros Hin. assert (existsb (Z.eqb man) seen = true).
        { apply existsb_exists. exists man. split; [exact Hin | apply Z.eqb_refl]. }
        congruence. }
      destruct (IH (seen ++ [man])) as (pre & post & E1 & E2 & E3 & E4).
      { apply List.NoDup_app; [exact Hseen | repeat constructor; intros [] |].
        intros a Ha [<-|[]]. contradiction. }
      exists (man :: pre), post. rewrite <- app_assoc in E2, E3, E4.
      split; [rewrite E1; reflexivity|]. split; [exact E2|]. split; [exact E3 | exact E4].
Qed.

(** [_get_managers_til_next] at turn [t] of the draft sequence returns the
    managers of the turns that follow, up to (not including) the first turn
    of a manager who is already on the list or is the current one: the list
    is a run of the sequence starting right after turn [t], it names no
    manager twice and never the current manager, and it stops only at the
    end of the sequence or before a repeated manager. *)
Theorem managers_til_next_are_the_following_distinct_managers :
  forall (st : prompt) (t m : Z),
    i_manager_turn st = Some t ->
    (0 <= t)%Z ->
    manager_picks st !! Z.to_nat t = Some m ->
    exists comp rest,
      _get_managers_til_next st = Return (Some comp)
      /\ drop (S (Z.to_nat t)) (manager_picks st) = comp ++ rest
      /\ List.NoDup (m :: comp)
      /\ match rest with [] => True | next :: _ => In next (m :: comp) end.
Proof.
  intros st t m Ht Ht0 Hm. unfold _get_managers_til_next. rewrite Ht.
  pose proof (lookup_lt_Some _ _ _ Hm) as Hlt.
  destruct (manager_picks st) as [|p0 picks0] eqn:Ep; [discriminate Hm|].
  rewrite <- Ep in *. clear Ep p0 picks0.
  assert (Hidx : py_index (manager_picks st) t = Some m).
  { unfold py_index. destruct (t <? 0)%Z eqn:E; [apply Z.ltb_lt in E; lia|].
    rewrite nth_error_lookup. exact Hm. }
  rewrite Hidx. cbv zeta.
  assert (Hnorm : norm_index (Z.of_nat (length (manager_picks st))) t = t).
  { unfold norm_index. destruct (t <? 0)%Z eqn:E; [apply Z.ltb_lt in E; lia|]. lia. }
  rewrite Hnorm.
  assert (Hdrop : drop (Z.to_nat t) (manager_picks st)
                  = m :: drop (S (Z.to_nat t)) (manager_picks st)).
  { apply drop_S. exact Hm. }
  rewrite Hdrop. cbn [collect_managers existsb app].
  destruct (collect_managers_spec (drop (S (Z.to_nat t)) (manager_picks st)) [m])
    as (pre & post & E1 & E2 & E3 & E4).
  { repeat constructor. intros []. }
  rewrite E2. cbn [app list_remove]. rewrite Z.eqb_refl.
  exists pre, post. split; [reflexivity|]. split; [exact E1|]. split; [exact E3 | exact E4].
Qed.

Definition mid_draft : prompt :=
  {| ap := board; pp := []; draft_mode := true; i_manager_turn := Some 1%Z;
     manager_picks := snake_picks 3 2; manager_auto_strats := [];
     n_roster := n_roster_per_team sample_league; disabled_pos := [] |}.

Lemma managers_til_next_are_the_following_distinct_managers_witness :
  _get_managers_til_next mid_draft = Return (Some [3%Z])
  /\ exists comp rest,
       drop 2 (manager_picks mid_draft) = comp ++ rest /\ List.NoDup (2%Z :: comp).
Proof.
  split; [reflexivity|].
  destruct (managers_til_next_are_the_following_distinct_managers mid_draft 1 2)
    as (comp & rest & _ & H2 & H3 & _).
  - reflexivity.
  - lia.
  - reflexivity.
  - exists comp, rest. split; assumption.
Defined.

End Snake.

(** ** draft_app.py: [evaluate_roster] *)
Module Roster.
Import Bayes Draft Shell DraftFacts ShellFacts StartupFacts.

(** [d[key]] on a dictionary of counts. *)
Definition dict_lookup (d : list (string * Z)) (key : string) : outcome Z :=
  match find (fun kv => (fst kv =? key)%string) d with
  | Some kv => Return (snd kv)
  | None => Raise (KeyError key)
  end.

(** [df.index.isin(labels)] *)
Definition labelled_in (labels : list Z) (x : Z * row) : bool :=
  existsb (Z.eqb (fst x)) labels.

Definition proj (x : Z * row) : Q := exp_proj (info (snd x)).

(** [df.sort_values('exp_proj', ascending=False)] *)
Definition by_projection (df : frame) : frame :=
  sort_values (fun r => Some (exp_proj (info r))) false df.

(** The body of the loop over the six positions; the state is
    [(starterval, i_st)]. *)
Definition starters_step (n_roster_per_team : list (string * Z)) (rosdf : frame)
    (acc : Q * list Z) (p : string) : outcome (Q * list Z) :=
  do n_starters <- dict_lookup n_roster_per_team p;
  let rospos := by_projection (List.filter (at_pos p) rosdf) in
  let i_stpos := map fst (slice 0 n_starters rospos) in
  let val := Qsum (map proj (List.filter (labelled_in i_stpos) rospos)) in
  Return (fst acc + val, snd acc ++ i_stpos).

(** The body of the loop over the bench.  [start_to_bench_ratio] is computed
    and not used; its division fails when the bench has no row at the
    position.  [pos_injury_factor] has the six positions as its keys. *)
Definition bench_step (benchdf : frame) (benchval : Q) (x : Z * row) : outcome Q :=
  let p := rpos x in
  match List.filter (at_pos p) benchdf with
  | [] => Raise ZeroDivisionError
  | _ :: _ =>
      if in_list p main_positions
      then Return (benchval + (1 - bye_factor * pos_injury_factor p) * proj x)
      else Raise (KeyError p)
  end.

(** [evaluate_roster(rosdf, n_roster_per_team, flex_pos)]: the pair it
    returns (what it prints is left out). *)
Definition evaluate_roster (rosdf : frame) (n_roster_per_team : list (string * Z))
    (flex_pos : list string) : outcome (Q * Q) :=
  do st <- for_each (starters_step n_roster_per_team rosdf) main_positions (0, []);
  do n_flex <- dict_lookup n_roster_per_team "FLEX";
  let rosflex :=
    by_projection
      (List.filter (fun x => negb (labelled_in (snd st) x) && in_list (rpos x) flex_pos)
                   rosdf) in
  let i_flex := map fst (slice 0 n_flex rosflex) in
  let starterval := fst st + Qsum (map proj (List.filter (labelled_in i_flex) rosflex)) in
  let i_st := snd st ++ i_flex in
  let benchdf := List.filter (fun x => negb (labelled_in i_st x)) rosdf in
  do benchval <- for_each (bench_step benchdf) benchdf 0;
  Return (starterval, benchval).


Lemma norm_index_zero len : (0 <= len)%Z -> norm_index len 0 = 0%Z.
Proof. intros H. unfold norm_index. replace (0 <? 0)%Z with false by reflexivity. lia. Qed.

Lemma slice_from_start {A : Type} n (l : list A) : exists k, slice 0 n l = take k l.
Proof.
  unfold slice. cbv zeta. rewrite norm_index_zero by lia.
  eexists. reflexivity.
Qed.

Lemma labelled_in_spec labels x : labelled_in labels x = true <-> In (fst x) labels.
Proof.
  unfold labelled_in. rewrite existsb_exists. split.
  - intros [y [Hy E]]. apply Z.eqb_eq in E. rewrite E. exact Hy.
  - intros H. exists (fst x). split; [exact H | apply Z.eqb_refl].
Qed.

Lemma labelled_in_nil (l : frame) : List.filter (labelled_in []) l = [].
Proof. induction l as [|y l IH]; [reflexivity|]. cbn. exact IH. Qed.

Lemma labelled_in_take (l : frame) : forall k,
  List.NoDup (map fst l) ->
  List.filter (labelled_in (map fst (take k l))) l = take k l.
Proof.
  induction l as [|x l IH]; intros k Hnd; [destruct k; reflexivity|].
  cbn [map] in Hnd. apply NoDup_cons_iff in Hnd as [Hx Hnd].
  destruct k as [|k].
  - apply labelled_in_nil.
  - change (take (S k) (x :: l)) with (x :: take k l). cbn [map List.filter].
    assert (Hin : labelled_in (fst x :: map fst (take k l)) x = true).
    { apply labelled_in_spec. left. reflexivity. }
    rewrite Hin. f_equal. rewrite <- (IH k Hnd) at 2.
    apply filter_ext_in. intros y Hy. unfold labelled_in. cbn [existsb].
    destruct (fst y =? fst x)%Z eqn:E; [|reflexivity].
    apply Z.eqb_eq in E. exfalso. apply Hx. rewrite <- E. apply in_map, Hy.
Qed.

Lemma Qsum_perm l l' : Permutation l l' -> Qsum l == Qsum l'.
Proof.
  induction 1 as [|c l l' _ IH|c d l|l1 l2 l3 _ IH1 _ IH2]; simpl.
  - reflexivity.
  - rewrite IH. reflexivity.
  - ring.
  - rewrite IH1. exact IH2.
Qed.

Lemma NoDup_rows (df : frame) : List.NoDup (map fst df) -> List.NoDup df.
Proof. apply NoDup_map_inv. Qed.

Lemma by_projection_NoDup df :
  List.NoDup (map fst df) -> List.NoDup (map fst (by_projection df)).
Proof.
  intros H. eapply Permutation_NoDup; [|exact H].
  apply Permutation_map. symmetry. apply sort_values_perm.
Qed.

Lemma filter_labels_NoDup (f : Z * row -> bool) df :
  List.NoDup (map fst df) -> List.NoDup (map fst (List.filter f df)).
Proof.
  induction df as [|x df IH]; intros H; [constructor|].
  cbn [map] in H. apply NoDup_cons_iff in H as [Hx H]. cbn [List.filter].
  destruct (f x); [|apply IH, H]. cbn [map]. constructor; [|apply IH, H].
  intros Hin. apply Hx. apply in_map_iff in Hin as [y [E Hy]].
  apply filter_In in Hy as [Hy _]. rewrite <- E. apply in_map, Hy.
Qed.

Lemma drop_incl {A : Type} n (l : list A) x : In x (drop n l) -> In x l.
Proof.
  revert n. induction l as [|a l IH]; intros [|n] H; simpl in H; try contradiction.
  - exact H.
  - right. exact (IH n H).
Qed.

Lemma take_or_drop {A : Type} n (l : list A) x :
  In x l -> In x (take n l) \/ In x (drop n l).
Proof. intros H. rewrite <- (firstn_skipn n l) in H. apply in_app_or, H. Qed.

Lemma NoDup_take_rows {A : Type} n (l : list A) : List.NoDup l -> List.NoDup (take n l).
Proof.
  revert n. induction l as [|a l IH]; intros [|n] H; try constructor.
  - apply NoDup_cons_iff in H as [Ha H]. intros Hin. apply Ha. exact (take_incl _ _ _ Hin).
  - apply NoDup_cons_iff in H as [Ha H]. apply IH, H.
Qed.

Lemma sorted_take_drop {A : Type} (R : A -> A -> Prop) (l : list A) :
  StronglySorted R l ->
  forall k s b, In s (take k l) -> In b (drop k l) -> R s b.
Proof.
  induction 1 as [|a l Hs IH Ha]; intros [|k] s b Hs' Hb; simpl in Hs'; try contradiction.
  cbn [drop] in Hb. destruct Hs' as [<-|Hs'].
  - rewrite List.Forall_forall in Ha. apply Ha. exact (drop_incl _ _ _ Hb).
  - exact (IH k s b Hs' Hb).
Qed.

(** The best [k] rows of a table by projection dominate the others. *)
Lemma best_by_projection df k s b :
  In s (take k (by_projection df)) -> In b df -> ~ In b (take k (by_projection df)) ->
  proj b <= proj s.
Proof.
  intros Hs Hb Hnb.
  assert (Hb' : In b (by_projection df)) by (apply sort_values_In, Hb).
  destruct (take_or_drop k _ _ Hb') as [Hb''|Hb'']; [contradiction|].
  pose proof (sorted_take_drop _ _ (StartupFacts.sort_values_sorted _ false df) k s b Hs Hb'')
    as Hord.
  unfold StartupFacts.ordered, key_le in Hord. apply Qle_bool_iff in Hord. exact Hord.
Qed.

Lemma for_each_prefix {S A : Type} (body : S -> A -> outcome S)
    (P : list A -> S -> Prop) (all : list A) :
  forall items done init final,
    all = done ++ items ->
    P done init ->
    (forall pre x post st st',
        all = pre ++ x :: post -> P pre st -> body st x = Return st' -> P (pre ++ [x]) st') ->
    for_each body items init = Return final ->
    P all final.
Proof.
  induction items as [|x items IH]; intros done init final Hall HP Hstep Hrun.
  - unfold for_each in Hrun. simpl in Hrun. injection Hrun as <-.
    rewrite Hall, app_nil_r. exact HP.
  - rewrite for_each_cons in Hrun. apply bind_return in Hrun as [st [Hx Hrun]].
    apply (IH (done ++ [x]) st final).
    + rewrite Hall, <- app_assoc. reflexivity.
    + exact (Hstep done x items init st Hall HP Hx).
    + exact Hstep.
    + exact Hrun.
Qed.

(** What the loop over the six positions keeps: the labels counted so far
    are those of distinct roster rows [S] at the positions done, their
    projections sum to [starterval], and no row left out at one of their
    positions projects higher. *)
Definition starters_inv (rosdf : frame) (done : list string) (st : Q * list Z) : Prop :=
  exists S : frame,
    snd st = map fst S
    /\ fst st == Qsum (map proj S)
    /\ List.NoDup S
    /\ (forall x, In x S -> In x rosdf /\ In (rpos x) done)
    /\ (forall s b, In s S -> In b rosdf -> ~ In b S -> rpos s = rpos b ->
                    proj b <= proj s).

Lemma starters_step_inv d rosdf pre p st st' :
  List.NoDup (map fst rosdf) -> ~ In p pre ->
  starters_inv rosdf pre st ->
  starters_step d rosdf st p = Return st' ->
  starters_inv rosdf (pre ++ [p]) st'.
Proof.
  intros Hnd Hp [S [Hl [Hv [HS [Hin Hdom]]]]] Hrun.
  unfold starters_step in Hrun. apply bind_return in Hrun as [n [_ Hrun]].
  cbv zeta in Hrun. injection Hrun as <-.
  destruct (slice_from_start n (by_projection (List.filter (at_pos p) rosdf))) as [k ->].
  rewrite labelled_in_take
    by (apply by_projection_NoDup, filter_labels_NoDup, Hnd).
  set (new := take k (by_projection (List.filter (at_pos p) rosdf))).
  assert (Hnew : forall x, In x new -> In x rosdf /\ rpos x = p).
  { intros x Hx. apply take_incl in Hx. apply sort_values_In in Hx.
    apply filter_In in Hx as [Hx Hpos]. split; [exact Hx|].
    unfold at_pos in Hpos. apply String.eqb_eq in Hpos. exact Hpos. }
  exists (S ++ new). cbn [fst snd]. split; [|split; [|split; [|split]]].
  - rewrite Hl, map_app. reflexivity.
  - rewrite map_app, BayesMore.Qsum_app, Hv. reflexivity.
  - apply List.NoDup_app; [exact HS | |].
    + apply NoDup_take_rows, NoDup_rows, by_projection_NoDup, filter_labels_NoDup, Hnd.
    + intros x Hx Hx'. apply Hin in Hx as [_ Hx]. apply Hnew in Hx' as [_ Hx'].
      apply Hp. rewrite <- Hx'. exact Hx.
  - intros x Hx. apply in_app_or in Hx as [Hx|Hx].
    + destruct (Hin x Hx) as [H1 H2]. split; [exact H1 | apply in_or_app; left; exact H2].
    + destruct (Hnew x Hx) as [H1 H2]. split; [exact H1|].
      apply in_or_app. right. left. symmetry. exact H2.
  - intros s b Hs Hb Hnb Hpos. apply in_app_or in Hs as [Hs|Hs].
    + apply (Hdom s b Hs Hb); [|exact Hpos]. intros H. apply Hnb, in_or_app. left. exact H.
    + apply (best_by_projection (List.filter (at_pos p) rosdf) k s b Hs).
      * apply filter_In. split; [exact Hb|]. unfold at_pos. apply String.eqb_eq.
        rewrite <- Hpos. apply (Hnew s Hs).
      * intros H. apply Hnb, in_or_app. right. exact H.
Qed.

Lemma main_positions_NoDup : List.NoDup main_positions.
Proof.
  unfold main_positions. repeat (constructor; [cbn; intros H; intuition discriminate|]).
  constructor.
Qed.

Lemma starters_loop_inv d rosdf final :
  List.NoDup (map fst rosdf) ->
  for_each (starters_step d rosdf) main_positions (0, []) = Return final ->
  starters_inv rosdf main_positions final.
Proof.
  intros Hnd Hrun.
  apply (for_each_prefix (starters_step d rosdf) (starters_inv rosdf) main_positions
           main_positions [] (0, []) final); [reflexivity | | | exact Hrun].
  - exists []. cbn. repeat split; try reflexivity; try constructor; try contradiction.
  - intros pre x post st st' Hall Hinv Hx.
    apply (starters_step_inv d rosdf pre x st st' Hnd); [|exact Hinv|exact Hx].
    pose proof main_positions_NoDup as H. rewrite Hall in H.
    apply NoDup_remove_2 in H. intros Hin. apply H, in_or_app. left. exact Hin.
Qed.

Lemma starters_loop_returns d rosdf : forall items init,
  (forall p, In p items -> exists n, dict_lookup d p = Return n) ->
  exists final, for_each (starters_step d rosdf) items init = Return final.
Proof.
  induction items as [|p items IH]; intros init Hkeys.
  - exists init. reflexivity.
  - rewrite for_each_cons. unfold starters_step at 1.
    destruct (Hkeys p (or_introl eq_refl)) as [n ->]. cbn [bind].
    apply IH. intros q Hq. apply Hkeys. right. exact Hq.
Qed.

Lemma in_list_true s l : In s l -> in_list s l = true.
Proof.
  intros H. unfold in_list. apply existsb_exists. exists s. split; [exact H|].
  apply String.eqb_refl.
Qed.





Definition sample_roster : frame :=
  [ (4, new_row (mkp "RB A" "RB" 250)); (0, new_row (mkp "QB A" "QB" 300));
    (7, new_row (mkp "RB D" "RB" 235)); (5, new_row (mkp "RB B" "RB" 245));
    (1, new_row (mkp "QB B" "QB" 290)) ]%Z.


Lemma bench_loop_raises benchdf : forall items init,
  incl items benchdf ->
  (exists x, In x items /\ ~ In (rpos x) main_positions) ->
  exists p, for_each (bench_step benchdf) items init = Raise (KeyError p)
            /\ ~ In p main_positions.
Proof.
  induction items as [|x items IH]; intros init Hincl [bad [Hbad Hpos]]; [destruct Hbad|].
  rewrite for_each_cons. unfold bench_step at 1. cbv zeta.
  destruct (List.filter (at_pos (rpos x)) benchdf) as [|y rest] eqn:E.
  { exfalso. assert (H : In x (List.filter (at_pos (rpos x)) benchdf)).
    { apply filter_In. split; [apply Hincl; left; reflexivity|].
      unfold at_pos. apply String.eqb_refl. }
    rewrite E in H. exact H. }
  destruct (in_list (rpos x) main_positions) eqn:Hm; cbn [bind].
  - apply IH; [intros z Hz; apply Hincl; right; exact Hz|].
    exists bad. split; [|exact Hpos]. destruct Hbad as [<-|Hbad]; [|exact Hbad].
    exfalso. apply Hpos. unfold in_list in Hm. apply existsb_exists in Hm as [q [Hq E']].
    apply String.eqb_eq in E'. rewrite E'. exact Hq.
  - exists (rpos x). split; [reflexivity|].
    intros H. rewrite (in_list_true _ _ H) in Hm. discriminate Hm.
Qed.

(** A roster that holds a player at a position outside the six, which is not
    a flex position either, cannot be evaluated: the player is on the
    bench, and the bench loop raises KeyError at a position that
    [pos_injury_factor] does not have. *)
Theorem evaluate_roster_raises_on_unknown_position rosdf d flex x :
  List.NoDup (map fst rosdf) ->
  (forall p, In p ("FLEX"%string :: main_positions) -> exists n, dict_lookup d p = Return n) ->
  In x rosdf -> ~ In (rpos x) main_positions -> in_list (rpos x) flex = false ->
  exists p, evaluate_roster rosdf d flex = Raise (KeyError p) /\ ~ In p main_positions.
Proof.
  intros Hnd Hkeys Hx Hpos Hflex. unfold evaluate_roster.
  destruct (starters_loop_returns d rosdf main_positions (0, []))
    as [st Hst]; [intros p Hp; apply Hkeys; right; exact Hp|].
  rewrite Hst. cbn [bind].
  destruct (Hkeys "FLEX"%string (or_introl eq_refl)) as [n_flex ->]. cbn [bind]. cbv zeta.
  destruct (starters_loop_inv d rosdf st Hnd Hst) as [S [Hl [_ [_ [Hin _]]]]].
  set (cand := List.filter
                 (fun x => negb (labelled_in (snd st) x) && in_list (rpos x) flex) rosdf).
  set (i_flex := map fst (slice 0 n_flex (by_projection cand))).
  set (benchdf := List.filter (fun x => negb (labelled_in (snd st ++ i_flex) x)) rosdf).
  destruct (bench_loop_raises benchdf benchdf 0) as [p [Hrun Hp]].
  { intros z Hz. exact Hz. }
  { exists x. split; [|exact Hpos]. apply filter_In. split; [exact Hx|].
    apply negb_true_iff. destruct (labelled_in (snd st ++ i_flex) x) eqn:E; [|reflexivity].
    exfalso. apply labelled_in_spec in E. apply in_app_or in E as [E|E].
    - rewrite Hl in E. apply in_map_iff in E as [[i r] [E Hy]].
      destruct x as [j r']. cbn [fst] in E. subst j.
      rewrite (NoDup_labels_eq rosdf i r' r Hnd Hx (proj1 (Hin _ Hy))) in Hpos.
      apply Hpos, (Hin _ Hy).
    - unfold i_flex in E. destruct (slice_from_start n_flex (by_projection cand)) as [k Hk].
      rewrite Hk in E. apply in_map_iff in E as [[i r] [E Hy]].
      apply take_incl in Hy. apply sort_values_In in Hy.
      apply filter_In in Hy as [Hy Hc]. apply andb_true_iff in Hc as [_ Hc].
      destruct x as [j r']. cbn [fst] in E. subst j.
      rewrite (NoDup_labels_eq rosdf i r' r Hnd Hx Hy) in Hflex.
      rewrite Hflex in Hc. discriminate Hc. }
  exists p. rewrite Hrun. cbn [bind]. split; [reflexivity | exact Hp].
Qed.

Definition roster_with_linebacker : frame :=
  sample_roster ++ [ (9%Z, new_row (mkp "LB A" "LB" 90)) ].

Lemma evaluate_roster_raises_on_unknown_position_witness :
  exists p, evaluate_roster roster_with_linebacker (n_roster_per_team sample_league) flex_pos
              = Raise (KeyError p)
            /\ ~ In p main_positions.
Proof.
  apply (evaluate_roster_raises_on_unknown_position roster_with_linebacker
           (n_roster_per_team sample_league) flex_pos (9%Z, new_row (mkp "LB A" "LB" 90))).
  - cbn. repeat (constructor; [cbn; intros H; intuition discriminate|]). constructor.
  - intros p Hp. cbn in Hp.
    repeat (destruct Hp as [<-|Hp]; [eexists; reflexivity|]). destruct Hp.
  - cbn. tauto.
  - cbn. intros H. intuition discriminate.
  - reflexivity.
Defined.

End Roster.
